(** * web_monitoring.differs: a shallow embedding and its properties

    The module under study, [web_monitoring/differs.py], computes and renders
    differences between two captures of an HTML page.  This development
    embeds its functions in Rocq and proves properties of them.

    Layout:
    - Part I   Python values, exceptions, the two result monads;
    - Part II  the Beautiful Soup object model (objects with identity, kept
               in a store of parentless trees) and the tree methods the
               module calls;
    - Part III the regular expression engine and [REPEATED_BLANK_LINES];
    - Part IV  the functions of [differs.py], in source order;
    - Part V   reference definitions used to state properties;
    - Part VI  lemmas and theorems;
    - Part VII the theorems applied to sample documents;
    - Part VIII further properties: the remaining functions, error and
               edge cases, normal forms. *)

From Stdlib Require Import ZArith Lia Ascii.
From Stdlib.Strings Require Import Byte.
From stdpp Require Import base option list strings gmap pretty.

Set Default Proof Using "Type".
Set Warnings "-register-all,-clear-no-such-hyp".
Open Scope string_scope.
Open Scope list_scope.
Open Scope nat_scope.

(* ===================================================================== *)
(** * Part I: Python values, exceptions, monads                          *)
(* ===================================================================== *)

(** The exceptions the module can raise, with the datum Python attaches. *)
Inductive exn :=
| TypeError (msg : string)
| KeyError (key : string)
| AttributeError (msg : string)
| ValueError (msg : string)
| OutsideModel (msg : string).
(* [OutsideModel] is not a Python exception: it marks the one situation the
   tree model cannot represent (bs4 building a cyclic structure by inserting
   a tag beneath one of its own descendants). *)

Inductive result (A : Type) :=
| Ok (a : A)
| Raise (e : exn).
Arguments Ok {A} a.
Arguments Raise {A} e.

Definition result_bind {A B} (r : result A) (k : A → result B) : result B :=
  match r with
  | Ok a => k a
  | Raise e => Raise e
  end.

Notation "'let?' x ':=' e 'in' k" := (result_bind e (λ x, k))
  (at level 10, x pattern, e at level 200, k at level 200,
   format "'[v' 'let?'  x  ':='  e  'in' '/' k ']'").

(** A list comprehension whose body can raise: evaluated left to right, the
    first exception aborts it. *)
Fixpoint result_map {A B} (f : A → result B) (l : list A) : result (list B) :=
  match l with
  | [] => Ok []
  | x :: l' =>
      let? y := f x in
      let? ys := result_map f l' in
      Ok (y :: ys)
  end.

#[global] Instance byte_eq_dec : EqDecision byte := Byte.byte_eq_dec.

(** The values [compute_dmp_diff] tests with [isinstance]: a [str], a
    [bytes], or a value of any other type. *)
Inductive pyval :=
| PyStr (s : string)
| PyBytes (b : list byte)
| PyNone.


(* ===================================================================== *)
(** * Part II: the Beautiful Soup object model                           *)
(* ===================================================================== *)

(** Beautiful Soup objects are mutable and compared by identity: a [Tag]
    knows its [parent] and its [contents], and one object can be held by a
    dict and by a tree at once.  Every object therefore carries an identity
    [oid].  The store keeps the parentless objects ([parent is None]), each
    with the tree of objects below it; a Python reference is an [oid]. *)
Definition oid := nat.

(** The classes of string objects: [NavigableString] and its subclasses. *)
Inductive strclass :=
| PlainString | Comment | CData | ProcessingInstruction | Declaration | Doctype.

#[global] Instance strclass_eq_dec : EqDecision strclass.
Proof. solve_decision. Defined.

Inductive node :=
| Tag (i : oid) (name : string) (attrs : list (string * string))
      (contents : list node)
| NavigableString (i : oid) (cls : strclass) (s : string).

Definition oid_of (n : node) : oid :=
  match n with
  | Tag i _ _ _ => i
  | NavigableString i _ _ => i
  end.

(** [node.name] where [hasattr(node, 'name')]: string objects have none. *)
Definition name_of (n : node) : option string :=
  match n with
  | Tag _ nm _ _ => Some nm
  | NavigableString _ _ _ => None
  end.

Definition attrs_of (n : node) : list (string * string) :=
  match n with
  | Tag _ _ a _ => a
  | NavigableString _ _ _ => []
  end.

Definition contents_of (n : node) : list node :=
  match n with
  | Tag _ _ _ cs => cs
  | NavigableString _ _ _ => []
  end.

(** [hasattr(node, 'name') and node.name == nm] *)
Definition is_named (nm : string) (n : node) : bool :=
  bool_decide (name_of n = Some nm).

(** An object and everything below it, in document order. *)
Fixpoint subtree_nodes (n : node) : list node :=
  n :: match n with
       | Tag _ _ _ cs => cs ≫= subtree_nodes
       | NavigableString _ _ _ => []
       end.

(** [tag.descendants] *)
Definition descendants (n : node) : list node := contents_of n ≫= subtree_nodes.

Record store := Store {
  objects : list node;
  next_oid : oid;
}.

Definition empty_store : store := Store [] 0.

Definition all_nodes (F : list node) : list node := F ≫= subtree_nodes.

(** Dereference: the object with identity [i]. *)
Definition deref (i : oid) (F : list node) : option node :=
  snd <$> list_find (λ n, oid_of n = i) (all_nodes F).

(** [element.parent]: the tag whose [contents] holds the object. *)
Definition parent_of (i : oid) (F : list node) : option node :=
  snd <$> list_find (λ n, i ∈ oid_of <$> contents_of n) (all_nodes F).

(** [tag.index(element)]: position by identity. *)
Definition index_of (i : oid) (cs : list node) : option nat :=
  fst <$> list_find (λ c, oid_of c = i) cs.

(** Rewrite the [contents] list of the tag with identity [p]. *)
Fixpoint update_contents (p : oid) (f : list node → list node) (n : node)
  : node :=
  match n with
  | Tag i nm a cs =>
      Tag i nm a (if decide (i = p) then f cs else update_contents p f <$> cs)
  | NavigableString _ _ _ => n
  end.

(** Identities of an object and of everything below it; identities of the
    direct children; identities of all objects that have a parent. *)
Definition ids (t : node) : list oid := oid_of <$> subtree_nodes t.
Definition child_ids (n : node) : list oid := oid_of <$> contents_of n.
(** An object without what is below it, and the objects of a tree taken
    that way. *)
Definition shallow (n : node) : node :=
  match n with
  | Tag i nm a _ => Tag i nm a []
  | NavigableString _ _ _ => n
  end.
Definition shallows (t : node) : list node := shallow <$> subtree_nodes t.

Definition tree_child_oids (t : node) : list oid :=
  subtree_nodes t ≫= child_ids.
Definition child_oids (F : list node) : list oid := all_nodes F ≫= child_ids.

(** Simultaneous edit of contents lists: every child whose identity [ρ]
    maps to a list is replaced by that list (the empty list removes it, a
    singleton puts another tree in its place); the other children are
    edited in turn. *)
Fixpoint edit (ρ : oid → option (list node)) (n : node) : node :=
  match n with
  | Tag i nm a cs =>
      Tag i nm a (cs ≫= λ c, match ρ (oid_of c) with
                             | Some l => l
                             | None => [edit ρ c]
                             end)
  | NavigableString _ _ _ => n
  end.

(** What an edit puts in the place of one child. *)
Definition edited (ρ : oid → option (list node)) (c : node) : list node :=
  match ρ (oid_of c) with
  | Some l => l
  | None => [edit ρ c]
  end.

(** The edit that puts [l] in the place of the child [e]. *)
Definition at_oid (e : oid) (l : list node) : oid → option (list node) :=
  λ i, if decide (i = e) then Some l else None.

(** [list.insert(position, x)] *)
Definition list_insert_at {A} (position : nat) (x : A) (l : list A) : list A :=
  take position l ++ x :: drop position l.

(** Fresh identities for a whole tree, in document order from [n]; returns
    the tree and the next free identity. *)
Fixpoint relabel (t : node) (n : oid) : node * oid :=
  match t with
  | NavigableString _ k s => (NavigableString n k s, S n)
  | Tag _ nm a cs =>
      let '(cs', m) :=
        (fix go (cs : list node) (m : oid) : list node * oid :=
           match cs with
           | [] => ([], m)
           | c :: cs =>
               let '(c', m1) := relabel c m in
               let '(cs', m2) := go cs m1 in
               (c' :: cs', m2)
           end) cs (S n) in
      (Tag n nm a cs', m)
  end.

Fixpoint relabel_list (cs : list node) (m : oid) : list node * oid :=
  match cs with
  | [] => ([], m)
  | c :: cs =>
      let '(c', m1) := relabel c m in
      let '(cs', m2) := relabel_list cs m1 in
      (c' :: cs', m2)
  end.

(** ** The state-and-exception monad of the tree methods *)

Definition M (A : Type) : Type := store → result (A * store).

Definition ret {A} (a : A) : M A := λ σ, Ok (a, σ).
Definition raise {A} (e : exn) : M A := λ _, Raise e.
Definition bind {A B} (m : M A) (k : A → M B) : M B :=
  λ σ, match m σ with
       | Ok (a, σ') => k a σ'
       | Raise e => Raise e
       end.
Definition get_objects : M (list node) := λ σ, Ok (objects σ, σ).
Definition put_objects (F : list node) : M unit :=
  λ σ, Ok ((), Store F (next_oid σ)).
Definition fresh : M oid :=
  λ σ, Ok (next_oid σ, Store (objects σ) (S (next_oid σ))).
Definition lift {A} (r : result A) : M A :=
  λ σ, match r with Ok a => Ok (a, σ) | Raise e => Raise e end.

Notation "'let*' x ':=' e 'in' k" := (bind e (λ x, k))
  (at level 10, x pattern, e at level 200, k at level 200,
   format "'[v' 'let*'  x  ':='  e  'in' '/' k ']'").
Notation "e ';;' k" := (bind e (λ _, k))
  (at level 100, k at level 200, right associativity).

(** A [for] loop over a list computed beforehand. *)
Fixpoint for_each {A} (l : list A) (body : A → M unit) : M unit :=
  match l with
  | [] => ret ()
  | x :: l' => body x;; for_each l' body
  end.

(** A reference always denotes an object; a store in which it does not
    corresponds to no Python state. *)
Definition get (i : oid) : M node :=
  let* F := get_objects in
  match deref i F with
  | Some n => ret n
  | None => raise (OutsideModel "dangling reference")
  end.

(** [element.parent] ([None] for a parentless object) *)
Definition parent (i : oid) : M (option oid) :=
  let* F := get_objects in ret (oid_of <$> parent_of i F).

(** [element.extract()]: take the object, with all below it, out of the
    [contents] that holds it; it becomes parentless.  Nothing happens to an
    object that has no parent. *)
Definition extract (e : oid) : M unit :=
  let* F := get_objects in
  match parent_of e F, deref e F with
  | Some _, Some t => put_objects ((edit (at_oid e []) <$> F) ++ [t])
  | _, _ => ret ()
  end.

(** [tag.insert(position, new_child)] for a [new_child] that is an object.
    bs4 takes [new_child] out of its present parent first (adjusting the
    position when that parent is [tag] itself), then puts it in [contents]. *)
Definition insert (p : oid) (position : nat) (c : oid) : M unit :=
  if decide (c = p) then raise (ValueError "Cannot insert a tag into itself.")
  else
    let* tag := get p in
    let position := position `min` length (contents_of tag) in
    let* old_parent := parent c in
    let* position :=
      match old_parent with
      | Some q =>
          let position :=
            if decide (q = p) then
              match index_of c (contents_of tag) with
              | Some current_index =>
                  if decide (current_index < position)%nat
                  then (position - 1)%nat else position
              | None => position
              end
            else position in
          extract c;; ret position
      | None => ret position
      end in
    let* t := get c in
    if decide (p ∈ ids t)
    then raise (OutsideModel "tag inserted beneath its own descendant")
    else
      let* F := get_objects in
      put_objects (update_contents p (list_insert_at position t)
                     <$> filter (λ r, oid_of r ≠ c) F).

(** [tag.append(child)] *)
Definition append (p : oid) (c : oid) : M unit :=
  let* tag := get p in
  insert p (length (contents_of tag)) c.

(** [NavigableString(s)]: a new parentless string object. *)
Definition new_string (s : string) : M oid :=
  let* i := fresh in
  let* F := get_objects in
  put_objects (F ++ [NavigableString i PlainString s]);;
  ret i.

(** [tag.append(s)] for a Python [str]: bs4 wraps it in a
    [NavigableString] first. *)
Definition append_str (p : oid) (s : string) : M unit :=
  let* c := new_string s in
  append p c.

(** [soup.new_tag(name, **attrs)] *)
Definition new_tag (name : string) (attrs : list (string * string)) : M oid :=
  let* i := fresh in
  let* F := get_objects in
  put_objects (F ++ [Tag i name attrs []]);;
  ret i.

(** [element.replace_with(replacement)]: bs4 notes the position of the
    element in its parent, extracts the element, and inserts the replacement
    at that position, taking the replacement out of its own parent first.
    On the trees: the replacement is detached, then put in the place of the
    element, which becomes parentless. *)
Definition replace_with (self replacement : oid) : M unit :=
  let* old_parent := parent self in
  match old_parent with
  | None =>
      raise (ValueError
        "Cannot replace one element with another when the element to be replaced is not part of a tree.")
  | Some old_parent =>
      if decide (replacement = self) then ret ()
      else if decide (replacement = old_parent)
      then raise (ValueError "Cannot replace a Tag with its parent.")
      else
        extract replacement;;
        let* r := get replacement in
        if decide (old_parent ∈ ids r)
        then raise (OutsideModel "tag inserted beneath its own descendant")
        else
          let* s := get self in
          let* F := get_objects in
          put_objects
            ((edit (at_oid self [r]) <$> filter (λ t, oid_of t ≠ replacement) F)
               ++ [s])
  end.

(** [tag.clear()]: [for element in self.contents[:]: element.extract()] *)
Definition clear (p : oid) : M unit :=
  let* tag := get p in
  for_each (oid_of <$> contents_of tag) extract.

(** [tag.string = s]: [self.clear(); self.append(s.__class__(s))] *)
Definition set_string (p : oid) (s : string) : M unit :=
  clear p;; append_str p s.

(** [copy.copy(tag)]: [Tag.__copy__] builds a parentless deep copy, every
    object of it new. *)
Definition copy (i : oid) : M oid :=
  let* t := get i in
  λ σ, let '(t', m) := relabel t (next_oid σ) in
       Ok (next_oid σ, Store (objects σ ++ [t']) m).

(** [tag.find_all(names)]: the descendants whose name is in [names], in
    document order. *)
Definition name_in (names : list string) (n : node) : bool :=
  match name_of n with
  | Some nm => bool_decide (nm ∈ names)
  | None => false
  end.

Definition find_all (root : oid) (names : list string) : M (list oid) :=
  let* t := get root in
  ret (oid_of <$> filter (λ n, name_in names n) (descendants t)).

(** [soup.find_all(string=lambda text: isinstance(text, Comment))] *)
Definition is_comment (n : node) : bool :=
  match n with
  | NavigableString _ Comment _ => true
  | _ => false
  end.

Definition find_all_comments (root : oid) : M (list oid) :=
  let* t := get root in
  ret (oid_of <$> filter (λ n, is_comment n) (descendants t)).

(** [soup.find_all(text=True)]: every string object below the root. *)
Definition is_string (n : node) : bool :=
  match n with
  | NavigableString _ _ _ => true
  | Tag _ _ _ _ => false
  end.

Definition find_all_text (root : oid) : M (list oid) :=
  let* t := get root in
  ret (oid_of <$> filter (λ n, is_string n) (descendants t)).

(** [soup.<name>], i.e. [soup.find(name)]: the first descendant tag of that
    name, or [None]. *)
Definition find_tag (root : oid) (nm : string) : M (option oid) :=
  let* t := get root in
  ret (oid_of <$> head (filter (λ n, is_named nm n) (descendants t))).

(** Python dict lookup on the attribute list of a tag. *)
Fixpoint lookup_attr (k : string) (l : list (string * string)) : option string :=
  match l with
  | [] => None
  | (k', v) :: l' => if decide (k' = k) then Some v else lookup_attr k l'
  end.

(** [soup.select('[attr]')]: the descendant tags carrying the attribute. *)
Definition select_attr (root : oid) (attr : string) : M (list oid) :=
  let* t := get root in
  ret (oid_of <$> filter (λ n, is_Some (lookup_attr attr (attrs_of n)))
                    (descendants t)).

(** [element[attr]]: [KeyError] when the tag has no such attribute. *)
Definition getitem_attr (i : oid) (attr : string) : M string :=
  let* n := get i in
  match lookup_attr attr (attrs_of n) with
  | Some v => ret v
  | None => raise (KeyError attr)
  end.

(** Truth value of an object: [Tag.__bool__] is constantly [True] ("a tag is
    non-None even if it has no contents"); a string object is a [str] and
    is false when empty. *)
Definition truthy (n : node) : bool :=
  match n with
  | Tag _ _ _ _ => true
  | NavigableString _ _ s => negb (bool_decide (s = ""))
  end.

(* ===================================================================== *)
(** * Part III: regular expressions                                      *)
(* ===================================================================== *)

(** Python [str] values are modelled by Rocq strings: sequences of code
    points below 256.  Rocq string literals have no escapes, so the newline
    is spelled out. *)
Definition nl : ascii := "010"%char.
Definition newline : string := String nl "".

(** [str.isspace] on one character, which is also what [\s] matches in a
    [str] pattern: TAB, LF, VT, FF, CR, FS, GS, RS, US, space, NEL, NBSP. *)
Definition isspace (c : ascii) : bool :=
  let n := nat_of_ascii c in
  ((9 <=? n)%nat && (n <=? 13)%nat) || ((28 <=? n)%nat && (n <=? 32)%nat)
  || (n =? 133)%nat || (n =? 160)%nat.

(** The fragment of [re] syntax the module uses. *)
Inductive regex :=
| Chars (p : ascii → bool)        (* one character of a class *)
| Cat (r1 r2 : regex)             (* r1 r2 *)
| Star (r : regex)                (* greedy r* *)
| AtLeast (n : nat) (r : regex).  (* greedy r{n,} *)

(** Backtracking matcher in continuation-passing style: [rmatch r s k] tries
    the ways [r] can match a prefix of [s] in the order of Python's engine
    (greedy: one more iteration first, then fewer) and answers with the
    first for which the continuation [k] accepts the rest.  A repetition
    stops when an iteration consumes nothing, so the remaining length bounds
    the number of iterations.  [star_loop step] is the greedy repetition of
    the matcher [step], and [at_least step k n] asks for [n] iterations
    first. *)
Fixpoint star_loop {R} (step : string → (string → option R) → option R)
    (k : string → option R) (budget : nat) (s : string) : option R :=
  match budget with
  | O => k s
  | S budget' =>
      match step s (λ s', if decide (String.length s' < String.length s)
                          then star_loop step k budget' s' else None) with
      | Some x => Some x
      | None => k s
      end
  end.

Fixpoint at_least {R} (step : string → (string → option R) → option R)
    (k : string → option R) (n : nat) (s : string) : option R :=
  match n with
  | S n' => step s (at_least step k n')
  | O => star_loop step k (String.length s) s
  end.

Fixpoint rmatch {R} (r : regex) (s : string) (k : string → option R)
  : option R :=
  match r with
  | Chars p =>
      match s with
      | String c s' => if p c then k s' else None
      | EmptyString => None
      end
  | Cat r1 r2 => rmatch r1 s (λ s', rmatch r2 s' k)
  | Star r1 => star_loop (rmatch r1) k (String.length s) s
  | AtLeast n r1 => at_least (rmatch r1) k n s
  end.

(** A literal, as the concatenation of one-character classes ending in
    [last]. *)
Fixpoint lit (s : string) (last : ascii) : regex :=
  match s with
  | EmptyString => Chars (λ c, bool_decide (c = last))
  | String a s' => Cat (Chars (λ c, bool_decide (c = a))) (lit s' last)
  end.

(** [re.match(r, s)]: a match anchored at the start; [Some rest] gives what
    follows the match. *)
Definition re_match (r : regex) (s : string) : option string :=
  rmatch r s Some.

(** [pattern.sub(repl, s)] for a literal [repl]: leftmost non-overlapping
    matches, scanning from the left.  [skip] counts the characters of the
    current match still to be passed over.  (An empty match inserts [repl]
    and moves on by one character.) *)
Fixpoint re_sub_from (r : regex) (repl : string) (skip : nat) (s : string)
  : string :=
  match s with
  | EmptyString =>
      match skip, re_match r "" with
      | O, Some _ => repl
      | _, _ => ""
      end
  | String c s' =>
      match skip with
      | S skip' => re_sub_from r repl skip' s'
      | O =>
          match re_match r s with
          | Some rest =>
              match String.length s - String.length rest with
              | O => repl +:+ String c (re_sub_from r repl 0 s')
              | S n => repl +:+ re_sub_from r repl n s'
              end
          | None => String c (re_sub_from r repl 0 s')
          end
      end
  end.

Definition re_sub (r : regex) (repl : string) (s : string) : string :=
  re_sub_from r repl 0 s.

(** [str.lstrip()], [str.rstrip()], [str.strip()] *)
Fixpoint lstrip (s : string) : string :=
  match s with
  | String c s' => if isspace c then lstrip s' else s
  | EmptyString => ""
  end.

Fixpoint rstrip (s : string) : string :=
  match s with
  | String c s' =>
      match rstrip s' with
      | EmptyString => if isspace c then "" else String c ""
      | t => String c t
      end
  | EmptyString => ""
  end.

Definition strip (s : string) : string := rstrip (lstrip s).

(** [REPEATED_BLANK_LINES]: the pattern [(H*\n\s* ){2,}] where [H] is the
    class [[^\S\n]], whitespace other than the newline; [LINE_END] is the
    group that is repeated. *)
Definition not_newline_space (c : ascii) : bool :=
  isspace c && negb (bool_decide (c = nl)).
Definition is_newline (c : ascii) : bool := bool_decide (c = nl).

Definition LINE_END : regex :=
  Cat (Star (Chars not_newline_space))
    (Cat (Chars is_newline) (Star (Chars isspace))).

Definition REPEATED_BLANK_LINES : regex := AtLeast 2 LINE_END.

(** ['<!--.*-->'] ([.] is any character but a newline) *)
Definition COMMENT_MARKUP : regex :=
  Cat (lit "<!-" "-")
    (Cat (Star (Chars (λ c, negb (bool_decide (c = nl))))) (lit "--" ">")).

(* ===================================================================== *)
(** * Part IV: the functions of differs.py                               *)
(* ===================================================================== *)

(** [diff_codes = {'=': 0, '-': -1, '+': 1}] *)
Definition diff_codes : gmap string Z :=
  {[ "=" := 0%Z; "-" := (-1)%Z; "+" := 1%Z ]}.

(** [d[k]] on a dict: [KeyError] when the key is absent. *)
Definition dict_getitem {V} (d : gmap string V) (k : string) : result V :=
  match d !! k with
  | Some v => Ok v
  | None => Raise (KeyError k)
  end.

(** [sep.join(l)] *)
Definition join (sep : string) (l : list string) : string := String.concat sep l.

(** [compare_length(a_body, b_body)] *)
Definition compare_length (a_body b_body : list byte) : Z :=
  (Z.of_nat (length b_body) - Z.of_nat (length a_body))%Z.

(** [identical_bytes(a_body, b_body)] *)
Definition identical_bytes (a_body b_body : list byte) : bool :=
  bool_decide (a_body = b_body).

(** The collaborators of the module: libraries it calls and does not
    implement. *)
Class Collaborators := {
  (** [diff_match_patch.diff(a, b, checklines, timelimit, cleanup_semantic,
      counts_only)]: a list of [(tag, segment)] pairs. *)
  dmp_diff : string → string → bool → Z → bool → bool → list (string * string);
  (** [diff_match_patch.diff_bytes], the same over [bytes]. *)
  dmp_diff_bytes :
    list byte → list byte → bool → Z → bool → bool → list (string * list byte);
  (** The lxml tree builder behind [BeautifulSoup(markup, 'lxml')]: the
      top-level nodes of the parsed document (identities are assigned when
      the soup is built). *)
  lxml_parse : string → list node;
  (** [lxml.html.diff.htmldiff(old_html, new_html)] *)
  htmldiff : string → string → string;
  (** [str(tag)], that is [Tag.decode()]: the markup of a tag. *)
  Tag_decode : node → string;
  (** [soup.prettify(formatter=None)] *)
  prettify : node → string;
  (** [repr] of [s.encode('utf-8')] without its leading [b]: the quoted,
      escaped bytes. *)
  quoted_bytes : string → string;
}.

Record regions := Regions {
  pre_head : string;
  head_region : option oid;
  pre_body : string;
  body_region : option oid;
  post_body : string;
}.

(** The local variables of the loop in [_find_meaningful_nodes]. *)
Record region_vars := RegionVars {
  v_pre_head : list string;
  v_head : option oid;
  v_pre_body : list string;
  v_body : option oid;
  v_post_body : list string;
}.

(** What [_diff_elements] returns and [html.append] receives: a Python
    [str] or an element. *)
Inductive content :=
| Markup (s : string)
| Element (i : oid).

Section Differs.
Context `{Collaborators}.

(** [BeautifulSoup(markup, 'lxml')]: a new parentless object named
    [[document]] holding the parsed nodes, all of them new objects. *)
Definition BeautifulSoup (markup : string) : M oid :=
  λ σ, let n := next_oid σ in
       let '(cs, m) := relabel_list (lxml_parse markup) (S n) in
       Ok (n, Store (objects σ ++ [Tag n "[document]" [] cs]) m).

(** [str(node)]: markup for a tag, the text itself for a string object. *)
Definition py_str (n : node) : string :=
  match n with
  | Tag _ _ _ _ => Tag_decode n
  | NavigableString _ _ s => s
  end.

(** [_get_text(html)] *)
Definition _get_text (html : string) : M (list oid) :=
  let* soup := BeautifulSoup html in
  let* comments := find_all_comments soup in
  for_each comments extract;;
  find_all_text soup.

Definition INVISIBLE_TAGS : list string :=
  ["style"; "script"; "[document]"; "head"; "title"].

(** [_is_visible(element)] *)
Definition _is_visible (element : oid) : M bool :=
  let* p := parent element in
  match p with
  | None =>
      raise (AttributeError "'NoneType' object has no attribute 'name'")
  | Some p =>
      let* ptag := get p in
      if bool_decide (default "" (name_of ptag) ∈ INVISIBLE_TAGS)
      then ret false
      else
        let* e := get element in
        match re_match COMMENT_MARKUP ("b" +:+ quoted_bytes (py_str e)) with
        | Some _ => ret false
        | None => ret true
        end
  end.

(** [filter(pred, l)] with a predicate that reads the store. *)
Fixpoint filter_M {A} (pred : A → M bool) (l : list A) : M (list A) :=
  match l with
  | [] => ret []
  | x :: l' =>
      let* keep := pred x in
      let* rest := filter_M pred l' in
      ret (if keep then x :: rest else rest)
  end.

Fixpoint map_M {A B} (f : A → M B) (l : list A) : M (list B) :=
  match l with
  | [] => ret []
  | x :: l' =>
      let* y := f x in
      let* ys := map_M f l' in
      ret (y :: ys)
  end.

(** [_get_visible_text(html)] *)
Definition _get_visible_text (html : string) : M string :=
  let* texts := _get_text html in
  let* visible := filter_M _is_visible texts in
  let* strings := map_M (λ i, let* n := get i in ret (py_str n)) visible in
  let text := join " " strings in
  ret (strip (re_sub REPEATED_BLANK_LINES (newline +:+ newline) text)).

(** The [if]/[elif]/[else] of [compute_dmp_diff]: the engine's changes,
    or the type error. *)
Definition dmp_changes (a_text b_text : pyval) (timelimit : Z)
  : result (list (string * pyval)) :=
  match a_text, b_text with
  | PyStr a, PyStr b =>
      Ok (map (λ c, (c.1, PyStr c.2))
            (dmp_diff a b false timelimit true false))
  | PyBytes a, PyBytes b =>
      Ok (map (λ c, (c.1, PyBytes c.2))
            (dmp_diff_bytes a b false timelimit true false))
  | _, _ =>
      Raise (TypeError
               "Both the texts should be either of type 'str' or 'bytes'.")
  end.

(** [compute_dmp_diff(a_text, b_text, timelimit=4)] *)
Definition compute_dmp_diff (a_text b_text : pyval) (timelimit : Z)
  : result (list (Z * pyval)) :=
  let? changes := dmp_changes a_text b_text timelimit in
  result_map
    (λ change, let? code := dict_getitem diff_codes change.1 in
               Ok (code, change.2))
    changes.

(** [html_text_diff(a_text, b_text)] *)
Definition html_text_diff (a_text b_text : string)
  : M (list (Z * pyval)) :=
  let* t1 := _get_visible_text a_text in
  let* t2 := _get_visible_text b_text in
  let TIMELIMIT := 2%Z in
  lift (compute_dmp_diff (PyStr t1) (PyStr t2) TIMELIMIT).

(** [html_source_diff(a_text, b_text)] *)
Definition html_source_diff (a_text b_text : pyval)
  : result (list (Z * pyval)) :=
  let TIMELIMIT := 2%Z in
  compute_dmp_diff a_text b_text TIMELIMIT.

(** [soup.html], dereferenced for an attribute access: [AttributeError]
    when there is no [html] tag. *)
Definition soup_html (soup : oid) (attribute : string) : M oid :=
  let* html := find_tag soup "html" in
  match html with
  | Some html => ret html
  | None =>
      raise (AttributeError
               ("'NoneType' object has no attribute '" +:+ attribute +:+ "'"))
  end.

(** One iteration of the loop of [_find_meaningful_nodes]. *)
Definition classify (v : region_vars) (node : node) : region_vars :=
  let '(RegionVars pre_head head pre_body body post_body) := v in
  if bool_decide (head = None) && bool_decide (body = None) then
    if is_named "head" node then
      RegionVars pre_head (Some (oid_of node)) pre_body body post_body
    else if is_named "body" node then
      RegionVars pre_head head pre_body (Some (oid_of node)) post_body
    else
      RegionVars (pre_head ++ [py_str node]) head pre_body body post_body
  else if bool_decide (body = None) then
    if is_named "body" node then
      RegionVars pre_head head pre_body (Some (oid_of node)) post_body
    else
      RegionVars pre_head head (pre_body ++ [py_str node]) body post_body
  else
    RegionVars pre_head head pre_body body (post_body ++ [py_str node]).

Definition classify_all (children : list node) : regions :=
  let v := foldl classify (RegionVars [] None [] None []) children in
  Regions (join newline (v_pre_head v)) (v_head v)
          (join newline (v_pre_body v)) (v_body v)
          (join newline (v_post_body v)).

(** [_find_meaningful_nodes(soup)] *)
Definition _find_meaningful_nodes (soup : oid) : M regions :=
  let* html := soup_html soup "children" in
  let* html_tag := get html in
  ret (classify_all (contents_of html_tag)).

Definition ATTR : string := "wm-diff-replacement".

(** [f'{prefix}-{index}'] *)
Definition replacement_id (prefix : string) (index : nat) : string :=
  prefix +:+ "-" +:+ pretty index.

(** One iteration of the loop of [_remove_undiffable_content]. *)
Definition shield_step (prefix : string) (replacements : gmap string oid)
    (item : nat * oid) : M (gmap string oid) :=
  let '(index, element) := item in
  let replacement_id := replacement_id prefix index in
  let replacements := <[replacement_id := element]> replacements in
  let* el := get element in
  let* replacement :=
    new_tag (default "" (name_of el)) [(ATTR, replacement_id)] in
  append_str replacement ("$[" +:+ replacement_id +:+ "]$");;
  replace_with element replacement;;
  ret replacements.

(** A [for] loop that updates a local variable. *)
Fixpoint fold_M {A S} (body : S → A → M S) (acc : S) (l : list A) : M S :=
  match l with
  | [] => ret acc
  | x :: l' => let* acc := body acc x in fold_M body acc l'
  end.

(** [enumerate(l)] *)
Definition enumerate {A} (l : list A) : list (nat * A) :=
  zip (seq 0 (length l)) l.

(** [_remove_undiffable_content(soup, prefix)] *)
Definition _remove_undiffable_content (soup : oid) (prefix : string)
  : M (oid * gmap string oid) :=
  let* elements := find_all soup ["script"; "style"] in
  let* replacements := fold_M (shield_step prefix) ∅ (enumerate elements) in
  ret (soup, replacements).

(** One iteration of the loop of [_add_undiffable_content]. *)
Definition unshield_step (replacements : gmap string oid) (element : oid)
  : M unit :=
  let* key := getitem_attr element ATTR in
  let* replacement := lift (dict_getitem replacements key) in
  let* r := get replacement in
  if truthy r then replace_with element replacement else ret ().

(** [_add_undiffable_content(soup, replacements)] *)
Definition _add_undiffable_content (soup : oid)
    (replacements : gmap string oid) : M oid :=
  let* elements := select_attr soup ATTR in
  for_each elements (unshield_step replacements);;
  ret soup.

(** [_diff_elements(old, new)] *)
Definition _diff_elements (old new : option oid) : M content :=
  match old, new with
  | Some old, Some new =>
      let* result_element := copy new in
      clear result_element;;
      let* o := get old in
      let* n := get new in
      append_str result_element (htmldiff (py_str o) (py_str n));;
      ret (Element result_element)
  | _, _ => ret (Markup "")
  end.

(** [tag.append(x)] for [x] a [str] or an element. *)
Definition append_content (p : oid) (x : content) : M unit :=
  match x with
  | Markup s => append_str p s
  | Element i => append p i
  end.

Definition CHANGE_STYLES : string :=
  "ins {text-decoration : none; background-color: #d4fcbc;}" +:+ newline
  +:+ "                        del {text-decoration : none; background-color: #fbb6c2;}".

(** [html_diff_render], up to the point where the rebuilt tree is
    serialised: parse, strip comments, shield, split, diff, rebuild, add
    the stylesheet.  Returns the new soup and both replacement tables. *)
Definition html_diff_render_tree (a_text b_text : string)
  : M (oid * gmap string oid * gmap string oid) :=
  let* soup_old := BeautifulSoup a_text in
  let* soup_new := BeautifulSoup b_text in
  let* comments_old := find_all_comments soup_old in
  for_each comments_old extract;;
  let* comments_new := find_all_comments soup_new in
  for_each comments_new extract;;
  let* (soup_old, replacements_old) :=
    _remove_undiffable_content soup_old "old" in
  let* (soup_new, replacements_new) :=
    _remove_undiffable_content soup_new "new" in
  let* old_content := _find_meaningful_nodes soup_old in
  let* new_content := _find_meaningful_nodes soup_new in
  let d0 := htmldiff (pre_head old_content) (pre_head new_content) in
  let* d1 := _diff_elements (head_region old_content)
                            (head_region new_content) in
  let d2 := htmldiff (pre_body old_content) (pre_body new_content) in
  let* d3 := _diff_elements (body_region old_content)
                            (body_region new_content) in
  let d4 := htmldiff (post_body old_content) (post_body new_content) in
  let diffs := [Markup d0; d1; Markup d2; d3; Markup d4] in
  let* html := soup_html soup_new "clear" in
  clear html;;
  for_each diffs (λ d, let* html := soup_html soup_new "append" in
                       append_content html d);;
  let* head := find_tag soup_new "head" in
  match head with
  | None =>
      let* head := new_tag "head" [] in
      let* html := soup_html soup_new "insert" in
      insert html 0 head
  | Some _ => ret ()
  end;;
  let* change_styles := new_tag "style" [("type", "text/css")] in
  set_string change_styles CHANGE_STYLES;;
  let* head := find_tag soup_new "head" in
  match head with
  | None =>
      raise (AttributeError "'NoneType' object has no attribute 'append'")
  | Some head => append head change_styles
  end;;
  ret (soup_new, replacements_old, replacements_new).

(** [html_diff_render(a_text, b_text)] *)
Definition html_diff_render (a_text b_text : string) : M string :=
  let* (soup_new, replacements_old, replacements_new) :=
    html_diff_render_tree a_text b_text in
  let* tree := get soup_new in
  let* soup_new := BeautifulSoup (prettify tree) in
  (* [replacements_new.update(replacements_old)]: on a shared key the
     entry of [replacements_old] wins *)
  let replacements_new := replacements_old ∪ replacements_new in
  let* soup_new := _add_undiffable_content soup_new replacements_new in
  let* tree := get soup_new in
  ret (prettify tree).

End Differs.

(** ** The remaining strategies *)

(** The two diff libraries behind [html_tree_diff] and [html_differ]. *)
Class DiffLibraries := {
  (** [htmltreediff.diff(a, b, ins_tag=..., del_tag=..., pretty=...)] *)
  htmltreediff_diff : string → string → string → string → bool → string;
  (** [HTMLDiffer(a, b).combined_diff] *)
  HTMLDiffer_combined_diff : string → string → string;
}.

Definition TREE_DIFF_CSS : string :=
  newline
  +:+ "diffins {text-decoration : none; background-color: #d4fcbc;}" +:+ newline
  +:+ "diffdel {text-decoration : none; background-color: #fbb6c2;}" +:+ newline
  +:+ "diffins * {text-decoration : none; background-color: #d4fcbc;}" +:+ newline
  +:+ "diffdel * {text-decoration : none; background-color: #fbb6c2;}" +:+ newline
  +:+ "    ".

Definition DIFFER_CSS : string :=
  newline
  +:+ ".htmldiffer_insert {text-decoration : none; background-color: #d4fcbc;}" +:+ newline
  +:+ ".htmldiffer_delete {text-decoration : none; background-color: #fbb6c2;}" +:+ newline
  +:+ ".htmldiffer_insert * {text-decoration : none; background-color: #d4fcbc;}" +:+ newline
  +:+ ".htmldiffer_delete * {text-decoration : none; background-color: #fbb6c2;}" +:+ newline
  +:+ "    ".

Section Strategies.
Context `{Collaborators} `{DiffLibraries}.

(** [side_by_side_text(a_text, b_text)]: the dict with the two visible
    texts. *)
Definition side_by_side_text (a_text b_text : string)
  : M (gmap string string) :=
  let* a := _get_visible_text a_text in
  let* b := _get_visible_text b_text in
  ret {[ "a_text" := a; "b_text" := b ]}.

(** [insert_style(html, css)], up to the point where the tree is
    serialised. *)
Definition insert_style_tree (html css : string) : M oid :=
  let* soup := BeautifulSoup html in
  let* head := find_tag soup "head" in
  match head with
  | None =>
      let* head := new_tag "head" [] in
      let* html := soup_html soup "insert" in
      insert html 0 head
  | Some _ => ret ()
  end;;
  let* style_tag := new_tag "style" [("type", "text/css")] in
  set_string style_tag css;;
  let* head := find_tag soup "head" in
  match head with
  | None =>
      raise (AttributeError "'NoneType' object has no attribute 'append'")
  | Some head => append head style_tag
  end;;
  ret soup.

(** [insert_style(html, css)] *)
Definition insert_style (html css : string) : M string :=
  let* soup := insert_style_tree html css in
  let* tree := get soup in
  ret (prettify tree).

(** [html_tree_diff(a_text, b_text)] *)
Definition html_tree_diff (a_text b_text : string) : M string :=
  let css := TREE_DIFF_CSS in
  let d := htmltreediff_diff a_text b_text "diffins" "diffdel" true in
  insert_style d css.

(** [html_differ(a_text, b_text)] *)
Definition html_differ (a_text b_text : string) : M string :=
  let css := DIFFER_CSS in
  let d := HTMLDiffer_combined_diff a_text b_text in
  insert_style d css.

End Strategies.

(* ===================================================================== *)
(** * Part V: reference definitions                                      *)
(* ===================================================================== *)

(** Object identities are unique and below the allocation counter: the
    stores that correspond to Python states. *)
Definition oids (F : list node) : list oid := oid_of <$> all_nodes F.

Definition wf (σ : store) : Prop :=
  NoDup (oids (objects σ)) ∧ Forall (λ i, i < next_oid σ) (oids (objects σ)).

#[global] Instance wf_dec σ : Decision (wf σ).
Proof. unfold wf. apply _. Defined.

(** The placeholder the shield builds: a tag of the same name as the
    shielded element, carrying the marker attribute, holding the token. *)
Definition placeholder (i : oid) (nm : string) (id : string) : node :=
  Tag i nm [(ATTR, id)]
    [NavigableString (S i) PlainString ("$[" +:+ id +:+ "]$")].

(** The document holds no [html] element. *)
Definition no_html (t : node) : Prop :=
  Forall (λ n, ¬ is_named "html" n) (descendants t).

(** A parentless object of the store; a parentless document that holds no
    [html] element. *)
Definition has_root (σ : store) (i : oid) : Prop :=
  i ∈ oid_of <$> objects σ.
Definition html_free (σ : store) (i : oid) : Prop :=
  ∃ T, T ∈ objects σ ∧ oid_of T = i ∧ no_html T.

(** What comment removal and shielding preserve: well-formedness, every
    object (up to its contents), the parentless objects, and the absence of
    an [html] element. *)
Definition persists (σ σ' : store) : Prop :=
  wf σ'
  ∧ (∀ h, h ∈ objects σ ≫= shallows → h ∈ objects σ' ≫= shallows)
  ∧ (∀ i, has_root σ i → has_root σ' i)
  ∧ (∀ i, html_free σ i → html_free σ' i).

(** The edit that puts, for every key of [m], the tree [m] gives in the
    place of the child with that identity. *)
Definition edit_map (m : gmap oid node) : node → node :=
  edit (λ i, (λ r, [r]) <$> m !! i).

(** The names the shield looks for. *)
Definition UNDIFFABLE : list string := ["script"; "style"].

(** The placeholder of the [j]-th shielded element [n], in a pass that
    started with [k0] as its first free identity. *)
Definition placeholder_of (k0 : oid) (prefix : string) (j : nat) (n : node)
  : node :=
  placeholder (k0 + 2 * j) (default "" (name_of n)) (replacement_id prefix j).

(** [m] holds the placeholders of exactly the shielded elements [ns] with
    index from [lo] up to [hi]; [tbl] holds the identifiers of those below
    [hi]. *)
Definition covers (k0 : oid) (prefix : string) (ns : list node)
    (lo hi : nat) (m : gmap oid node) : Prop :=
  (∀ i n, ns !! i = Some n → lo ≤ i < hi →
          m !! oid_of n = Some (placeholder_of k0 prefix i n))
  ∧ (∀ e Q, m !! e = Some Q →
            ∃ i n, ns !! i = Some n ∧ lo ≤ i < hi ∧ oid_of n = e
                   ∧ Q = placeholder_of k0 prefix i n).

Definition table_covers (prefix : string) (ns : list node) (hi : nat)
    (tbl : gmap string oid) : Prop :=
  ∀ i n, ns !! i = Some n → i < hi →
         tbl !! replacement_id prefix i = Some (oid_of n).

(** A tree with its identities forgotten: what two trees with the same
    tags, attributes and content have in common. *)
Fixpoint strip_ids (n : node) : node :=
  match n with
  | Tag _ nm a cs => Tag 0 nm a (strip_ids <$> cs)
  | NavigableString _ k s => NavigableString 0 k s
  end.

(** Shield, then restore with the table the shield produced. *)
Definition shield_unshield (soup : oid) (prefix : string) : M oid :=
  let* (soup, replacements) := _remove_undiffable_content soup prefix in
  _add_undiffable_content soup replacements.

(** A document whose [div] carries the marker attribute with the identifier
    the shield will give to the script:
    [<html><body><div wm-diff-replacement="old-0"></div>
     <script>x = 1</script></body></html>]. *)
Definition marked_div_document : store :=
  Store [Tag 0 "[document]" []
           [Tag 1 "html" []
              [Tag 2 "body" []
                 [Tag 3 "div" [(ATTR, "old-0")] [];
                  Tag 4 "script" []
                    [NavigableString 5 PlainString "x = 1"]]]]] 6.

(** No element below [t] carries the marker attribute, and no script or
    style element below [t] holds another one. *)
Definition unmarked (t : node) : Prop :=
  Forall (λ c, lookup_attr ATTR (attrs_of c) = None) (descendants t).
Definition unnested (t : node) : Prop :=
  Forall (λ c, name_in UNDIFFABLE c →
               Forall (λ d, ¬ name_in UNDIFFABLE d) (descendants c))
    (descendants t).

(** [<html><head><style>p {}</style></head>
     <body><p>a</p><script>x = 1</script></body></html>] *)
Definition script_document_html : node :=
  Tag 1 "html" []
    [Tag 2 "head" []
       [Tag 3 "style" [] [NavigableString 4 PlainString "p {}"]];
     Tag 5 "body" []
       [Tag 6 "p" [] [NavigableString 7 PlainString "a"];
        Tag 8 "script" [("type", "text/javascript")]
          [NavigableString 9 PlainString "x = 1"]]].
Definition script_document_tree : node :=
  Tag 0 "[document]" [] [script_document_html].
Definition script_document : store := Store [script_document_tree] 10.

(** A document with one placeholder element and no table entry for it:
    [<html><body><script wm-diff-replacement="old-0">$[old-0]$</script>
     </body></html>]. *)
Definition orphan_placeholder_document : store :=
  Store [Tag 0 "[document]" []
           [Tag 1 "html" []
              [Tag 2 "body" []
                 [Tag 3 "script" [(ATTR, "old-0")]
                    [NavigableString 4 PlainString "$[old-0]$"]]]]] 5.

(** ** Blank lines and visible text, in the words of the specification *)

(** A text cut into its maximal runs of whitespace and the characters
    between them. *)
Inductive piece :=
| Char (c : ascii)
| Blank (w : string).

Fixpoint pieces (s : string) : list piece :=
  match s with
  | EmptyString => []
  | String c s' =>
      if isspace c then
        match pieces s' with
        | Blank w :: ps => Blank (String c w) :: ps
        | ps => Blank (String c "") :: ps
        end
      else Char c :: pieces s'
  end.

(** The line ends in a run of whitespace.  A run with two or more of them
    holds the end of a line and the blank or whitespace-only lines that
    follow it. *)
Fixpoint newlines (w : string) : nat :=
  match w with
  | EmptyString => 0
  | String c w' => (if is_newline c then 1 else 0) + newlines w'
  end.

Definition collapse_piece (p : piece) : string :=
  match p with
  | Char c => String c ""
  | Blank w => if decide (2 ≤ newlines w) then newline +:+ newline else w
  end.

(** Every run of whitespace with two or more line ends becomes exactly two
    newlines; the rest of the text stays. *)
Definition collapse_blank_lines (s : string) : string :=
  join "" (collapse_piece <$> pieces s).

(** The edit that removes the children with an identity in [D]. *)
Definition without (D : list oid) : node → node :=
  edit (λ i, if decide (i ∈ D) then Some [] else None).

(** What [_is_visible] answers for the object [e] of the forest [F]. *)
Definition visible_in (F : list node) (e : oid) : bool :=
  match parent_of e F with
  | Some P => negb (bool_decide (default "" (name_of P) ∈ INVISIBLE_TAGS))
  | None => false
  end.

(** The visible strings below a node whose parent is named [parent_name],
    in document order: the strings that are not comments and whose parent
    is not one of the invisible tags. *)
Fixpoint visible_text (parent_name : string) (n : node) : list string :=
  match n with
  | NavigableString _ cls s =>
      if bool_decide (cls = Comment) then []
      else if bool_decide (parent_name ∈ INVISIBLE_TAGS) then []
      else [s]
  | Tag _ nm _ cs => cs ≫= visible_text nm
  end.

Definition visible_fragments (top : list node) : list string :=
  top ≫= visible_text "[document]".

(** A string of characters of one class, and a string that does not go on
    with a character of the class. *)
Fixpoint all_chars (p : ascii → bool) (w : string) : bool :=
  match w with
  | EmptyString => true
  | String c w' => p c && all_chars p w'
  end.

Definition stops (p : ascii → bool) (r : string) : bool :=
  match r with
  | EmptyString => true
  | String c _ => negb (p c)
  end.

(** The order in which a greedy repetition that has consumed [w] offers
    what is left to its continuation: all of [w] consumed first, then one
    character less each time. *)
Fixpoint try_suffixes {R} (w r : string) (k : string → option R)
  : option R :=
  match w with
  | EmptyString => k r
  | String c w' =>
      match try_suffixes w' r k with
      | Some x => Some x
      | None => k (String c w' +:+ r)
      end
  end.

(** ** Documents with an [html] root element *)

(** A document object [k] whose children are strings (a doctype, say)
    around one [html] element [h] with the children [hs]. *)
Definition doc (k : oid) (dn : string) (da : list (string * string))
    (pre : list node) (h : oid) (a : list (string * string))
    (post hs : list node) : node :=
  Tag k dn da (pre ++ Tag h "html" a hs :: post).

Definition html_rooted (σ : store) (soup h : oid) : Prop :=
  ∃ dn da pre a post hs,
    doc soup dn da pre h a post hs ∈ objects σ
    ∧ Forall (λ n, is_string n) pre ∧ Forall (λ n, is_string n) post.

(** What [html.append] puts in for a diff: a string, or an element named
    [nm] that holds one string. *)
Definition diff_node (nm : string) (x : node) : Prop :=
  is_string x ∨ ∃ e a j s, x = Tag e nm a [NavigableString j PlainString s].

(** A diff that is an element is a parentless object, other than the
    document [k]. *)
Definition pending (k : oid) (nm : string) (σ : store) (d : content)
  : Prop :=
  match d with
  | Markup _ => True
  | Element e =>
      e ≠ k ∧ ∃ a j s, Tag e nm a [NavigableString j PlainString s] ∈ objects σ
  end.

(** No [head] element in or below the nodes. *)
Definition headless (l : list node) : Prop :=
  filter (λ n, is_named "head" n) (l ≫= subtree_nodes) = [].

(** The injected stylesheet element. *)
Definition style_element (j j' : oid) : node :=
  Tag j "style" [("type", "text/css")]
    [NavigableString j' PlainString CHANGE_STYLES].

(** What [soup.html.children] raises on a soup without an [html]
    element. *)
Definition NO_CHILDREN : exn :=
  AttributeError "'NoneType' object has no attribute 'children'".

(** Two parentless [head] elements, the second empty:
    [<head><title>t</title></head>] and [<head lang='en'></head>]. *)
Definition two_heads : store :=
  Store [Tag 0 "head" []
           [Tag 1 "title" [] [NavigableString 2 PlainString "t"]];
         Tag 3 "head" [("lang", "en")] []] 4.

(** A small instance of the collaborators, on which the functions of the
    module can be evaluated.  The diff engines report a deletion followed by
    an insertion, the parser finds nothing in the empty string and reads
    any other markup as the text of a paragraph, and the serialisers write
    tags without their attributes. *)
Fixpoint sample_markup (n : node) : string :=
  match n with
  | Tag _ nm _ cs =>
      "<" +:+ nm +:+ ">"
      +:+ (fix go (l : list node) : string :=
             match l with
             | [] => ""
             | c :: l' => sample_markup c +:+ go l'
             end) cs
      +:+ "</" +:+ nm +:+ ">"
  | NavigableString _ _ s => s
  end.

Definition sample_collaborators : Collaborators := {|
  dmp_diff := λ a b _ _ _ _,
    if decide (a = b) then [("=", a)] else [("-", a); ("+", b)];
  dmp_diff_bytes := λ a b _ _ _ _,
    if decide (a = b) then [("=", a)] else [("-", a); ("+", b)];
  lxml_parse := λ markup,
    if decide (markup = "") then []
    else [Tag 0 "html" []
            [Tag 0 "head" [] [];
             Tag 0 "body" []
               [Tag 0 "p" [] [NavigableString 0 PlainString markup]]]];
  htmldiff := λ old new,
    if decide (old = new) then new
    else "<del>" +:+ old +:+ "</del><ins>" +:+ new +:+ "</ins>";
  Tag_decode := sample_markup;
  prettify := sample_markup;
  quoted_bytes := λ s, "'" +:+ s +:+ "'";
|}.

Section Reference.
Context `{Collaborators}.

(** The parser finds no [html] element in the markup. *)
Definition parses_without_html (markup : string) : Prop :=
  Forall (λ n, ¬ is_named "html" n) (lxml_parse markup ≫= subtree_nodes).

(** The parser finds one top-level element, [html], with only strings
    beside it. *)
Definition parses_with_html_root (markup : string) : Prop :=
  ∃ pre i a cs post,
    lxml_parse markup = pre ++ Tag i "html" a cs :: post
    ∧ Forall (λ n, is_string n) pre ∧ Forall (λ n, is_string n) post.

(** The five regions of the children of [html], as the specification
    describes them: [pre] are the children before any [head] or [body],
    [mid] those after the head and before the body, [post] those after
    the body. *)
Inductive regions_of : list node → regions → Prop :=
| regions_neither pre :
    Forall (λ n, ¬ is_named "head" n ∧ ¬ is_named "body" n) pre →
    regions_of pre
      (Regions (join newline (py_str <$> pre)) None "" None "")
| regions_head_only pre h mid :
    Forall (λ n, ¬ is_named "head" n ∧ ¬ is_named "body" n) pre →
    is_named "head" h →
    Forall (λ n, ¬ is_named "body" n) mid →
    regions_of (pre ++ h :: mid)
      (Regions (join newline (py_str <$> pre)) (Some (oid_of h))
               (join newline (py_str <$> mid)) None "")
| regions_head_body pre h mid b post :
    Forall (λ n, ¬ is_named "head" n ∧ ¬ is_named "body" n) pre →
    is_named "head" h →
    Forall (λ n, ¬ is_named "body" n) mid →
    is_named "body" b →
    regions_of (pre ++ h :: mid ++ b :: post)
      (Regions (join newline (py_str <$> pre)) (Some (oid_of h))
               (join newline (py_str <$> mid)) (Some (oid_of b))
               (join newline (py_str <$> post)))
| regions_body_first pre b post :
    Forall (λ n, ¬ is_named "head" n ∧ ¬ is_named "body" n) pre →
    is_named "body" b →
    regions_of (pre ++ b :: post)
      (Regions (join newline (py_str <$> pre)) None
               "" (Some (oid_of b))
               (join newline (py_str <$> post))).

End Reference.

(** Induction on trees, with the hypothesis for every child. *)
Section node_induction.
Variable P : node → Prop.
Hypothesis Htag : ∀ i nm a cs, Forall P cs → P (Tag i nm a cs).
Hypothesis Hstr : ∀ i k s, P (NavigableString i k s).

Fixpoint node_ind' (n : node) : P n :=
  match n with
  | Tag i nm a cs =>
      Htag i nm a cs
        ((fix go (cs : list node) : Forall P cs :=
            match cs with
            | [] => List.Forall_nil P
            | c :: cs' => List.Forall_cons P c cs' (node_ind' c) (go cs')
            end) cs)
  | NavigableString i k s => Hstr i k s
  end.
End node_induction.

(** ** Reference definitions for the remaining functions *)

(** The string objects below a node that are not comments, with their
    class, in document order. *)
Fixpoint text_items (n : node) : list (strclass * string) :=
  match n with
  | NavigableString _ cls s =>
      if bool_decide (cls = Comment) then [] else [(cls, s)]
  | Tag _ _ _ cs => cs ≫= text_items
  end.

(** The class and text of the string object with identity [i]. *)
Definition string_at (F : list node) (i : oid) : option (strclass * string) :=
  match deref i F with
  | Some (NavigableString _ cls s) => Some (cls, s)
  | _ => None
  end.

(** The characters of a text that are not whitespace, in order. *)
Fixpoint ink (s : string) : list ascii :=
  match s with
  | EmptyString => []
  | String c s' => if isspace c then ink s' else c :: ink s'
  end.

(** A [style] element of type [text/css] holding the stylesheet [css]. *)
Definition style_tag (j j' : oid) (css : string) : node :=
  Tag j "style" [("type", "text/css")] [NavigableString j' PlainString css].

(** What [soup.html.insert] raises on a soup without an [html] element. *)
Definition NO_INSERT : exn :=
  AttributeError "'NoneType' object has no attribute 'insert'".

(** The table the shielding loop builds from the enumerated elements. *)
Definition table_of (prefix : string) (items : list (nat * oid))
    (tbl : gmap string oid) : gmap string oid :=
  foldl (λ t item, <[replacement_id prefix item.1 := item.2]> t) tbl items.

(** [<html><body><p><!-- x -->a</p></body></html>] *)
Definition comment_document : store :=
  Store [Tag 0 "[document]" []
           [Tag 1 "html" []
              [Tag 2 "body" []
                 [Tag 3 "p" []
                    [NavigableString 4 Comment " x ";
                     NavigableString 5 PlainString "a"]]]]] 6.

(** A shielded document and, parentless, the script it held:
    [<html><body><script wm-diff-replacement="old-0">$[old-0]$</script>
     </body></html>] and [<script>x = 1</script>]. *)
Definition shielded_document : store :=
  Store [Tag 0 "[document]" []
           [Tag 1 "html" []
              [Tag 2 "body" []
                 [Tag 3 "script" [(ATTR, "old-0")]
                    [NavigableString 4 PlainString "$[old-0]$"]]]];
         Tag 5 "script" [] [NavigableString 6 PlainString "x = 1"]] 7.

(** Collaborators whose diff engine reports a tag outside [diff_codes],
    and whose parser reads [<head>] as a document with an empty head and
    [<p>] as a headless one. *)
Definition odd_collaborators : Collaborators := {|
  dmp_diff := λ a b _ _ _ _, [("=", a); ("~", b)];
  dmp_diff_bytes := λ a b _ _ _ _, [("=", a); ("~", b)];
  lxml_parse := λ markup,
    if decide (markup = "") then []
    else if decide (markup = "<head>") then
      [Tag 0 "html" [] [Tag 0 "head" [] []; Tag 0 "body" [] []]]
    else
      [NavigableString 0 Doctype "html";
       Tag 0 "html" []
         [Tag 0 "body" []
            [Tag 0 "p" []
               [NavigableString 0 Comment " c ";
                NavigableString 0 PlainString markup]]]];
  htmldiff := λ old new, new;
  Tag_decode := sample_markup;
  prettify := sample_markup;
  quoted_bytes := λ s, "'" +:+ s +:+ "'";
|}.

(** Collaborators whose parser finds, in any markup but the empty string,
    a [div] that carries the marker attribute with the identifier [x]. *)
Definition marked_collaborators : Collaborators := {|
  dmp_diff := λ a b _ _ _ _, [("=", a)];
  dmp_diff_bytes := λ a b _ _ _ _, [("=", a)];
  lxml_parse := λ markup,
    if decide (markup = "") then []
    else [Tag 0 "html" []
            [Tag 0 "body" []
               [Tag 0 "div" [(ATTR, "x")]
                  [NavigableString 0 PlainString markup]]]];
  htmldiff := λ old new, new;
  Tag_decode := sample_markup;
  prettify := sample_markup;
  quoted_bytes := λ s, "'" +:+ s +:+ "'";
|}.

(** Diff libraries that return the new document. *)
Definition sample_libraries : DiffLibraries := {|
  htmltreediff_diff := λ a b _ _ _, b;
  HTMLDiffer_combined_diff := λ a b, b;
|}.

Section Reference2.
Context `{Collaborators}.

(** The visible text of a markup, as [_get_visible_text] normalises it. *)
Definition visible_text_of (markup : string) : string :=
  strip (collapse_blank_lines
           (join " " (visible_fragments (lxml_parse markup)))).

(** The parser finds neither a [head] nor an [html] element. *)
Definition parses_without_head_or_html (markup : string) : Prop :=
  Forall (λ n, ¬ is_named "head" n ∧ ¬ is_named "html" n)
    (lxml_parse markup ≫= subtree_nodes).

End Reference2.

(* ===================================================================== *)
(** * Part VI: lemmas and theorems                                       *)
(* ===================================================================== *)

Section ByteStrategies.

Lemma identical_bytes_spec a b : identical_bytes a b = true ↔ a = b.
Proof. unfold identical_bytes. by rewrite bool_decide_eq_true. Qed.

(** C8: [identical_bytes] is strictly more precise than [compare_length]:
    identical bodies have length difference zero; some pair of bodies has
    length difference zero and is not identical; and [compare_length] is
    the difference of the two lengths, taken without looking at the
    contents. *)
Theorem identical_bytes_refines_compare_length :
  (∀ a b, identical_bytes a b = true → compare_length a b = 0%Z)
  ∧ (∃ a b, compare_length a b = 0%Z ∧ identical_bytes a b = false)
  ∧ (∀ a b, compare_length a b
            = (Z.of_nat (length b) - Z.of_nat (length a))%Z)
  ∧ (∀ a a' b b', length a = length a' → length b = length b' →
                  compare_length a b = compare_length a' b').
Proof.
  split_and!.
  - intros a b ->%identical_bytes_spec. unfold compare_length. lia.
  - exists [x61%byte], [x62%byte]. split; [reflexivity|].
    by apply bool_decide_eq_false.
  - reflexivity.
  - intros a a' b b' Ha Hb. unfold compare_length. by rewrite Ha, Hb.
Qed.

End ByteStrategies.


Section DiffStrategies.
Context `{Collaborators}.

Lemma result_map_Raise {A B} (f : A → result B) l e :
  result_map f l = Raise e → ∃ x, x ∈ l ∧ f x = Raise e.
Proof.
  induction l as [|x l IH]; simpl; [done|].
  destruct (f x) as [y|e'] eqn:Hx; simpl.
  - destruct (result_map f l) as [ys|e'']; simpl; [done|].
    intros [= ->]. destruct IH as (x' & ? & ?); [done|].
    exists x'. split; [by right|done].
  - intros [= ->]. exists x. split; [by left|done].
Qed.

Lemma result_map_Ok {A B} (f : A → result B) l ys :
  result_map f l = Ok ys → Forall2 (λ x y, f x = Ok y) l ys.
Proof.
  revert ys. induction l as [|x l IH]; simpl; intros ys.
  - intros [= <-]. constructor.
  - destruct (f x) as [y|] eqn:Hx; simpl; [|done].
    destruct (result_map f l) as [ys'|]; simpl; [|done].
    intros [= <-]. constructor; [done|]. by apply IH.
Qed.

Lemma result_map_total {A B} (f : A → result B) l :
  Forall (λ x, ∃ y, f x = Ok y) l → ∃ ys, result_map f l = Ok ys.
Proof.
  induction 1 as [|x l [y Hy] _ [ys IH]]; simpl; [by eexists|].
  rewrite Hy, IH. simpl. by eexists.
Qed.

Lemma diff_codes_lookup tag code :
  diff_codes !! tag = Some code →
  (tag = "=" ∧ code = 0%Z) ∨ (tag = "-" ∧ code = (-1)%Z)
  ∨ (tag = "+" ∧ code = 1%Z).
Proof.
  unfold diff_codes. intros Hl.
  destruct (decide (tag = "=")) as [->|]; [left; by simplify_map_eq|].
  destruct (decide (tag = "-")) as [->|];
    [right; left; by simplify_map_eq|].
  destruct (decide (tag = "+")) as [->|];
    [right; right; by simplify_map_eq|].
  by simplify_map_eq.
Qed.

Lemma compute_dmp_diff_no_TypeError a b tl changes msg :
  dmp_changes a b tl = Ok changes →
  compute_dmp_diff a b tl ≠ Raise (TypeError msg).
Proof.
  unfold compute_dmp_diff. intros ->. simpl.
  intros (c & _ & Hc)%result_map_Raise.
  unfold dict_getitem in Hc. by destruct (diff_codes !! c.1).
Qed.

(** C3: the source-diff strategy raises a type error when one input is a
    [str] and the other a [bytes], in either order, and raises no type
    error when both are [str] or both are [bytes]. *)
Theorem html_source_diff_type_mismatch :
  (∀ s b, ∃ msg,
      html_source_diff (PyStr s) (PyBytes b) = Raise (TypeError msg))
  ∧ (∀ b s, ∃ msg,
      html_source_diff (PyBytes b) (PyStr s) = Raise (TypeError msg))
  ∧ (∀ s1 s2 msg,
      html_source_diff (PyStr s1) (PyStr s2) ≠ Raise (TypeError msg))
  ∧ (∀ b1 b2 msg,
      html_source_diff (PyBytes b1) (PyBytes b2) ≠ Raise (TypeError msg)).
Proof.
  split_and!.
  - intros s b. by eexists.
  - intros b s. by eexists.
  - intros s1 s2 msg. by eapply compute_dmp_diff_no_TypeError.
  - intros b1 b2 msg. by eapply compute_dmp_diff_no_TypeError.
Qed.

Lemma compute_dmp_diff_codes a b tl changes l :
  dmp_changes a b tl = Ok changes →
  compute_dmp_diff a b tl = Ok l →
  Forall2 (λ change r, diff_codes !! change.1 = Some r.1 ∧ r.2 = change.2)
    changes l
  ∧ Forall (λ r, r.1 ∈ [(-1)%Z; 0%Z; 1%Z]) l.
Proof.
  unfold compute_dmp_diff. intros ->. simpl. intros Hl%result_map_Ok.
  assert (Forall2 (λ change r, diff_codes !! change.1 = Some r.1
                               ∧ r.2 = change.2) changes l) as HF.
  { eapply Forall2_impl; [exact Hl|]. intros [tag seg] [code seg']. simpl.
    unfold dict_getitem. destruct (diff_codes !! tag); simpl; [|done].
    by intros [= -> ->]. }
  split; [done|].
  clear Hl. induction HF as [|[tag seg] [code seg2] ? ? [Hc _] _ IH];
    constructor; [|done].
  simpl in *. apply diff_codes_lookup in Hc.
  destruct Hc as [[_ ->]|[[_ ->]|[_ ->]]]; set_solver.
Qed.

Lemma compute_dmp_diff_total a b tl changes :
  dmp_changes a b tl = Ok changes →
  Forall (λ change, change.1 ∈ ["="; "-"; "+"]) changes →
  ∃ l, compute_dmp_diff a b tl = Ok l.
Proof.
  unfold compute_dmp_diff. intros -> Htags. simpl.
  apply result_map_total. eapply Forall_impl; [exact Htags|].
  intros [tag seg] Htag. simpl in *.
  rewrite !elem_of_cons, elem_of_nil in Htag.
  destruct Htag as [-> | [-> | [-> | []]]]; by eexists.
Qed.

(** C9: for same-typed inputs (the engine was called and returned
    [changes]) and every time limit, each element of the list
    [compute_dmp_diff] returns pairs the [diff_codes] image of the engine's
    tag, which is -1, 0 or 1, with the engine's segment; the list is
    returned whenever the engine's tags are among '=', '-', '+'.  The
    same holds of [html_source_diff], and the codes of [html_text_diff]
    are -1, 0 or 1 as well. *)
Theorem compute_dmp_diff_translates_tags a b tl changes :
  dmp_changes a b tl = Ok changes →
  (∀ l, compute_dmp_diff a b tl = Ok l →
        Forall2 (λ change r, diff_codes !! change.1 = Some r.1
                             ∧ r.2 = change.2) changes l
        ∧ Forall (λ r, r.1 ∈ [(-1)%Z; 0%Z; 1%Z]) l)
  ∧ (Forall (λ change, change.1 ∈ ["="; "-"; "+"]) changes →
     ∃ l, compute_dmp_diff a b tl = Ok l)
  ∧ (tl = 2%Z → html_source_diff a b = compute_dmp_diff a b tl)
  ∧ (∀ a_html b_html σ l σ',
       html_text_diff a_html b_html σ = Ok (l, σ') →
       Forall (λ r, r.1 ∈ [(-1)%Z; 0%Z; 1%Z]) l).
Proof.
  intros Hch. split_and!.
  - intros l. by apply compute_dmp_diff_codes.
  - by apply compute_dmp_diff_total.
  - by intros ->.
  - intros a_html b_html σ l σ'. unfold html_text_diff, bind.
    destruct (_get_visible_text a_html σ) as [[t1 σ1]|]; [|done].
    destruct (_get_visible_text b_html σ1) as [[t2 σ2]|]; [|done].
    unfold lift.
    destruct (compute_dmp_diff _ _ _) as [l'|] eqn:Hl; [|done].
    intros [= -> ->].
    eapply compute_dmp_diff_codes; [|exact Hl]. reflexivity.
Qed.

End DiffStrategies.

(** ** Objects and stores: basic facts *)

Section StoreFacts.

Lemma subtree_nodes_self n : n ∈ subtree_nodes n.
Proof. destruct n; simpl; by left. Qed.

Lemma subtree_nodes_unfold n :
  subtree_nodes n = n :: descendants n.
Proof. by destruct n. Qed.

Lemma subtree_nodes_trans a b c :
  a ∈ subtree_nodes b → b ∈ subtree_nodes c → a ∈ subtree_nodes c.
Proof.
  revert b. induction c as [i nm at' cs IH|i k s] using node_ind';
    intros b Ha Hb; simpl in Hb.
  - apply elem_of_cons in Hb as [->|Hb]; [done|].
    apply list_elem_of_bind in Hb as (c & Hb & Hc).
    simpl. right. apply list_elem_of_bind. exists c. split; [|done].
    rewrite Forall_forall in IH. by eapply IH.
  - apply elem_of_cons in Hb as [->|Hb]; [done|]. by apply elem_of_nil in Hb.
Qed.

Lemma descendants_subtree n t : n ∈ descendants t → n ∈ subtree_nodes t.
Proof. rewrite subtree_nodes_unfold. by right. Qed.

Lemma child_descendant c t : c ∈ contents_of t → c ∈ descendants t.
Proof.
  intros Hc. unfold descendants. apply list_elem_of_bind.
  exists c. split; [apply subtree_nodes_self|done].
Qed.

Lemma all_nodes_closed F n t :
  t ∈ all_nodes F → n ∈ subtree_nodes t → n ∈ all_nodes F.
Proof.
  unfold all_nodes. intros (r & Ht & Hr)%list_elem_of_bind Hn.
  apply list_elem_of_bind. exists r. split; [|done].
  by eapply subtree_nodes_trans.
Qed.

Lemma deref_Some i F n :
  deref i F = Some n → n ∈ all_nodes F ∧ oid_of n = i.
Proof.
  unfold deref. intros Hf.
  apply fmap_Some in Hf as ([k n'] & Hf & ->).
  apply list_find_Some in Hf as (Hk & Hi & _). simpl.
  split; [by eapply list_elem_of_lookup_2|done].
Qed.

Lemma deref_unique F n :
  NoDup (oids F) → n ∈ all_nodes F → deref (oid_of n) F = Some n.
Proof.
  unfold deref, oids. intros Hnd Hn.
  apply list_elem_of_lookup in Hn as [k Hk].
  destruct (list_find (λ n0, oid_of n0 = oid_of n) (all_nodes F))
    as [[j m]|] eqn:Hf; simpl.
  - apply list_find_Some in Hf as (Hj & Hm & _).
    assert (j = k) as ->.
    { eapply NoDup_lookup; [exact Hnd| |].
      - rewrite list_lookup_fmap, Hj. simpl. by rewrite Hm.
      - by rewrite list_lookup_fmap, Hk. }
    congruence.
  - eapply list_find_None in Hf. rewrite Forall_forall in Hf.
    exfalso. eapply Hf; [by eapply list_elem_of_lookup_2|done].
Qed.

Lemma get_deref i σ n : deref i (objects σ) = Some n → get i σ = Ok (n, σ).
Proof. unfold get, bind, get_objects. simpl. by intros ->. Qed.

End StoreFacts.

(** ** Identities *)

Section Identities.
Implicit Types (t n : node) (F : list node) (cs : list node).

Lemma fmap_bind {A B C} (f : A → list B) (g : B → C) (l : list A) :
  g <$> (l ≫= f) = l ≫= λ x, g <$> f x.
Proof.
  induction l as [|x l IH]; [done|].
  by rewrite !bind_cons, fmap_app, IH.
Qed.

Lemma bind_bind {A B C} (f : A → list B) (g : B → list C) (l : list A) :
  (l ≫= f) ≫= g = l ≫= λ x, f x ≫= g.
Proof.
  induction l as [|x l IH]; [done|].
  by rewrite !bind_cons, bind_app, IH.
Qed.

Lemma ids_Tag i nm a cs : ids (Tag i nm a cs) = i :: (cs ≫= ids).
Proof. unfold ids. simpl. by rewrite fmap_bind. Qed.

Lemma ids_string i k s : ids (NavigableString i k s) = [i].
Proof. done. Qed.

Lemma oid_in_ids t : oid_of t ∈ ids t.
Proof. destruct t; [rewrite ids_Tag|rewrite ids_string]; by left. Qed.

Lemma oids_bind F : oids F = F ≫= ids.
Proof. unfold oids, all_nodes. by rewrite fmap_bind. Qed.

Lemma oids_cons t F : oids (t :: F) = ids t ++ oids F.
Proof. by rewrite !oids_bind, bind_cons. Qed.

Lemma oids_app F G : oids (F ++ G) = oids F ++ oids G.
Proof. by rewrite !oids_bind, bind_app. Qed.

Lemma oids_singleton t : oids [t] = ids t.
Proof. by rewrite oids_cons, app_nil_r. Qed.

Lemma all_nodes_app F G : all_nodes (F ++ G) = all_nodes F ++ all_nodes G.
Proof. unfold all_nodes. by rewrite bind_app. Qed.

Lemma elem_of_oids i F :
  i ∈ oids F ↔ ∃ n, n ∈ all_nodes F ∧ oid_of n = i.
Proof. unfold oids. rewrite list_elem_of_fmap. naive_solver. Qed.

Lemma elem_of_ids i t :
  i ∈ ids t ↔ ∃ n, n ∈ subtree_nodes t ∧ oid_of n = i.
Proof. unfold ids. rewrite list_elem_of_fmap. naive_solver. Qed.

Lemma root_in_all_nodes t F : t ∈ F → t ∈ all_nodes F.
Proof.
  intros Ht. apply list_elem_of_bind. exists t.
  split; [apply subtree_nodes_self|done].
Qed.

Lemma ids_subseteq_oids t F : t ∈ F → ids t ⊆ oids F.
Proof.
  intros Ht i (n & Hn & <-)%elem_of_ids. apply elem_of_oids. exists n.
  split; [|done]. eapply all_nodes_closed; [by apply root_in_all_nodes|done].
Qed.

Lemma deref_is_Some i F : i ∈ oids F → is_Some (deref i F).
Proof.
  intros (n & Hn & Hi)%elem_of_oids. unfold deref.
  apply fmap_is_Some. by eapply list_find_elem_of.
Qed.

Lemma deref_None i F : i ∉ oids F → deref i F = None.
Proof.
  intros Hi. destruct (deref i F) as [n|] eqn:Hn; [|done].
  apply deref_Some in Hn as [Hn <-]. exfalso. apply Hi.
  apply elem_of_oids. by exists n.
Qed.

Lemma tree_child_oids_Tag i nm a cs :
  tree_child_oids (Tag i nm a cs)
  = (oid_of <$> cs) ++ (cs ≫= tree_child_oids).
Proof.
  unfold tree_child_oids.
  change (subtree_nodes (Tag i nm a cs))
    with (Tag i nm a cs :: (cs ≫= subtree_nodes)).
  rewrite bind_cons. unfold child_ids at 1. simpl. by rewrite bind_bind.
Qed.

Lemma tree_child_oids_string i k s :
  tree_child_oids (NavigableString i k s) = [].
Proof. done. Qed.

Lemma child_oids_bind F : child_oids F = F ≫= tree_child_oids.
Proof. unfold child_oids, all_nodes. by rewrite bind_bind. Qed.

Lemma child_oids_app F G : child_oids (F ++ G) = child_oids F ++ child_oids G.
Proof. by rewrite !child_oids_bind, bind_app. Qed.

Lemma child_oids_cons t F :
  child_oids (t :: F) = tree_child_oids t ++ child_oids F.
Proof. by rewrite !child_oids_bind, bind_cons. Qed.

(** Every object is a root or a child, once. *)
Lemma bind_cons_perm {A} (f g : A → list oid) (h : A → oid) (l : list A) :
  Forall (λ x, f x ≡ₚ h x :: g x) l →
  l ≫= f ≡ₚ (h <$> l) ++ (l ≫= g).
Proof.
  induction 1 as [|x l Hx _ IH]; [done|].
  rewrite !bind_cons, fmap_cons, Hx, IH. simpl.
  constructor. by rewrite Permutation_app_swap_app.
Qed.

Lemma ids_perm t : ids t ≡ₚ oid_of t :: tree_child_oids t.
Proof.
  induction t as [i nm a cs IH|i k s] using node_ind'; [|done].
  rewrite ids_Tag, tree_child_oids_Tag. simpl. constructor.
  by apply bind_cons_perm.
Qed.

Lemma oids_perm F : oids F ≡ₚ (oid_of <$> F) ++ child_oids F.
Proof.
  rewrite oids_bind, child_oids_bind. apply bind_cons_perm.
  apply Forall_forall. intros t _. apply ids_perm.
Qed.

Lemma tree_child_oids_ids t : tree_child_oids t ⊆ ids t.
Proof. intros i Hi. rewrite ids_perm. by right. Qed.

Lemma child_oids_oids F : child_oids F ⊆ oids F.
Proof. intros i Hi. rewrite oids_perm. apply elem_of_app. by right. Qed.

Lemma parent_of_is_Some e F : is_Some (parent_of e F) ↔ e ∈ child_oids F.
Proof.
  unfold parent_of, child_oids. rewrite fmap_is_Some. split.
  - intros [[k n] Hf]. apply list_find_Some in Hf as (Hk & He & _).
    apply list_elem_of_bind. exists n.
    split; [done|by eapply list_elem_of_lookup_2].
  - intros (n & He & Hn)%list_elem_of_bind. by eapply list_find_elem_of.
Qed.

Lemma parent_of_None e F : e ∉ child_oids F → parent_of e F = None.
Proof.
  intros He. destruct (parent_of e F) eqn:Hp; [|done].
  exfalso. apply He, parent_of_is_Some. by rewrite Hp.
Qed.

Lemma parent_of_Some e F P :
  parent_of e F = Some P → P ∈ all_nodes F ∧ e ∈ child_ids P.
Proof.
  unfold parent_of. intros Hf.
  apply fmap_Some in Hf as ([k n] & Hf & ->).
  apply list_find_Some in Hf as (Hk & He & _). simpl.
  split; [by eapply list_elem_of_lookup_2|done].
Qed.

Lemma root_not_child F t :
  NoDup (oids F) → t ∈ F → oid_of t ∉ child_oids F.
Proof.
  rewrite oids_perm, NoDup_app. intros (_ & Hdisj & _) Ht.
  apply Hdisj. by apply list_elem_of_fmap_2.
Qed.

Lemma NoDup_child_oids F : NoDup (oids F) → NoDup (child_oids F).
Proof. rewrite oids_perm, NoDup_app. naive_solver. Qed.

Lemma NoDup_ids_root t F : NoDup (oids F) → t ∈ F → NoDup (ids t).
Proof.
  intros Hnd (F1 & F2 & ->)%list_elem_of_split.
  rewrite oids_app, oids_cons, !NoDup_app in Hnd. naive_solver.
Qed.

End Identities.

(** ** Edits of contents lists *)

Section Edit.
Implicit Types (t n : node) (F : list node) (cs : list node).
Implicit Types (ρ : oid → option (list node)).

Lemma edit_Tag ρ i nm a cs :
  edit ρ (Tag i nm a cs) = Tag i nm a (cs ≫= edited ρ).
Proof. done. Qed.

Lemma edit_oid ρ t : oid_of (edit ρ t) = oid_of t.
Proof. by destruct t. Qed.

Lemma fmap_oid_edit ρ F : oid_of <$> (edit ρ <$> F) = oid_of <$> F.
Proof.
  rewrite <-list_fmap_compose. apply list_fmap_ext. intros _ t _.
  apply edit_oid.
Qed.

Lemma edit_name ρ t : name_of (edit ρ t) = name_of t.
Proof. by destruct t. Qed.

Lemma edit_attrs ρ t : attrs_of (edit ρ t) = attrs_of t.
Proof. by destruct t. Qed.

Lemma bind_id {A} (f : A → list A) (l : list A) :
  Forall (λ x, f x = [x]) l → l ≫= f = l.
Proof.
  induction 1 as [|x l Hx _ IH]; [done|]. by rewrite bind_cons, Hx, IH.
Qed.

Lemma edit_id ρ t : (∀ i, i ∈ tree_child_oids t → ρ i = None) → edit ρ t = t.
Proof.
  induction t as [i nm a cs IH|i k s] using node_ind'; [|done].
  intros Hρ. rewrite edit_Tag. f_equal. apply bind_id.
  rewrite Forall_forall in IH. apply Forall_forall. intros c Hc.
  unfold edited. rewrite Hρ.
  - f_equal. apply IH; [done|]. intros j Hj. apply Hρ.
    rewrite tree_child_oids_Tag. apply elem_of_app. right.
    apply list_elem_of_bind. by exists c.
  - rewrite tree_child_oids_Tag. apply elem_of_app. left.
    by apply list_elem_of_fmap_2.
Qed.

Lemma edit_at_absent e l t :
  e ∉ tree_child_oids t → edit (at_oid e l) t = t.
Proof.
  intros He. apply edit_id. intros i Hi. unfold at_oid.
  case_decide; [by subst|done].
Qed.

Lemma edited_at_absent e l cs :
  e ∉ cs ≫= ids → cs ≫= edited (at_oid e l) = cs.
Proof.
  intros He. apply bind_id, Forall_forall. intros c Hc.
  assert (e ∉ ids c) as Hec.
  { intros Hin. apply He. apply list_elem_of_bind. by exists c. }
  unfold edited, at_oid. case_decide as Hoid.
  - exfalso. apply Hec. rewrite <-Hoid. apply oid_in_ids.
  - f_equal. apply edit_at_absent. intros Hin. apply Hec.
    by apply tree_child_oids_ids.
Qed.

Lemma edited_roots ρ F :
  Forall (λ t, ρ (oid_of t) = None) F → F ≫= edited ρ = edit ρ <$> F.
Proof.
  induction 1 as [|t F Ht _ IH]; [done|].
  rewrite bind_cons, fmap_cons, IH. unfold edited at 1. by rewrite Ht.
Qed.

Lemma shallows_Tag i nm a cs :
  shallows (Tag i nm a cs) = Tag i nm a [] :: (cs ≫= shallows).
Proof. unfold shallows. simpl. by rewrite fmap_bind. Qed.

Lemma oid_shallow n : oid_of (shallow n) = oid_of n.
Proof. by destruct n. Qed.

Lemma ids_shallows t : ids t = oid_of <$> shallows t.
Proof.
  unfold ids, shallows. rewrite <-list_fmap_compose.
  apply list_fmap_ext. intros _ n _. simpl. by rewrite oid_shallow.
Qed.

Lemma bind_ids_shallows cs : cs ≫= ids = oid_of <$> (cs ≫= shallows).
Proof.
  rewrite fmap_bind. apply list_bind_ext; [|done]. intros c.
  apply ids_shallows.
Qed.

Lemma shallow_edit ρ t : shallow (edit ρ t) = shallow t.
Proof. by destruct t. Qed.

Lemma edited_at_shallows e l cs :
  Forall (λ c, NoDup (ids c) → e ∈ tree_child_oids c →
               ∃ E, E ∈ descendants c ∧ oid_of E = e
                    ∧ shallows (edit (at_oid e l) c) ++ shallows E
                      ≡ₚ shallows c ++ (l ≫= shallows)) cs →
  NoDup (cs ≫= ids) →
  e ∈ (oid_of <$> cs) ++ (cs ≫= tree_child_oids) →
  ∃ E, E ∈ cs ≫= subtree_nodes ∧ oid_of E = e
       ∧ ((cs ≫= edited (at_oid e l)) ≫= shallows) ++ shallows E
         ≡ₚ (cs ≫= shallows) ++ (l ≫= shallows).
Proof.
  induction 1 as [|c cs Hc _ IH]; intros Hnd He.
  { by apply elem_of_nil in He. }
  rewrite bind_cons in Hnd. apply NoDup_app in Hnd as (Hndc & Hdisj & Hndcs).
  destruct (decide (oid_of c = e)) as [Hoid|Hoid].
  - exists c. split_and!; [|done|].
    + rewrite bind_cons. apply elem_of_app. left. apply subtree_nodes_self.
    + rewrite bind_cons. unfold edited at 1, at_oid at 1.
      rewrite decide_True by done.
      rewrite edited_at_absent.
      2:{ apply Hdisj. rewrite <-Hoid. apply oid_in_ids. }
      rewrite bind_app, bind_cons. solve_Permutation.
  - destruct (decide (e ∈ tree_child_oids c)) as [Hin|Hin].
    + destruct (Hc Hndc Hin) as (E & HE & HoE & Hperm).
      exists E. split_and!; [|done|].
      * rewrite bind_cons. apply elem_of_app. left.
        by apply descendants_subtree.
      * rewrite bind_cons. unfold edited at 1, at_oid at 1.
        rewrite decide_False by done.
        rewrite edited_at_absent.
        2:{ apply Hdisj. by apply tree_child_oids_ids. }
        rewrite bind_app, bind_singleton, bind_cons.
        trans ((shallows (edit (at_oid e l) c) ++ shallows E)
                 ++ cs ≫= shallows);
          [solve_Permutation|].
        rewrite Hperm. solve_Permutation.
    + destruct IH as (E & HE & HoE & Hperm); [done| |].
      { rewrite fmap_cons, bind_cons in He.
        rewrite !elem_of_app, elem_of_cons in He. rewrite elem_of_app.
        naive_solver. }
      exists E. split_and!; [|done|].
      * rewrite bind_cons. apply elem_of_app. by right.
      * rewrite bind_cons. unfold edited at 1, at_oid at 1.
        rewrite decide_False by done.
        rewrite edit_at_absent by done.
        rewrite bind_app, bind_singleton, bind_cons.
        trans (shallows c
                 ++ (((cs ≫= edited (at_oid e l)) ≫= shallows)
                       ++ shallows E));
          [solve_Permutation|].
        rewrite Hperm. solve_Permutation.
Qed.

Lemma edit_at_shallows e l t :
  NoDup (ids t) → e ∈ tree_child_oids t →
  ∃ E, E ∈ descendants t ∧ oid_of E = e
       ∧ shallows (edit (at_oid e l) t) ++ shallows E
         ≡ₚ shallows t ++ (l ≫= shallows).
Proof.
  induction t as [i nm a cs IH|i k s] using node_ind'.
  - rewrite ids_Tag, tree_child_oids_Tag. intros Hnd He.
    apply NoDup_cons in Hnd as [_ Hnd].
    destruct (edited_at_shallows e l cs IH Hnd He) as (E & HE & HoE & Hperm).
    exists E. split_and!; [done..|].
    rewrite edit_Tag, !shallows_Tag. simpl. by constructor.
  - intros _ He. by apply elem_of_nil in He.
Qed.

(** Putting [l] in the place of the child [e]: the objects below [e]
    leave, those of [l] arrive, and no other object changes but for its
    contents. *)
Lemma edit_at_nodes e l F :
  NoDup (oids F) → e ∈ child_oids F →
  ∃ E, deref e F = Some E
       ∧ ((edit (at_oid e l) <$> F) ≫= shallows) ++ shallows E
         ≡ₚ (F ≫= shallows) ++ (l ≫= shallows).
Proof.
  intros Hnd He.
  destruct (edited_at_shallows e l F) as (E & HE & HoE & Hperm).
  - apply Forall_forall. intros t _. apply edit_at_shallows.
  - by rewrite <-oids_bind.
  - apply elem_of_app. right. by rewrite <-child_oids_bind.
  - exists E. split.
    + rewrite <-HoE. by apply deref_unique.
    + rewrite edited_roots in Hperm; [done|].
      apply Forall_forall. intros t Ht. unfold at_oid.
      case_decide as Hoid; [|done]. exfalso.
      eapply (root_not_child F t); [done..|]. by rewrite Hoid.
Qed.

Lemma edit_at_oids e l F :
  NoDup (oids F) → e ∈ child_oids F →
  ∃ E, deref e F = Some E
       ∧ oids (edit (at_oid e l) <$> F) ++ ids E ≡ₚ oids F ++ (l ≫= ids).
Proof.
  intros Hnd He. destruct (edit_at_nodes e l F Hnd He) as (E & HE & Hperm).
  exists E. split; [done|].
  rewrite !oids_bind, !bind_ids_shallows, ids_shallows, <-!fmap_app.
  by rewrite Hperm.
Qed.

End Edit.

(** ** The tree methods on well-formed stores *)

Section Methods.
Implicit Types (t n : node) (F G : list node) (cs : list node) (σ : store).

Lemma snd_find_app {A} (P : A → Prop) `{!∀ x, Decision (P x)} (l1 l2 : list A) :
  snd <$> list_find P (l1 ++ l2)
  = match snd <$> list_find P l1 with
    | Some x => Some x
    | None => snd <$> list_find P l2
    end.
Proof.
  destruct (list_find P l1) as [[i x]|] eqn:Hf; simpl.
  - by rewrite (list_find_app_l _ _ _ _ _ Hf).
  - rewrite list_find_app_r by done. by destruct (list_find P l2) as [[??]|].
Qed.

Lemma deref_app i F G :
  deref i (F ++ G)
  = match deref i F with Some n => Some n | None => deref i G end.
Proof. unfold deref. rewrite all_nodes_app. apply snd_find_app. Qed.

Lemma deref_app_l i F G : i ∈ oids F → deref i (F ++ G) = deref i F.
Proof.
  intros [n Hn]%deref_is_Some. by rewrite deref_app, Hn.
Qed.

Lemma deref_app_r i F G : i ∉ oids F → deref i (F ++ G) = deref i G.
Proof. intros Hi%deref_None. by rewrite deref_app, Hi. Qed.

Lemma parent_of_app e F G :
  parent_of e (F ++ G)
  = match parent_of e F with Some n => Some n | None => parent_of e G end.
Proof. unfold parent_of. rewrite all_nodes_app. apply snd_find_app. Qed.

Lemma parent_of_app_l e F G :
  e ∈ child_oids F → parent_of e (F ++ G) = parent_of e F.
Proof.
  intros [n Hn]%parent_of_is_Some. by rewrite parent_of_app, Hn.
Qed.

Lemma deref_root_self t : deref (oid_of t) [t] = Some t.
Proof.
  unfold deref, all_nodes. rewrite bind_singleton, subtree_nodes_unfold.
  simpl. by rewrite decide_True.
Qed.

Lemma update_contents_id p f t : p ∉ ids t → update_contents p f t = t.
Proof.
  induction t as [i nm a cs IH|i k s] using node_ind'; [|done].
  rewrite ids_Tag. intros Hp. apply not_elem_of_cons in Hp as [Hpi Hp].
  simpl. rewrite decide_False by done. f_equal.
  rewrite <-(list_fmap_id cs) at 2. apply list_fmap_ext.
  intros k c Hc%list_elem_of_lookup_2. simpl.
  rewrite Forall_forall in IH. apply IH; [done|].
  intros Hin. apply Hp. apply list_elem_of_bind. by exists c.
Qed.

Lemma update_contents_forest_id p f F :
  p ∉ oids F → update_contents p f <$> F = F.
Proof.
  intros Hp. rewrite <-(list_fmap_id F) at 2. apply list_fmap_ext.
  intros k t Ht%list_elem_of_lookup_2. simpl. apply update_contents_id.
  intros Hin. apply Hp. by eapply ids_subseteq_oids.
Qed.

Lemma wf_bound σ i : wf σ → i ∈ oids (objects σ) → i < next_oid σ.
Proof. intros [_ Hb]. rewrite Forall_forall in Hb. apply Hb. Qed.

Lemma wf_fresh σ k : wf σ → next_oid σ + k ∉ oids (objects σ).
Proof. intros Hwf Hin. apply (wf_bound _ _ Hwf) in Hin. lia. Qed.

Lemma filter_roots_fresh F (r : oid) :
  r ∉ oids F → filter (λ t, oid_of t ≠ r) F = F.
Proof.
  intros Hr. induction F as [|t F IH]; [done|].
  rewrite oids_cons, not_elem_of_app in Hr. destruct Hr as [Ht HF].
  rewrite filter_cons_True, IH; [done..|].
  intros Heq. apply Ht. rewrite <-Heq. apply oid_in_ids.
Qed.

Lemma bind_run {A B} (m : M A) (k : A → M B) σ a σ' :
  m σ = Ok (a, σ') → (let* x := m in k x) σ = k a σ'.
Proof. unfold bind. by intros ->. Qed.

Lemma bind_raise {A B} (m : M A) (k : A → M B) σ e :
  m σ = Raise e → (let* x := m in k x) σ = Raise e.
Proof. unfold bind. by intros ->. Qed.

Lemma parent_run i σ :
  parent i σ = Ok (oid_of <$> parent_of i (objects σ), σ).
Proof. done. Qed.

Lemma new_tag_run nm a σ :
  new_tag nm a σ
  = Ok (next_oid σ,
        Store (objects σ ++ [Tag (next_oid σ) nm a []]) (S (next_oid σ))).
Proof. done. Qed.

Lemma new_string_run s σ :
  new_string s σ
  = Ok (next_oid σ,
        Store (objects σ ++ [NavigableString (next_oid σ) PlainString s])
              (S (next_oid σ))).
Proof. done. Qed.

(** [tag.insert(position, c)] for a parentless [c]. *)
Lemma insert_parentless p position c σ tag C :
  c ≠ p →
  deref p (objects σ) = Some tag →
  c ∉ child_oids (objects σ) →
  deref c (objects σ) = Some C →
  p ∉ ids C →
  insert p position c σ
  = Ok ((), Store (update_contents p
                     (list_insert_at (position `min` length (contents_of tag))
                        C)
                     <$> filter (λ r, oid_of r ≠ c) (objects σ))
                  (next_oid σ)).
Proof.
  intros Hcp Hp Hc HC HpC. unfold insert. rewrite decide_False by done.
  erewrite bind_run by (by apply get_deref).
  erewrite bind_run by apply parent_run.
  rewrite parent_of_None by done. simpl.
  erewrite bind_run by done.
  erewrite bind_run by (by apply get_deref).
  by rewrite decide_False by done.
Qed.

Lemma append_parentless p c σ tag C :
  c ≠ p →
  deref p (objects σ) = Some tag →
  c ∉ child_oids (objects σ) →
  deref c (objects σ) = Some C →
  p ∉ ids C →
  append p c σ
  = Ok ((), Store (update_contents p
                     (list_insert_at (length (contents_of tag)) C)
                     <$> filter (λ r, oid_of r ≠ c) (objects σ))
                  (next_oid σ)).
Proof.
  intros Hcp Hp Hc HC HpC. unfold append.
  erewrite bind_run by (by apply get_deref).
  erewrite insert_parentless by done. by rewrite Nat.min_id.
Qed.

Lemma not_elem_of_singleton_ne (i j : oid) : i ≠ j → i ∉ [j].
Proof. intros Hne [->|[]%elem_of_nil]%elem_of_cons. done. Qed.

(** [tag.append(str)] on a tag just made by [new_tag]. *)
Lemma append_str_fresh F (k : oid) nm a s :
  wf (Store F k) →
  append_str k s (Store (F ++ [Tag k nm a []]) (S k))
  = Ok ((), Store (F ++ [Tag k nm a [NavigableString (S k) PlainString s]])
                  (S (S k))).
Proof.
  intros Hwf.
  pose proof (wf_fresh _ 0 Hwf) as Hn0. pose proof (wf_fresh _ 1 Hwf) as Hn1.
  simpl in Hn0, Hn1. rewrite Nat.add_0_r in Hn0. rewrite Nat.add_1_r in Hn1.
  unfold append_str.
  erewrite bind_run by apply new_string_run. cbn [objects next_oid].
  erewrite (append_parentless _ _ _ (Tag k nm a [])
              (NavigableString (S k) PlainString s)); cbn [objects next_oid].
  - do 3 f_equal.
    rewrite !filter_app, filter_roots_fresh by done.
    rewrite filter_cons_True by (simpl; lia).
    rewrite filter_cons_False by (simpl; naive_solver). rewrite filter_nil.
    rewrite app_nil_r, fmap_app, update_contents_forest_id by done.
    simpl. by rewrite decide_True.
  - lia.
  - rewrite <-(assoc (++)). rewrite deref_app_r by done.
    change [Tag k nm a []; NavigableString (S k) PlainString s]
      with ([Tag k nm a []] ++ [NavigableString (S k) PlainString s]).
    rewrite deref_app_l by (rewrite oids_singleton, ids_Tag; by left).
    apply (deref_root_self (Tag k nm a [])).
  - rewrite !child_oids_app, !not_elem_of_app. split_and!.
    + intros Hin. by apply Hn1, child_oids_oids.
    + apply not_elem_of_nil.
    + apply not_elem_of_nil.
  - rewrite <-(assoc (++)). rewrite deref_app_r by done.
    change [Tag k nm a []; NavigableString (S k) PlainString s]
      with ([Tag k nm a []] ++ [NavigableString (S k) PlainString s]).
    rewrite deref_app_r.
    2:{ rewrite oids_singleton, ids_Tag. simpl.
        apply not_elem_of_singleton_ne. lia. }
    apply (deref_root_self (NavigableString (S k) PlainString s)).
  - rewrite ids_string. apply not_elem_of_singleton_ne. lia.
Qed.

Lemma node_unique F n1 n2 :
  NoDup (oids F) → n1 ∈ all_nodes F → n2 ∈ all_nodes F →
  oid_of n1 = oid_of n2 → n1 = n2.
Proof.
  intros Hnd H1 H2 Heq.
  apply (deref_unique _ _ Hnd) in H1. apply (deref_unique _ _ Hnd) in H2.
  rewrite Heq in H1. congruence.
Qed.

(** A parentless object splits off the store. *)
Lemma split_root F R :
  NoDup (oids F) → R ∈ F →
  F ≡ₚ R :: filter (λ t, oid_of t ≠ oid_of R) F.
Proof.
  intros Hnd (F1 & F2 & ->)%list_elem_of_split.
  rewrite oids_app, oids_cons in Hnd.
  apply NoDup_app in Hnd as (_ & Hd1 & Hnd).
  apply NoDup_app in Hnd as (_ & Hd2 & _).
  rewrite filter_app, filter_cons_False by naive_solver.
  rewrite !filter_roots_fresh; [by rewrite Permutation_middle| |].
  - apply Hd2, oid_in_ids.
  - intros Hin. eapply Hd1; [exact Hin|].
    apply elem_of_app. left. apply oid_in_ids.
Qed.

Lemma oids_proper F G : F ≡ₚ G → oids F ≡ₚ oids G.
Proof. intros HFG. rewrite !oids_bind. by rewrite HFG. Qed.

Lemma child_oids_proper F G : F ≡ₚ G → child_oids F ≡ₚ child_oids G.
Proof. intros HFG. rewrite !child_oids_bind. by rewrite HFG. Qed.

Lemma all_nodes_proper F G : F ≡ₚ G → all_nodes F ≡ₚ all_nodes G.
Proof. intros HFG. unfold all_nodes. by rewrite HFG. Qed.

Lemma extract_child σ e :
  wf σ → e ∈ child_oids (objects σ) →
  ∃ E, deref e (objects σ) = Some E
       ∧ extract e σ
         = Ok ((), Store ((edit (at_oid e []) <$> objects σ) ++ [E])
                     (next_oid σ)).
Proof.
  intros [Hnd _] He. destruct (edit_at_oids e [] _ Hnd He) as (E & HE & _).
  exists E. split; [done|]. unfold extract.
  erewrite bind_run by done.
  apply parent_of_is_Some in He as [P HP]. by rewrite HP, HE.
Qed.

Lemma extract_parentless σ e :
  e ∉ child_oids (objects σ) → extract e σ = Ok ((), σ).
Proof.
  intros He. unfold extract. erewrite bind_run by done.
  by rewrite parent_of_None.
Qed.

(** The store after [e] was taken out of its parent, or replaced there by
    a parentless [R]. *)
Lemma edit_at_store σ e l E :
  wf σ → e ∈ child_oids (objects σ) → deref e (objects σ) = Some E →
  ((edit (at_oid e l) <$> objects σ) ++ [E]) ≫= shallows
  ≡ₚ (objects σ ≫= shallows) ++ (l ≫= shallows).
Proof.
  intros [Hnd _] He HE.
  destruct (edit_at_nodes e l _ Hnd He) as (E' & HE' & Hperm).
  assert (E' = E) as -> by congruence.
  by rewrite bind_app, bind_singleton.
Qed.

Lemma wf_perm F G (k : oid) :
  oids G ≡ₚ oids F → wf (Store F k) → wf (Store G k).
Proof. intros Hperm [Hnd Hb]. split; simpl in *; by rewrite Hperm. Qed.

Lemma extract_wf σ e u σ' :
  wf σ → extract e σ = Ok (u, σ') →
  wf σ' ∧ next_oid σ' = next_oid σ
  ∧ objects σ' ≫= shallows ≡ₚ objects σ ≫= shallows
  ∧ ∀ e', e' ≠ e →
          e' ∈ child_oids (objects σ) → e' ∈ child_oids (objects σ').
Proof.
  intros Hwf Hrun.
  destruct (decide (e ∈ child_oids (objects σ))) as [He|He].
  - destruct (extract_child _ _ Hwf He) as (E & HE & Hrun').
    rewrite Hrun' in Hrun. simplify_eq. simpl.
    pose proof (edit_at_store σ e [] E Hwf He HE) as Hsh.
    rewrite app_nil_r in Hsh.
    assert (oids ((edit (at_oid e []) <$> objects σ) ++ [E])
            ≡ₚ oids (objects σ)) as Hoids.
    { rewrite !oids_bind, !bind_ids_shallows. by rewrite Hsh. }
    split_and!; [|done|done|].
    + destruct σ as [F n]. by eapply wf_perm.
    + intros e' Hne He'.
      pose proof (oids_perm ((edit (at_oid e []) <$> objects σ) ++ [E]))
        as Hp.
      rewrite Hoids, (oids_perm (objects σ)) in Hp.
      rewrite fmap_app, fmap_oid_edit in Hp.
      rewrite <-(assoc (++)) in Hp. apply Permutation_app_inv_l in Hp.
      assert (e' ∈ child_oids (objects σ) ++ []) as Hin
        by (by rewrite app_nil_r).
      rewrite app_nil_r, Hp in Hin. simpl in Hin.
      apply elem_of_cons in Hin as [Heq|Hin]; [|done].
      apply deref_Some in HE as [_ HoE]. congruence.
  - rewrite extract_parentless in Hrun by done. by simplify_eq.
Qed.

Lemma child_oids_transfer F G roots a b :
  oids G ≡ₚ oids F →
  oid_of <$> F ≡ₚ a ++ roots →
  oid_of <$> G ≡ₚ b ++ roots →
  b ++ child_oids G ≡ₚ a ++ child_oids F.
Proof.
  intros Hoids HF HG.
  rewrite (oids_perm F), (oids_perm G), HF, HG in Hoids.
  apply (Permutation_app_inv_l roots).
  etrans; [|etrans; [exact Hoids|]]; solve_Permutation.
Qed.

Lemma replace_store_wf σ e R E :
  wf σ → e ∈ child_oids (objects σ) → deref e (objects σ) = Some E →
  R ∈ objects σ → oid_of R ≠ e → e ∉ tree_child_oids R →
  let G := (edit (at_oid e [R])
              <$> filter (λ t, oid_of t ≠ oid_of R) (objects σ)) ++ [E] in
  wf (Store G (next_oid σ))
  ∧ G ≫= shallows ≡ₚ objects σ ≫= shallows
  ∧ ∀ e', e' ≠ e → e' ∈ child_oids (objects σ) → e' ∈ child_oids G.
Proof.
  intros Hwf He HE HR Hne HeR. destruct σ as [F n]. simpl in *.
  set (F0 := filter (λ t, oid_of t ≠ oid_of R) F).
  pose proof (split_root F R (proj1 Hwf) HR) as Hsplit. fold F0 in Hsplit.
  assert (wf (Store F0 n)) as Hwf0.
  { destruct Hwf as [Hnd Hb]. simpl in *.
    rewrite (oids_proper _ _ Hsplit), oids_cons in Hnd, Hb.
    apply NoDup_app in Hnd as (_ & _ & Hnd).
    apply Forall_app in Hb as [_ Hb]. by split. }
  assert (e ∈ child_oids F0) as He0.
  { rewrite (child_oids_proper _ _ Hsplit), child_oids_cons in He.
    apply elem_of_app in He as [?|?]; done. }
  assert (deref e F0 = Some E) as HE0.
  { destruct (deref_is_Some e F0) as [E0 HE0];
      [by apply child_oids_oids|].
    rewrite HE0. f_equal.
    pose proof (deref_Some _ _ _ HE0) as [Hin0 Ho0].
    pose proof (deref_Some _ _ _ HE) as [Hin Ho].
    eapply (node_unique F); [apply Hwf| |done|congruence].
    rewrite (all_nodes_proper _ _ Hsplit). unfold all_nodes.
    rewrite bind_cons. apply elem_of_app. by right. }
  pose proof (edit_at_store (Store F0 n) e [R] E Hwf0 He0 HE0) as Hsh.
  cbn [objects] in Hsh. rewrite bind_singleton in Hsh.
  assert (((edit (at_oid e [R]) <$> F0) ++ [E]) ≫= shallows
          ≡ₚ F ≫= shallows) as Hsh'.
  { rewrite Hsh. trans ((R :: F0) ≫= shallows); [|by rewrite <-Hsplit].
    rewrite bind_cons. solve_Permutation. }
  assert (oids ((edit (at_oid e [R]) <$> F0) ++ [E]) ≡ₚ oids F) as Hoids.
  { rewrite !oids_bind, !bind_ids_shallows. by rewrite Hsh'. }
  split_and!; [by eapply wf_perm|done|].
  intros e' Hne' He'.
  pose proof (child_oids_transfer F ((edit (at_oid e [R]) <$> F0) ++ [E])
                (oid_of <$> F0) [oid_of R] [e] Hoids) as Hch.
  assert (e' ∈ [oid_of R] ++ child_oids F) as Hin
    by (apply elem_of_app; by right).
  rewrite <-Hch in Hin.
  - apply elem_of_app in Hin as [Hin|Hin]; [|done].
    apply list_elem_of_singleton in Hin. done.
  - by rewrite Hsplit.
  - rewrite fmap_app, fmap_oid_edit. simpl.
    apply deref_Some in HE as [_ ->]. solve_Permutation.
Qed.

(** [element.replace_with(r)] for a parentless [r]. *)
Lemma replace_with_parentless σ e r R :
  wf σ → e ∈ child_oids (objects σ) →
  R ∈ objects σ → oid_of R = r → r ≠ e → e ∉ tree_child_oids R →
  ∃ E, deref e (objects σ) = Some E
       ∧ replace_with e r σ
         = Ok ((), Store ((edit (at_oid e [R])
                             <$> filter (λ t, oid_of t ≠ r) (objects σ))
                            ++ [E])
                     (next_oid σ)).
Proof.
  intros Hwf He HR HoR Hne HeR.
  pose proof (proj1 Hwf) as Hnd.
  destruct (deref_is_Some e (objects σ)) as [E HE];
    [by apply child_oids_oids|].
  exists E. split; [done|].
  pose proof He as [P HP]%parent_of_is_Some.
  pose proof (parent_of_Some _ _ _ HP) as [HPin HeP].
  assert (R ∈ all_nodes (objects σ)) as HRin by by apply root_in_all_nodes.
  assert (∀ n, n ∈ subtree_nodes R → oid_of n ≠ oid_of P) as HPR.
  { intros n Hn Heq. apply HeR.
    assert (n = P) as ->.
    { eapply node_unique; [done| |done..].
      by eapply all_nodes_closed. }
    unfold tree_child_oids. apply list_elem_of_bind. by exists P. }
  unfold replace_with.
  erewrite bind_run by apply parent_run. rewrite HP. simpl.
  rewrite decide_False by done.
  rewrite decide_False.
  2:{ intros ->. by eapply (HPR R); [apply subtree_nodes_self|]. }
  erewrite bind_run.
  2:{ apply extract_parentless. rewrite <-HoR. by apply root_not_child. }
  erewrite bind_run.
  2:{ apply get_deref. rewrite <-HoR. by apply deref_unique. }
  rewrite decide_False.
  2:{ intros (n & Hn & Hon)%elem_of_ids. by eapply HPR. }
  erewrite bind_run by (by apply get_deref).
  by erewrite bind_run by done.
Qed.

Lemma root_deref σ T : wf σ → T ∈ objects σ → deref (oid_of T) (objects σ) = Some T.
Proof.
  intros [Hnd _] HT. apply deref_unique; [done|]. by apply root_in_all_nodes.
Qed.

(** *** Fresh identities *)

Lemma relabel_Tag i nm a cs (k : oid) :
  relabel (Tag i nm a cs) k
  = let '(cs', m) := relabel_list cs (S k) in (Tag k nm a cs', m).
Proof.
  simpl. f_equal.
Qed.

Lemma relabel_list_spec cs (k : oid) :
  Forall (λ c, ∀ k : oid, ids (relabel c k).1 = seq k ((relabel c k).2 - k)
                    ∧ (k < (relabel c k).2)%nat
                    ∧ strip_ids (relabel c k).1 = strip_ids c) cs →
  (relabel_list cs k).1 ≫= ids = seq k ((relabel_list cs k).2 - k)
  ∧ k ≤ (relabel_list cs k).2
  ∧ strip_ids <$> (relabel_list cs k).1 = strip_ids <$> cs.
Proof.
  intros Hcs. revert k.
  induction Hcs as [|c cs Hc _ IH]; intros k; cbn [relabel_list].
  - cbn [fst snd]. rewrite Nat.sub_diag. done.
  - destruct (Hc k) as (Hc1 & Hc2 & Hc3).
    destruct (relabel c k) as [c' m1] eqn:Hr. cbn [fst snd] in *.
    destruct (IH m1) as (IH1 & IH2 & IH3).
    destruct (relabel_list cs m1) as [cs' m2] eqn:Hrl. cbn [fst snd] in *.
    rewrite bind_cons, Hc1, IH1, !fmap_cons.
    split_and!; [|lia|by rewrite Hc3, IH3].
    replace (m2 - k) with ((m1 - k) + (m2 - m1)) by lia.
    rewrite seq_app. do 2 f_equal. lia.
Qed.

Lemma relabel_spec t (k : oid) :
  ids (relabel t k).1 = seq k ((relabel t k).2 - k)
  ∧ k < (relabel t k).2
  ∧ strip_ids (relabel t k).1 = strip_ids t.
Proof.
  revert k. induction t as [i nm a cs IH|i c s] using node_ind'; intros k.
  - rewrite relabel_Tag.
    destruct (relabel_list_spec cs (S k) IH) as (H1 & H2 & H3).
    destruct (relabel_list cs (S k)) as [cs' m]. simpl in *.
    rewrite ids_Tag, H1. split_and!; [|lia|by rewrite H3].
    replace (m - k) with (S (m - S k)) by lia. done.
  - simpl. rewrite ids_string. replace (S k - k) with 1 by lia.
    split_and!; [done|lia|done].
Qed.

(** Allocation of a tree whose identities are the next free ones. *)
Lemma wf_alloc F (k : oid) t m :
  wf (Store F k) → ids t = seq k (m - k) → k ≤ m →
  wf (Store (F ++ [t]) m).
Proof.
  intros [Hnd Hb] Hids Hle. split; simpl in *.
  - rewrite oids_app, oids_singleton, Hids. apply NoDup_app.
    split_and!; [done| |apply NoDup_seq].
    intros i Hi Hseq. rewrite Forall_forall in Hb. apply Hb in Hi.
    apply elem_of_seq in Hseq. lia.
  - rewrite oids_app, oids_singleton, Hids. apply Forall_app. split.
    + eapply Forall_impl; [exact Hb|]. simpl. lia.
    + apply Forall_forall. intros i Hi%elem_of_seq. lia.
Qed.

(** *** One shielding step *)

Lemma shield_step_run prefix tbl j e σ :
  wf σ → e ∈ child_oids (objects σ) →
  ∃ E, deref e (objects σ) = Some E ∧
    let P := placeholder (next_oid σ) (default "" (name_of E))
               (replacement_id prefix j) in
    let G := (edit (at_oid e [P]) <$> objects σ) ++ [E] in
    shield_step prefix tbl (j, e) σ
    = Ok (<[replacement_id prefix j := e]> tbl,
          Store G (S (S (next_oid σ))))
    ∧ wf (Store G (S (S (next_oid σ))))
    ∧ G ≫= shallows ≡ₚ (objects σ ≫= shallows) ++ shallows P
    ∧ ∀ e', e' ≠ e → e' ∈ child_oids (objects σ) → e' ∈ child_oids G.
Proof.
  intros Hwf He. destruct σ as [F k]. cbn [objects next_oid] in *.
  destruct (deref_is_Some e F) as [E HE]; [by apply child_oids_oids|].
  exists E. split; [done|].
  set (P := placeholder k (default "" (name_of E)) (replacement_id prefix j)).
  pose proof (wf_bound _ _ Hwf (child_oids_oids _ _ He)) as Hek.
  cbn [objects next_oid] in Hek.
  pose proof (wf_fresh _ 0 Hwf) as Hk. simpl in Hk.
  rewrite Nat.add_0_r in Hk.
  assert (wf (Store (F ++ [P]) (S (S k)))) as Hwf2.
  { eapply wf_alloc; [done| |lia]. unfold P, placeholder.
    rewrite ids_Tag. simpl. by replace (S (S k) - k) with 2 by lia. }
  assert (e ∈ child_oids (F ++ [P])) as He2.
  { rewrite child_oids_app. apply elem_of_app. by left. }
  assert (deref e (F ++ [P]) = Some E) as HE2.
  { rewrite deref_app_l; [done|]. by apply child_oids_oids. }
  assert (P ∈ F ++ [P]) as HP by (apply elem_of_app; right; by left).
  assert (e ∉ tree_child_oids P) as HeP.
  { unfold P, placeholder. rewrite tree_child_oids_Tag. simpl.
    apply not_elem_of_singleton_ne. lia. }
  assert (filter (λ t, oid_of t ≠ k) (F ++ [P]) = F) as Hfilter.
  { rewrite filter_app, filter_roots_fresh by done.
    rewrite filter_cons_False by (simpl; naive_solver).
    by rewrite filter_nil, app_nil_r. }
  destruct (replace_with_parentless (Store (F ++ [P]) (S (S k))) e k P)
    as (E' & HE' & Hrun); [done|done|done|done|lia|done|].
  cbn [objects next_oid] in *. assert (E' = E) as -> by congruence.
  rewrite Hfilter in Hrun.
  pose proof (replace_store_wf (Store (F ++ [P]) (S (S k))) e P E
                Hwf2 He2 HE2 HP) as Hres.
  cbn [objects next_oid] in Hres. simpl oid_of in Hres.
  rewrite Hfilter in Hres.
  destruct Hres as (Hwf3 & Hsh & Hch); [lia|done|].
  split_and!.
  - unfold shield_step.
    erewrite bind_run by (by apply get_deref).
    erewrite bind_run by apply new_tag_run. cbn [objects next_oid].
    erewrite bind_run by (by apply append_str_fresh).
    by erewrite bind_run by exact Hrun.
  - done.
  - by rewrite Hsh, bind_app, bind_singleton.
  - intros e' Hne He'. apply Hch; [done|].
    rewrite child_oids_app. apply elem_of_app. by left.
Qed.

(** *** What the loops before the region split preserve *)

Lemma persists_refl σ : wf σ → persists σ σ.
Proof. by intros Hwf. Qed.

Lemma persists_trans σ1 σ2 σ3 :
  persists σ1 σ2 → persists σ2 σ3 → persists σ1 σ3.
Proof.
  intros (_ & H1 & H2 & H3) (Hwf & H1' & H2' & H3').
  split_and!; [done|..]; naive_solver.
Qed.

Lemma descendants_edit ρ t x :
  x ∈ descendants (edit ρ t) →
  (∃ y, y ∈ descendants t ∧ shallow x = shallow y)
  ∨ (∃ c l r, c ∈ descendants t ∧ ρ (oid_of c) = Some l ∧ r ∈ l
              ∧ x ∈ subtree_nodes r).
Proof.
  revert x. induction t as [i nm a cs IH|i k s] using node_ind'; intros x.
  - rewrite edit_Tag. unfold descendants. simpl.
    intros (c' & Hx & Hc')%list_elem_of_bind.
    apply list_elem_of_bind in Hc' as (c & Hc' & Hc).
    rewrite Forall_forall in IH. unfold edited in Hc'.
    destruct (ρ (oid_of c)) as [l|] eqn:Hρ.
    + right. exists c, l, c'. split_and!; [|done..].
      by apply (child_descendant c (Tag i nm a cs)).
    + apply list_elem_of_singleton in Hc' as ->.
      rewrite subtree_nodes_unfold in Hx.
      apply elem_of_cons in Hx as [->|Hx].
      * left. exists c. split; [|apply shallow_edit].
        by apply (child_descendant c (Tag i nm a cs)).
      * destruct (IH c Hc x Hx) as [(y & Hy & Hsh)|(d & l & r & Hd & ?)].
        -- left. exists y. split; [|done].
           apply list_elem_of_bind. exists c. split; [|done].
           by apply descendants_subtree.
        -- right. exists d, l, r. split; [|done].
           apply list_elem_of_bind. exists c. split; [|done].
           by apply descendants_subtree.
  - intros []%elem_of_nil.
Qed.

Lemma is_named_shallow nm x y :
  shallow x = shallow y → is_named nm x = is_named nm y.
Proof. destruct x, y; simpl; intros; by simplify_eq. Qed.

Lemma no_html_edit e l T :
  no_html T →
  Forall (λ r, Forall (λ n, ¬ is_named "html" n) (subtree_nodes r)) l →
  no_html (edit (at_oid e l) T).
Proof.
  unfold no_html. rewrite !Forall_forall. intros HT Hl x Hx.
  apply descendants_edit in Hx
    as [(y & Hy & Hsh)|(c & l' & r & Hc & Hρ & Hr & Hx)].
  - rewrite (is_named_shallow _ _ _ Hsh). by apply HT.
  - unfold at_oid in Hρ. case_decide; [|done]. simplify_eq.
    specialize (Hl r Hr). rewrite Forall_forall in Hl. by apply Hl.
Qed.

Lemma edit_store_persists σ e l E (k : oid) :
  wf σ →
  wf (Store ((edit (at_oid e l) <$> objects σ) ++ [E]) k) →
  ((edit (at_oid e l) <$> objects σ) ++ [E]) ≫= shallows
  ≡ₚ (objects σ ≫= shallows) ++ (l ≫= shallows) →
  Forall (λ r, Forall (λ n, ¬ is_named "html" n) (subtree_nodes r)) l →
  persists σ (Store ((edit (at_oid e l) <$> objects σ) ++ [E]) k).
Proof.
  intros Hwf Hwf' Hsh Hl. split_and!; [done|..]; cbn [objects].
  - intros h Hh. rewrite Hsh. apply elem_of_app. by left.
  - intros i Hi. unfold has_root in *. cbn [objects].
    rewrite fmap_app, fmap_oid_edit. apply elem_of_app. by left.
  - intros i (T & HT & HoT & Hno). exists (edit (at_oid e l) T).
    cbn [objects]. split_and!.
    + apply elem_of_app. left. by apply list_elem_of_fmap_2.
    + by rewrite edit_oid.
    + by apply no_html_edit.
Qed.

Lemma extract_persists σ e u σ' :
  wf σ → extract e σ = Ok (u, σ') →
  persists σ σ'
  ∧ ∀ e', e' ≠ e →
          e' ∈ child_oids (objects σ) → e' ∈ child_oids (objects σ').
Proof.
  intros Hwf Hrun.
  destruct (extract_wf _ _ _ _ Hwf Hrun) as (Hwf' & _ & _ & Hch).
  split; [|done].
  destruct (decide (e ∈ child_oids (objects σ))) as [He|He].
  - destruct (extract_child _ _ Hwf He) as (E & HE & Hrun').
    rewrite Hrun' in Hrun. simplify_eq.
    apply edit_store_persists; [done|done| |done].
    by apply edit_at_store.
  - rewrite extract_parentless in Hrun by done. simplify_eq.
    by apply persists_refl.
Qed.

Lemma extract_loop L σ :
  wf σ →
  ∃ σ', for_each L extract σ = Ok ((), σ')
        ∧ persists σ σ'
        ∧ ∀ e', e' ∉ L →
                e' ∈ child_oids (objects σ) → e' ∈ child_oids (objects σ').
Proof.
  revert σ. induction L as [|e L IH]; intros σ Hwf.
  - exists σ. split_and!; [done|by apply persists_refl|done].
  - destruct (extract e σ) as [[[] σ1]|] eqn:Hrun.
    2:{ unfold extract, bind, get_objects, put_objects, ret in Hrun.
        simpl in Hrun. by repeat case_match. }
    destruct (extract_persists _ _ _ _ Hwf Hrun) as (Hp1 & Hch1).
    destruct (IH σ1) as (σ' & Hrun' & Hp2 & Hch2); [apply Hp1|].
    exists σ'. split_and!.
    + simpl. by erewrite bind_run by exact Hrun.
    + by eapply persists_trans.
    + intros e' Hne He'. apply not_elem_of_cons in Hne as [??].
      apply Hch2; [done|]. by apply Hch1.
Qed.

Lemma shallow_node_unique F h E :
  NoDup (oids F) → h ∈ F ≫= shallows → deref (oid_of h) F = Some E →
  h = shallow E.
Proof.
  intros Hnd Hh HE.
  unfold shallows in Hh. rewrite <-fmap_bind in Hh.
  apply list_elem_of_fmap in Hh as (x & -> & Hx).
  rewrite oid_shallow in HE. f_equal.
  apply (deref_unique _ _ Hnd) in Hx. congruence.
Qed.

Lemma shield_loop prefix L :
  ∀ idxs tbl σ,
    wf σ → NoDup L →
    Forall (λ e, e ∈ child_oids (objects σ)
                 ∧ ∃ h, h ∈ objects σ ≫= shallows ∧ oid_of h = e
                        ∧ ¬ is_named "html" h) L →
    ∃ tbl' σ',
      fold_M (shield_step prefix) tbl (zip idxs L) σ = Ok (tbl', σ')
      ∧ persists σ σ'.
Proof.
  induction L as [|e L IH]; intros idxs tbl σ Hwf Hnd HL.
  - exists tbl, σ. rewrite zip_with_nil_r. split; [done|].
    by apply persists_refl.
  - destruct idxs as [|j idxs].
    { exists tbl, σ. split; [done|]. by apply persists_refl. }
    apply NoDup_cons in Hnd as [HeL Hnd].
    apply Forall_cons in HL as [(He & h & Hh & Hoh & Hname) HL].
    destruct (shield_step_run prefix tbl j e σ Hwf He)
      as (E & HE & Hrun & Hwf' & Hsh & Hch).
    set (P := placeholder (next_oid σ) (default "" (name_of E))
                (replacement_id prefix j)) in *.
    set (σ1 := Store ((edit (at_oid e [P]) <$> objects σ) ++ [E])
                 (S (S (next_oid σ)))) in *.
    assert (persists σ σ1) as Hp1.
    { apply edit_store_persists; [done|done| |].
      - by rewrite bind_singleton.
      - constructor; [|done].
        assert (h = shallow E) as ->.
        { eapply shallow_node_unique; [apply Hwf|done|by rewrite Hoh]. }
        unfold P, placeholder.
        rewrite subtree_nodes_unfold. unfold descendants.
        cbn [contents_of]. rewrite bind_singleton. cbn [subtree_nodes].
        unfold is_named in *. repeat constructor.
        + cbn [name_of]. intros Hn%bool_decide_unpack.
          apply Hname. apply bool_decide_pack.
          destruct E; simpl in *; by simplify_eq.
        + cbn [name_of]. by intros Hn%bool_decide_unpack. }
    destruct (IH idxs (<[replacement_id prefix j := e]> tbl) σ1)
      as (tbl' & σ' & Hrun' & Hp2); [done|done| |].
    { rewrite Forall_forall in HL |- *. intros e' He'.
      destruct (HL e' He') as (Hc' & h' & Hh' & Hoh' & Hname').
      split.
      - apply Hch; [|done]. intros ->. done.
      - exists h'. split; [|done]. by apply Hp1. }
    exists tbl', σ'. split.
    + simpl. by erewrite bind_run by exact Hrun.
    + by eapply persists_trans.
Qed.

End Methods.

(** ** The region splitter *)

Section Regions.
Context `{Collaborators}.

Lemma classify_post ph hd pb b post l :
  foldl classify (RegionVars ph hd pb (Some b) post) l
  = RegionVars ph hd pb (Some b) (post ++ (py_str <$> l)).
Proof.
  revert post. induction l as [|n l IH]; intros post; simpl.
  - by rewrite app_nil_r.
  - rewrite andb_false_r. simpl. rewrite IH. by rewrite <-app_assoc.
Qed.

Lemma classify_mid ph h pb post l :
  Forall (λ n, ¬ is_named "body" n) l →
  foldl classify (RegionVars ph (Some h) pb None post) l
  = RegionVars ph (Some h) (pb ++ (py_str <$> l)) None post.
Proof.
  intros Hl. revert pb. induction Hl as [|n l Hn _ IH]; intros pb; simpl.
  - by rewrite app_nil_r.
  - destruct (is_named "body" n); [done|]. rewrite IH.
    by rewrite <-app_assoc.
Qed.

Lemma classify_pre ph pb post l :
  Forall (λ n, ¬ is_named "head" n ∧ ¬ is_named "body" n) l →
  foldl classify (RegionVars ph None pb None post) l
  = RegionVars (ph ++ (py_str <$> l)) None pb None post.
Proof.
  intros Hl. revert ph. induction Hl as [|n l [Hh Hb] _ IH]; intros ph; simpl.
  - by rewrite app_nil_r.
  - destruct (is_named "head" n); [done|].
    destruct (is_named "body" n); [done|]. rewrite IH.
    by rewrite <-app_assoc.
Qed.

(** Every list splits at its first element satisfying a test. *)
Lemma first_split {A} (P : A → bool) (l : list A) :
  Forall (λ x, ¬ P x) l
  ∨ ∃ pre x rest, l = pre ++ x :: rest ∧ Forall (λ x, ¬ P x) pre ∧ P x.
Proof.
  induction l as [|x l [IH|(pre & y & rest & -> & Hpre & Hy)]].
  - left. constructor.
  - destruct (P x) eqn:Hx.
    + right. exists [], x, l. rewrite Hx. split_and!; [done|constructor|done].
    + left. constructor; [rewrite Hx; naive_solver|done].
  - destruct (P x) eqn:Hx.
    + right. exists [], x, (pre ++ y :: rest). rewrite Hx.
      split_and!; [done|constructor|done].
    + right. exists (x :: pre), y, rest.
      split_and!; [done| |done].
      constructor; [rewrite Hx; naive_solver|done].
Qed.

Lemma classify_all_regions l : regions_of l (classify_all l).
Proof.
  unfold classify_all.
  destruct (first_split (λ n, is_named "head" n || is_named "body" n) l)
    as [Hall|(pre & x & rest & -> & Hpre & Hx)].
  - assert (Forall (λ n, ¬ is_named "head" n ∧ ¬ is_named "body" n) l)
      as Hl.
    { eapply Forall_impl; [exact Hall|]. intros n Hn. simpl in Hn.
      destruct (is_named "head" n), (is_named "body" n); naive_solver. }
    rewrite classify_pre by done. simpl. by constructor.
  - assert (Forall (λ n, ¬ is_named "head" n ∧ ¬ is_named "body" n) pre)
      as Hl.
    { eapply Forall_impl; [exact Hpre|]. intros n Hn. simpl in Hn.
      destruct (is_named "head" n), (is_named "body" n); naive_solver. }
    rewrite foldl_app, classify_pre by done. simpl.
    destruct (is_named "head" x) eqn:Hhead.
    + destruct (first_split (λ n, is_named "body" n) rest)
        as [Hmid|(mid & b & post & -> & Hmid & Hb)].
      * rewrite classify_mid by done. simpl.
        apply regions_head_only; [done|by rewrite Hhead|done].
      * rewrite foldl_app, classify_mid by done. simpl.
        destruct (is_named "body" b) eqn:Hbody; [|done].
        rewrite classify_post. simpl.
        apply regions_head_body; [done|by rewrite Hhead|done|].
        by rewrite Hbody.
    + simpl in Hx. destruct (is_named "body" x) eqn:Hbody; [|done].
      rewrite classify_post. simpl.
      apply regions_body_first; [done|by rewrite Hbody].
Qed.

Lemma find_tag_Some soup nm σ t n :
  wf σ →
  deref soup (objects σ) = Some t →
  head (filter (λ n, is_named nm n) (descendants t)) = Some n →
  find_tag soup nm σ = Ok (Some (oid_of n), σ)
  ∧ deref (oid_of n) (objects σ) = Some n.
Proof.
  intros [Hnd _] Ht Hn. split.
  - unfold find_tag, bind. rewrite (get_deref _ _ _ Ht). unfold ret.
    by rewrite Hn.
  - apply deref_unique; [done|].
    apply deref_Some in Ht as [Ht _].
    eapply all_nodes_closed; [exact Ht|]. apply descendants_subtree.
    apply head_Some_elem_of in Hn.
    by apply list_elem_of_filter in Hn as [_ Hn].
Qed.

Lemma find_meaningful_nodes_run σ soup t html_tag :
  wf σ →
  deref soup (objects σ) = Some t →
  head (filter (λ n, is_named "html" n) (descendants t)) = Some html_tag →
  _find_meaningful_nodes soup σ
  = Ok (classify_all (contents_of html_tag), σ).
Proof.
  intros Hwf Ht Hhtml.
  destruct (find_tag_Some _ _ _ _ _ Hwf Ht Hhtml) as [Hfind Hderef].
  unfold _find_meaningful_nodes, soup_html, bind.
  rewrite Hfind. unfold ret. by rewrite (get_deref _ _ _ Hderef).
Qed.

(** C4: [_find_meaningful_nodes] splits the children of the [html]
    element, in order: those before any [head] or [body] go to [pre_head];
    after the head, those that are not the body go to [pre_body]; after
    the body, every child goes to [post_body] whatever its name; each
    region's text joins the string forms of its children with newlines. *)
Theorem find_meaningful_nodes_regions σ soup t html_tag :
  wf σ →
  deref soup (objects σ) = Some t →
  head (filter (λ n, is_named "html" n) (descendants t)) = Some html_tag →
  ∃ r, _find_meaningful_nodes soup σ = Ok (r, σ)
       ∧ regions_of (contents_of html_tag) r.
Proof.
  intros Hwf Ht Hhtml.
  exists (classify_all (contents_of html_tag)).
  split; [by eapply find_meaningful_nodes_run|apply classify_all_regions].
Qed.

End Regions.

(** ** Restoration with a missing table entry *)

Section Restore.

Lemma select_attr_deref soup attr σ t :
  deref soup (objects σ) = Some t →
  select_attr soup attr σ
  = Ok (oid_of <$> filter (λ n, is_Some (lookup_attr attr (attrs_of n)))
                     (descendants t), σ).
Proof.
  intros Ht. unfold select_attr, bind. by rewrite (get_deref _ _ _ Ht).
Qed.

Lemma descendant_deref σ soup t n :
  wf σ → deref soup (objects σ) = Some t → n ∈ descendants t →
  deref (oid_of n) (objects σ) = Some n.
Proof.
  intros [Hnd _] Ht Hn. apply deref_unique; [done|].
  apply deref_Some in Ht as [Ht _].
  eapply all_nodes_closed; [exact Ht|]. by apply descendants_subtree.
Qed.

(** C1 (the code raises where its description says it does not): when the
    first element carrying the marker attribute has an identifier that is
    absent from the table, [_add_undiffable_content] raises [KeyError] for
    that identifier; the placeholder is not left in place. *)
Theorem add_undiffable_content_missing_id_raises σ soup t e rest key R :
  wf σ →
  deref soup (objects σ) = Some t →
  filter (λ n, is_Some (lookup_attr ATTR (attrs_of n))) (descendants t)
  = e :: rest →
  lookup_attr ATTR (attrs_of e) = Some key →
  R !! key = None →
  _add_undiffable_content soup R σ = Raise (KeyError key).
Proof.
  intros Hwf Ht Hsel Hkey HR.
  assert (deref (oid_of e) (objects σ) = Some e) as He.
  { eapply descendant_deref; [done..|].
    assert (e ∈ filter (λ n, is_Some (lookup_attr ATTR (attrs_of n)))
                  (descendants t)) as Hin by (rewrite Hsel; by left).
    by apply list_elem_of_filter in Hin as [_ ?]. }
  unfold _add_undiffable_content, bind.
  rewrite (select_attr_deref _ _ _ _ Ht), Hsel. simpl.
  unfold bind, unshield_step, bind, getitem_attr, bind.
  rewrite (get_deref _ _ _ He), Hkey. unfold ret, lift, dict_getitem.
  by rewrite HR.
Qed.

Lemma wf_orphan_placeholder_document : wf orphan_placeholder_document.
Proof. apply (bool_decide_unpack _). by vm_compute. Qed.

End Restore.

(** ** Rendering needs an html element *)

Section RenderNeedsHtml.
Context `{Collaborators}.
Implicit Types (σ : store) (T : node).

Lemma subtree_nodes_strip t :
  subtree_nodes (strip_ids t) = strip_ids <$> subtree_nodes t.
Proof.
  induction t as [i nm a cs IH|i k s] using node_ind'; [|done].
  simpl. f_equal. rewrite list_fmap_bind, fmap_bind.
  apply Forall_bind_ext. eapply Forall_impl; [exact IH|]. done.
Qed.

Lemma names_strip cs :
  name_of <$> (cs ≫= subtree_nodes)
  = name_of <$> ((strip_ids <$> cs) ≫= subtree_nodes).
Proof.
  rewrite list_fmap_bind, !fmap_bind. apply list_bind_ext; [|done].
  intros c. simpl. rewrite subtree_nodes_strip, <-list_fmap_compose.
  apply list_fmap_ext. intros _ n _. by destruct n.
Qed.

Lemma Forall_names nm (l1 l2 : list node) :
  name_of <$> l1 = name_of <$> l2 →
  Forall (λ n, ¬ is_named nm n) l1 → Forall (λ n, ¬ is_named nm n) l2.
Proof.
  intros Heq H1. revert l2 Heq.
  induction H1 as [|x l1 Hx _ IH]; intros [|y l2] Heq; try done.
  rewrite !fmap_cons in Heq. injection Heq as Hxy Heq.
  constructor; [|by apply IH]. unfold is_named in *. by rewrite <-Hxy.
Qed.

Lemma BeautifulSoup_run markup σ :
  wf σ →
  ∃ cs m,
    let T := Tag (next_oid σ) "[document]" [] cs in
    BeautifulSoup markup σ = Ok (next_oid σ, Store (objects σ ++ [T]) m)
    ∧ wf (Store (objects σ ++ [T]) m)
    ∧ strip_ids <$> cs = strip_ids <$> lxml_parse markup
    ∧ persists σ (Store (objects σ ++ [T]) m).
Proof.
  intros Hwf. unfold BeautifulSoup.
  pose proof (relabel_spec (Tag 0 "[document]" [] (lxml_parse markup))
                (next_oid σ)) as (Hids & Hlt & Hstrip).
  rewrite relabel_Tag in Hids, Hlt, Hstrip.
  destruct (relabel_list (lxml_parse markup) (S (next_oid σ)))
    as [cs m] eqn:Hr.
  cbn [fst snd] in *. exists cs, m. simpl in Hstrip.
  assert (wf (Store (objects σ ++ [Tag (next_oid σ) "[document]" [] cs]) m))
    as Hwf'.
  { destruct σ as [F k]. eapply wf_alloc; [done|done|simpl in *; lia]. }
  split_and!; [done|done|by simplify_eq|].
  split_and!; [done|..]; cbn [objects].
  - intros h Hh. rewrite bind_app. apply elem_of_app. by left.
  - intros i Hi. unfold has_root in *. cbn [objects].
    rewrite fmap_app. apply elem_of_app. by left.
  - intros i (T & HT & HoT & Hno). exists T. cbn [objects].
    split_and!; [|done..]. apply elem_of_app. by left.
Qed.

Lemma BeautifulSoup_html_free markup σ cs m :
  parses_without_html markup →
  strip_ids <$> cs = strip_ids <$> lxml_parse markup →
  html_free (Store (objects σ ++ [Tag (next_oid σ) "[document]" [] cs]) m)
    (next_oid σ).
Proof.
  intros Hno Hstrip. exists (Tag (next_oid σ) "[document]" [] cs).
  split_and!; [apply elem_of_app; right; by left|done|].
  unfold no_html, descendants. cbn [contents_of].
  unfold parses_without_html in Hno.
  eapply Forall_names; [|exact Hno].
  by rewrite names_strip, (names_strip cs), Hstrip.
Qed.

Lemma has_root_tree σ i : has_root σ i → ∃ T, T ∈ objects σ ∧ oid_of T = i.
Proof. intros (T & -> & HT)%list_elem_of_fmap. by exists T. Qed.

Lemma descendant_child_oid t n : n ∈ descendants t → oid_of n ∈ tree_child_oids t.
Proof.
  revert n. induction t as [i nm a cs IH|i k s] using node_ind'; intros n.
  - unfold descendants. cbn [contents_of].
    intros (c & Hn & Hc)%list_elem_of_bind.
    rewrite tree_child_oids_Tag. apply elem_of_app.
    rewrite subtree_nodes_unfold in Hn.
    apply elem_of_cons in Hn as [->|Hn].
    + left. by apply list_elem_of_fmap_2.
    + right. apply list_elem_of_bind. exists c. split; [|done].
      rewrite Forall_forall in IH. by apply IH.
  - intros []%elem_of_nil.
Qed.

Lemma root_descendant_child F T n :
  T ∈ F → n ∈ descendants T → oid_of n ∈ child_oids F.
Proof.
  intros HT Hn. rewrite child_oids_bind. apply list_elem_of_bind.
  exists T. split; [by apply descendant_child_oid|done].
Qed.

Lemma NoDup_fmap_filter {A B} (f : A → B) (P : A → Prop)
    `{!∀ x, Decision (P x)} (l : list A) :
  NoDup (f <$> l) → NoDup (f <$> filter P l).
Proof.
  induction l as [|x l IH]; [done|].
  rewrite fmap_cons, NoDup_cons. intros [Hx Hnd].
  rewrite filter_cons. case_decide; [|by apply IH].
  rewrite fmap_cons, NoDup_cons. split; [|by apply IH].
  intros (y & Hxy & Hy%list_elem_of_filter)%list_elem_of_fmap.
  apply Hx. apply list_elem_of_fmap. exists y. naive_solver.
Qed.

Lemma NoDup_root_descendants F T (P : node → Prop) `{!∀ x, Decision (P x)} :
  NoDup (oids F) → T ∈ F →
  NoDup (oid_of <$> filter P (descendants T)).
Proof.
  intros Hnd HT. apply NoDup_fmap_filter.
  pose proof (NoDup_ids_root T F Hnd HT) as HndT.
  unfold ids in HndT. rewrite subtree_nodes_unfold, fmap_cons in HndT.
  by apply NoDup_cons in HndT as [_ ?].
Qed.

Lemma remove_comments_run soup σ :
  wf σ → has_root σ soup →
  ∃ comments σ',
    find_all_comments soup σ = Ok (comments, σ)
    ∧ for_each comments extract σ = Ok ((), σ')
    ∧ persists σ σ'.
Proof.
  intros Hwf (T & HT & <-)%has_root_tree.
  destruct (extract_loop
              (oid_of <$> filter (λ n, is_comment n) (descendants T)) σ Hwf)
    as (σ' & Hrun & Hp & _).
  eexists _, σ'. split_and!; [|exact Hrun|done].
  unfold find_all_comments.
  by erewrite bind_run by (apply get_deref; by apply root_deref).
Qed.

Lemma remove_undiffable_content_run soup prefix σ :
  wf σ → has_root σ soup →
  ∃ tbl σ', _remove_undiffable_content soup prefix σ = Ok ((soup, tbl), σ')
            ∧ persists σ σ'.
Proof.
  intros Hwf (T & HT & <-)%has_root_tree.
  set (L := oid_of <$> filter (λ n, name_in ["script"; "style"] n)
                         (descendants T)).
  destruct (shield_loop prefix L (seq 0 (length L)) ∅ σ Hwf)
    as (tbl & σ' & Hrun & Hp).
  { apply NoDup_root_descendants with (F := objects σ); [apply Hwf|done]. }
  { apply Forall_forall. intros e (n & -> & Hn)%list_elem_of_fmap.
    apply list_elem_of_filter in Hn as [Hname Hn]. split.
    - by eapply root_descendant_child.
    - exists (shallow n). split_and!.
      + unfold shallows. rewrite <-fmap_bind. apply list_elem_of_fmap_2.
        eapply all_nodes_closed; [by apply root_in_all_nodes|].
        by apply descendants_subtree.
      + apply oid_shallow.
      + rewrite (is_named_shallow _ _ n) by (by destruct n).
        unfold name_in, is_named in *. destruct (name_of n) as [nm|]; [|done].
        intros Heq%bool_decide_unpack. simplify_eq.
        apply bool_decide_unpack in Hname.
        rewrite !elem_of_cons, elem_of_nil in Hname. naive_solver. }
  exists tbl, σ'. split; [|done].
  unfold _remove_undiffable_content, find_all.
  erewrite bind_run.
  2:{ erewrite bind_run by (apply get_deref; by apply root_deref). done. }
  unfold enumerate. fold L. by erewrite bind_run by exact Hrun.
Qed.

Lemma find_meaningful_nodes_no_html soup σ :
  wf σ → html_free σ soup →
  _find_meaningful_nodes soup σ = Raise NO_CHILDREN.
Proof.
  intros Hwf (T & HT & <- & Hno).
  unfold _find_meaningful_nodes, soup_html, find_tag.
  apply bind_raise. erewrite bind_run.
  2:{ erewrite bind_run by (apply get_deref; by apply root_deref). done. }
  assert (filter (λ n, is_named "html" n) (descendants T) = []) as ->; [|done].
  unfold no_html in Hno. induction Hno as [|n l Hn _ IH]; [done|].
  by rewrite filter_cons_False.
Qed.

Lemma find_meaningful_nodes_root soup σ :
  wf σ → has_root σ soup →
  (∃ r, _find_meaningful_nodes soup σ = Ok (r, σ))
  ∨ _find_meaningful_nodes soup σ = Raise NO_CHILDREN.
Proof.
  intros Hwf (T & HT & <-)%has_root_tree.
  destruct (head (filter (λ n, is_named "html" n) (descendants T)))
    as [html_tag|] eqn:Hhead.
  - left.
    eexists. apply (find_meaningful_nodes_run σ (oid_of T) T html_tag);
      [done|by apply root_deref|done].
  - right. unfold _find_meaningful_nodes, soup_html, find_tag.
    apply bind_raise. erewrite bind_run.
    2:{ erewrite bind_run by (apply get_deref; by apply root_deref). done. }
    by rewrite Hhead.
Qed.

(** C10: [html_diff_render] relies on each input parsing into a tree that
    holds an [html] element: when the parser finds none in either input
    (as for the empty string), the attribute access on the missing
    element raises [AttributeError] and no document is returned. *)
Theorem html_diff_render_requires_html a_text b_text σ :
  wf σ →
  parses_without_html a_text ∨ parses_without_html b_text →
  html_diff_render a_text b_text σ = Raise NO_CHILDREN.
Proof.
  intros Hwf Hno. unfold html_diff_render. apply bind_raise.
  unfold html_diff_render_tree.
  destruct (BeautifulSoup_run a_text σ Hwf)
    as (cs_a & m_a & Hrun1 & Hwf1 & Hstrip_a & Hp1).
  set (σ1 := Store (objects σ ++ [Tag (next_oid σ) "[document]" [] cs_a])
               m_a) in *.
  destruct (BeautifulSoup_run b_text σ1 Hwf1)
    as (cs_b & m_b & Hrun2 & Hwf2 & Hstrip_b & Hp2).
  set (σ2 := Store (objects σ1 ++ [Tag (next_oid σ1) "[document]" [] cs_b])
               m_b) in *.
  set (soup_old := next_oid σ). set (soup_new := next_oid σ1).
  assert (has_root σ1 soup_old) as Hr1.
  { unfold has_root, σ1. cbn [objects]. rewrite fmap_app.
    apply elem_of_app. right. by left. }
  assert (has_root σ2 soup_new) as Hr2.
  { unfold has_root, σ2. cbn [objects]. rewrite fmap_app.
    apply elem_of_app. right. by left. }
  destruct Hp2 as (_ & Hsh2 & Hroot2 & Hfree2).
  destruct (remove_comments_run soup_old σ2 Hwf2 (Hroot2 _ Hr1))
    as (co & σ3 & Hfind3 & Hrun3 & Hwf3 & _ & Hroot3 & Hfree3).
  destruct (remove_comments_run soup_new σ3 Hwf3 (Hroot3 _ Hr2))
    as (cn & σ4 & Hfind4 & Hrun4 & Hwf4 & _ & Hroot4 & Hfree4).
  destruct (remove_undiffable_content_run soup_old "old" σ4 Hwf4)
    as (tbl_old & σ5 & Hrun5 & Hwf5 & _ & Hroot5 & Hfree5); [by auto|].
  destruct (remove_undiffable_content_run soup_new "new" σ5 Hwf5)
    as (tbl_new & σ6 & Hrun6 & Hwf6 & _ & Hroot6 & Hfree6); [by auto|].
  erewrite bind_run by exact Hrun1.
  erewrite bind_run by exact Hrun2.
  erewrite bind_run by exact Hfind3.
  erewrite bind_run by exact Hrun3.
  erewrite bind_run by exact Hfind4.
  erewrite bind_run by exact Hrun4.
  erewrite bind_run by exact Hrun5. cbv beta iota.
  erewrite bind_run by exact Hrun6. cbv beta iota.
  destruct Hno as [Hno|Hno].
  - apply bind_raise. apply find_meaningful_nodes_no_html; [done|].
    apply Hfree6, Hfree5, Hfree4, Hfree3, Hfree2.
    by apply (BeautifulSoup_html_free a_text σ).
  - destruct (find_meaningful_nodes_root soup_old σ6) as [[r Hr]|Hr];
      [done|by auto 10|..].
    + erewrite bind_run by exact Hr. apply bind_raise.
      apply find_meaningful_nodes_no_html; [done|].
      apply Hfree6, Hfree5, Hfree4, Hfree3.
      by apply (BeautifulSoup_html_free b_text σ1).
    + by apply bind_raise.
Qed.

End RenderNeedsHtml.

(** ** The element pair differ *)

Section DiffElements.
Context `{Collaborators}.
Implicit Types (σ : store) (F G : list node).

Lemma edit_forest_absent e l F :
  e ∉ oids F → edit (at_oid e l) <$> F = F.
Proof.
  intros He. rewrite <-(list_fmap_id F) at 2. apply list_fmap_ext.
  intros _ t Ht%list_elem_of_lookup_2. simpl. apply edit_at_absent.
  intros Hin. apply He. eapply ids_subseteq_oids; [done|].
  by apply tree_child_oids_ids.
Qed.

(** [tag.append(str)] on a parentless tag. *)
Lemma append_str_root F G (k : oid) nm a cs s (m : oid) :
  wf (Store (F ++ [Tag k nm a cs] ++ G) m) →
  append_str k s (Store (F ++ [Tag k nm a cs] ++ G) m)
  = Ok ((), Store (F ++ [Tag k nm a (cs ++ [NavigableString m PlainString s])]
                     ++ G) (S m)).
Proof.
  intros Hwf. pose proof (wf_fresh _ 0 Hwf) as Hm. simpl in Hm.
  rewrite Nat.add_0_r in Hm.
  pose proof Hwf as [Hnd _]. cbn [objects] in Hnd.
  assert (Tag k nm a cs ∈ F ++ [Tag k nm a cs] ++ G) as Hin.
  { apply elem_of_app. right. by left. }
  assert (k ≠ m) as Hkm.
  { intros ->. apply Hm. eapply ids_subseteq_oids; [exact Hin|].
    rewrite ids_Tag. by left. }
  unfold append_str.
  erewrite bind_run by apply new_string_run. cbn [objects next_oid].
  erewrite (append_parentless _ _ _ (Tag k nm a cs)
              (NavigableString m PlainString s)); cbn [objects next_oid].
  - do 3 f_equal.
    rewrite filter_app, filter_roots_fresh by done.
    rewrite filter_cons_False by (simpl; naive_solver).
    rewrite filter_nil, app_nil_r.
    rewrite !oids_app, oids_singleton, ids_Tag in Hnd.
    apply NoDup_app in Hnd as (_ & HdF & Hnd).
    apply NoDup_app in Hnd as (_ & HdG & _).
    rewrite !fmap_app, (update_contents_forest_id _ _ F),
      (update_contents_forest_id _ _ G).
    + rewrite list_fmap_singleton. simpl. rewrite decide_True by done.
      unfold list_insert_at. by rewrite take_ge, drop_ge by lia.
    + apply HdG. by left.
    + intros Hk. eapply HdF; [exact Hk|]. apply elem_of_app. left. by left.
  - done.
  - rewrite deref_app_l.
    + by apply (root_deref (Store (F ++ [Tag k nm a cs] ++ G) m)
                  (Tag k nm a cs)).
    + eapply ids_subseteq_oids; [exact Hin|]. rewrite ids_Tag. by left.
  - rewrite child_oids_app, not_elem_of_app. split.
    + intros Hc. by apply Hm, child_oids_oids.
    + apply not_elem_of_nil.
  - rewrite deref_app_r by done.
    apply (deref_root_self (NavigableString m PlainString s)).
  - rewrite ids_string. by apply not_elem_of_singleton_ne.
Qed.

Lemma edit_remove_first_child c cs (k : oid) nm a :
  oid_of c ∉ cs ≫= ids →
  edit (at_oid (oid_of c) []) (Tag k nm a (c :: cs)) = Tag k nm a cs.
Proof.
  intros Hc. rewrite edit_Tag, bind_cons. unfold edited at 1, at_oid at 1.
  rewrite decide_True by done. by rewrite edited_at_absent.
Qed.

(** Extracting, one by one, the children of a parentless tag. *)
Lemma clear_loop F (k : oid) nm a cs G (m : oid) :
  wf (Store (F ++ [Tag k nm a cs] ++ G) m) →
  for_each (oid_of <$> cs) extract (Store (F ++ [Tag k nm a cs] ++ G) m)
  = Ok ((), Store (F ++ [Tag k nm a []] ++ G ++ cs) m).
Proof.
  revert G. induction cs as [|c cs IH]; intros G Hwf.
  - by rewrite app_nil_r.
  - rewrite fmap_cons. cbn [for_each].
    pose proof Hwf as [Hnd _]. cbn [objects] in Hnd.
    rewrite !oids_app, oids_singleton, ids_Tag, bind_cons in Hnd.
    apply NoDup_app in Hnd as (_ & HdF & Hnd).
    apply NoDup_app in Hnd as (Hndk & HdG & _).
    apply NoDup_cons in Hndk as [Hk Hndk].
    apply NoDup_app in Hndk as (_ & Hdc & _).
    assert (oid_of c ∈ child_oids (F ++ [Tag k nm a (c :: cs)] ++ G)) as Hc.
    { rewrite !child_oids_app. apply elem_of_app. right.
      apply elem_of_app. left. rewrite child_oids_cons.
      apply elem_of_app. left. rewrite tree_child_oids_Tag.
      apply elem_of_app. left. by left. }
    destruct (extract_child _ _ Hwf Hc) as (E & HE & Hrun).
    cbn [objects next_oid] in *.
    assert (E = c) as ->.
    { pose proof (deref_unique (F ++ [Tag k nm a (c :: cs)] ++ G) c
                    (proj1 Hwf)) as Hu.
      rewrite Hu in HE; [congruence|].
      eapply (all_nodes_closed _ _ (Tag k nm a (c :: cs))).
      - apply root_in_all_nodes. apply elem_of_app. right. by left.
      - apply descendants_subtree, child_descendant. by left. }
    assert (oid_of c ∈ k :: ids c ++ cs ≫= ids) as Hcin.
    { right. apply elem_of_app. left. apply oid_in_ids. }
    assert ((edit (at_oid (oid_of c) []) <$> F ++ [Tag k nm a (c :: cs)] ++ G)
              ++ [c]
            = F ++ [Tag k nm a cs] ++ (G ++ [c])) as Heq.
    { rewrite !fmap_app, edit_forest_absent.
      2:{ intros Hin. eapply HdF; [exact Hin|]. apply elem_of_app. by left. }
      rewrite (edit_forest_absent _ _ G).
      2:{ by apply HdG. }
      rewrite <-!(assoc (++)). f_equal.
      rewrite list_fmap_singleton, edit_remove_first_child; [done|].
      apply Hdc, oid_in_ids. }
    rewrite Heq in Hrun. erewrite bind_run by exact Hrun.
    rewrite IH.
    + by rewrite <-!(assoc (++)).
    + destruct (extract_wf _ _ _ _ Hwf Hrun) as (Hwf' & _). done.
Qed.

Lemma diff_elements_present σ o n O i nm a cs :
  wf σ →
  deref o (objects σ) = Some O →
  deref n (objects σ) = Some (Tag i nm a cs) →
  ∃ σ' j,
    _diff_elements (Some o) (Some n) σ = Ok (Element (next_oid σ), σ')
    ∧ deref (next_oid σ) (objects σ')
      = Some (Tag (next_oid σ) nm a
                [NavigableString j PlainString
                   (htmldiff (py_str O) (py_str (Tag i nm a cs)))])
    ∧ deref n (objects σ') = Some (Tag i nm a cs)
    ∧ next_oid σ ∉ oids (objects σ).
Proof.
  intros Hwf HO HN. destruct σ as [F k]. cbn [objects next_oid] in *.
  pose proof (wf_fresh _ 0 Hwf) as Hk. simpl in Hk.
  rewrite Nat.add_0_r in Hk.
  pose proof (relabel_spec (Tag i nm a cs) k) as (Hids & Hlt & _).
  rewrite relabel_Tag in Hids, Hlt.
  destruct (relabel_list cs (S k)) as [cs' m] eqn:Hr. cbn [fst snd] in *.
  assert (wf (Store (F ++ [Tag k nm a cs']) m)) as Hwf1.
  { eapply wf_alloc; [done|done|lia]. }
  assert (copy n (Store F k) = Ok (k, Store (F ++ [Tag k nm a cs']) m))
    as Hcopy.
  { unfold copy. erewrite bind_run by (by apply get_deref).
    cbn [next_oid objects]. by rewrite relabel_Tag, Hr. }
  assert (clear k (Store (F ++ [Tag k nm a cs']) m)
          = Ok ((), Store (F ++ [Tag k nm a []] ++ cs') m)) as Hclear.
  { unfold clear. erewrite bind_run.
    2:{ apply get_deref. cbn [objects]. rewrite deref_app_r by done.
        apply (deref_root_self (Tag k nm a cs')). }
    cbn [contents_of].
    pose proof (clear_loop F k nm a cs' [] m) as Hloop.
    rewrite !app_nil_r in Hloop. rewrite Hloop; [|done].
    by rewrite app_nil_l. }
  assert (wf (Store (F ++ [Tag k nm a []] ++ cs') m)) as Hwf2.
  { eapply wf_perm; [|exact Hwf1].
    rewrite !oids_app, !oids_singleton, !ids_Tag, (oids_bind cs').
    simpl. done. }
  set (s := htmldiff (py_str O) (py_str (Tag i nm a cs))).
  assert (append_str k s (Store (F ++ [Tag k nm a []] ++ cs') m)
          = Ok ((), Store (F ++ [Tag k nm a [NavigableString m PlainString s]]
                             ++ cs') (S m))) as Happ.
  { by rewrite (append_str_root F cs' k nm a [] s m Hwf2). }
  exists (Store (F ++ [Tag k nm a [NavigableString m PlainString s]] ++ cs')
            (S m)), m.
  split_and!.
  - unfold _diff_elements.
    erewrite bind_run by exact Hcopy.
    erewrite bind_run by exact Hclear.
    erewrite bind_run.
    2:{ apply get_deref. cbn [objects]. rewrite deref_app_l; [done|].
        apply deref_Some in HO as [HO <-]. apply elem_of_oids. eauto. }
    erewrite bind_run.
    2:{ apply get_deref. cbn [objects]. rewrite deref_app_l; [done|].
        apply deref_Some in HN as [HN <-]. apply elem_of_oids. eauto. }
    by erewrite bind_run by exact Happ.
  - cbn [objects]. rewrite deref_app_r by done.
    rewrite deref_app_l by (rewrite oids_singleton, ids_Tag; by left).
    apply (deref_root_self (Tag k nm a [NavigableString m PlainString s])).
  - cbn [objects]. rewrite deref_app_l; [done|].
    apply deref_Some in HN as [HN <-]. apply elem_of_oids. eauto.
  - done.
Qed.


End DiffElements.

(** ** Shielding and restoring *)

Section Roundtrip.
Implicit Types (σ : store) (F G D : list node) (t n c : node).
Implicit Types (m : gmap oid node).

Lemma edit_map_id m t :
  (∀ i, i ∈ tree_child_oids t → m !! i = None) → edit_map m t = t.
Proof.
  intros Hm. apply edit_id. intros i Hi. by rewrite Hm.
Qed.

Lemma edit_map_empty t : edit_map ∅ t = t.
Proof. apply edit_map_id. intros i _. apply lookup_empty. Qed.

Lemma edit_map_oid m t : oid_of (edit_map m t) = oid_of t.
Proof. apply edit_oid. Qed.

Lemma edit_map_Tag m i nm a cs :
  edit_map m (Tag i nm a cs)
  = Tag i nm a (cs ≫= edited (λ i, (λ r, [r]) <$> m !! i)).
Proof. done. Qed.

Lemma edited_map_Some m c Q :
  m !! oid_of c = Some Q → edited (λ i, (λ r, [r]) <$> m !! i) c = [Q].
Proof. unfold edited. by intros ->. Qed.

Lemma edited_map_None m c :
  m !! oid_of c = None →
  edited (λ i, (λ r, [r]) <$> m !! i) c = [edit_map m c].
Proof. unfold edited. by intros ->. Qed.

Lemma edited_at_eq e l c : oid_of c = e → edited (at_oid e l) c = l.
Proof. intros. unfold edited, at_oid. by rewrite decide_True. Qed.

Lemma edited_at_ne e l c :
  oid_of c ≠ e → edited (at_oid e l) c = [edit (at_oid e l) c].
Proof. intros. unfold edited, at_oid. by rewrite decide_False. Qed.

(** One more replacement on top of those of [m]. *)
Lemma edit_at_edit_map e P m t :
  m !! e = None →
  (∀ i Q, m !! i = Some Q → oid_of Q ≠ e ∧ e ∉ tree_child_oids Q) →
  edit (at_oid e [P]) (edit_map m t) = edit_map (<[e := P]> m) t.
Proof.
  intros He Hm.
  induction t as [i nm a cs IH|i k s] using node_ind'; [|done].
  rewrite !edit_map_Tag, edit_Tag. f_equal.
  rewrite bind_bind. apply Forall_bind_ext.
  rewrite Forall_forall in IH |- *. intros c Hc.
  destruct (m !! oid_of c) as [Q|] eqn:HQ.
  - destruct (Hm _ _ HQ) as [HQe HQc].
    rewrite (edited_map_Some m c Q) by done.
    rewrite (edited_map_Some _ c Q).
    2:{ rewrite lookup_insert_ne; [done|]. intros ->. congruence. }
    rewrite bind_singleton, edited_at_ne by done.
    by rewrite edit_at_absent.
  - rewrite (edited_map_None m c) by done. rewrite bind_singleton.
    destruct (decide (oid_of c = e)) as [Hce|Hne].
    + rewrite edited_at_eq by (by rewrite edit_map_oid).
      rewrite (edited_map_Some _ c P); [done|].
      by rewrite Hce, lookup_insert_eq.
    + rewrite edited_at_ne by (by rewrite edit_map_oid).
      rewrite (edited_map_None _ c) by (by rewrite lookup_insert_ne).
      f_equal. by apply IH.
Qed.

(** The original put back in the place of its placeholder. *)
Lemma edit_at_edit_map_delete e P E m t :
  m !! e = Some P →
  (∀ c, c ∈ descendants t → oid_of c = e → c = E) →
  (∀ c, c ∈ descendants t → oid_of c ≠ oid_of P) →
  edit_map (delete e m) E = E →
  (∀ i Q, m !! i = Some Q → i ≠ e →
          oid_of Q ≠ oid_of P ∧ oid_of P ∉ tree_child_oids Q) →
  edit (at_oid (oid_of P) [E]) (edit_map m t) = edit_map (delete e m) t.
Proof.
  intros He HE Hp HmE Hm. revert HE Hp.
  induction t as [i nm a cs IH|i k s] using node_ind'; [|done].
  intros HE Hp. rewrite !edit_map_Tag, edit_Tag. f_equal.
  rewrite bind_bind. apply Forall_bind_ext.
  rewrite Forall_forall in IH |- *. intros c Hc.
  assert (c ∈ descendants (Tag i nm a cs)) as Hcd
    by by apply (child_descendant c (Tag i nm a cs)).
  destruct (decide (oid_of c = e)) as [Hce|Hce].
  - rewrite (edited_map_Some m c P) by (by rewrite Hce).
    rewrite (edited_map_None _ c) by (by rewrite Hce, lookup_delete_eq).
    rewrite bind_singleton, edited_at_eq by done.
    by rewrite (HE c Hcd Hce), HmE.
  - destruct (m !! oid_of c) as [Q|] eqn:HQ.
    + destruct (Hm _ _ HQ Hce) as [HQe HQc].
      rewrite (edited_map_Some m c Q) by done.
      rewrite (edited_map_Some _ c Q) by (by rewrite lookup_delete_ne).
      rewrite bind_singleton, edited_at_ne by done.
      by rewrite edit_at_absent.
    + rewrite (edited_map_None m c) by done.
      rewrite (edited_map_None _ c) by (by rewrite lookup_delete_ne).
      rewrite bind_singleton, edited_at_ne
        by (rewrite edit_map_oid; by apply Hp).
      f_equal. apply IH; [done|..].
      * intros d Hd. apply HE. apply list_elem_of_bind. exists c.
        split; [by apply descendants_subtree|done].
      * intros d Hd. apply Hp. apply list_elem_of_bind. exists c.
        split; [by apply descendants_subtree|done].
Qed.

Lemma descendants_trans d c t :
  d ∈ descendants c → c ∈ descendants t → d ∈ descendants t.
Proof.
  intros Hd Hc. unfold descendants in Hc |- *.
  apply list_elem_of_bind in Hc as (c0 & Hc & Hc0).
  apply list_elem_of_bind. exists c0. split; [|done].
  eapply subtree_nodes_trans; [|exact Hc]. by apply descendants_subtree.
Qed.

Lemma descendants_child d c t :
  d ∈ descendants c → c ∈ contents_of t → d ∈ descendants t.
Proof.
  intros Hd Hc. eapply descendants_trans; [done|]. by apply child_descendant.
Qed.

(** An object that lies under no replaced child, and holds none, is
    still there after the edit. *)
Lemma edit_map_descendant m t n :
  n ∈ descendants t →
  (∀ c, c ∈ descendants t → is_Some (m !! oid_of c) → n ∉ subtree_nodes c) →
  edit_map m n = n →
  n ∈ descendants (edit_map m t).
Proof.
  intros Hn Hm Hnn. revert Hn Hm.
  induction t as [i nm a cs IH|i k s] using node_ind'.
  2:{ by intros []%elem_of_nil. }
  intros Hn Hm. rewrite edit_map_Tag.
  unfold descendants in Hn. cbn [contents_of] in Hn.
  apply list_elem_of_bind in Hn as (c & Hn & Hc).
  assert (c ∈ descendants (Tag i nm a cs)) as Hcd
    by by apply (child_descendant c (Tag i nm a cs)).
  destruct (m !! oid_of c) as [Q|] eqn:HQ.
  { exfalso. by eapply (Hm c Hcd). }
  unfold descendants at 1. cbn [contents_of].
  rewrite bind_bind. apply list_elem_of_bind. exists c. split; [|done].
  rewrite (edited_map_None m c) by done. rewrite bind_singleton.
  rewrite subtree_nodes_unfold in Hn.
  apply elem_of_cons in Hn as [->|Hn].
  - rewrite Hnn. apply subtree_nodes_self.
  - apply descendants_subtree. rewrite Forall_forall in IH.
    apply IH; [done|done|].
    intros d Hd. apply Hm. by eapply descendants_child.
Qed.

Lemma filter_bind {A B} (P : B → Prop) `{!∀ x, Decision (P x)}
    (f : A → list B) (l : list A) :
  filter P (l ≫= f) = l ≫= λ x, filter P (f x).
Proof.
  induction l as [|x l IH]; [done|].
  by rewrite !bind_cons, filter_app, IH.
Qed.

Lemma omap_bind {A B C} (g : B → option C) (f : A → list B) (l : list A) :
  omap g (l ≫= f) = l ≫= λ x, omap g (f x).
Proof.
  induction l as [|x l IH]; [done|].
  by rewrite !bind_cons, omap_app, IH.
Qed.

Lemma filter_none {A} (P : A → Prop) `{!∀ x, Decision (P x)} (l : list A) :
  (∀ x, x ∈ l → ¬ P x) → filter P l = [].
Proof.
  induction l as [|x l IH]; intros Hl; [done|].
  rewrite filter_cons_False by (apply Hl; by left).
  apply IH. intros y Hy. apply Hl. by right.
Qed.

(** The elements carrying the marker after shielding are the
    placeholders of the shielded elements, in document order. *)
Lemma select_edit_map m t :
  (∀ c, c ∈ descendants t → lookup_attr ATTR (attrs_of c) = None) →
  (∀ c, c ∈ descendants t → name_in UNDIFFABLE c →
        ∀ d, d ∈ descendants c → ¬ name_in UNDIFFABLE d) →
  (∀ c, c ∈ descendants t → name_in UNDIFFABLE c →
        ∃ k nm id, m !! oid_of c = Some (placeholder k nm id)) →
  (∀ c, c ∈ descendants t → ¬ name_in UNDIFFABLE c →
        m !! oid_of c = None) →
  filter (λ n, is_Some (lookup_attr ATTR (attrs_of n)))
    (descendants (edit_map m t))
  = omap (λ c, m !! oid_of c)
      (filter (λ n, name_in UNDIFFABLE n) (descendants t)).
Proof.
  induction t as [i nm a cs IH|i k s] using node_ind'; [|done].
  intros Hattr Hnest Hin Hout. rewrite edit_map_Tag.
  unfold descendants. cbn [contents_of].
  rewrite bind_bind, !filter_bind, omap_bind.
  apply Forall_bind_ext. rewrite Forall_forall in IH |- *. intros c Hc.
  assert (c ∈ descendants (Tag i nm a cs)) as Hcd
    by by apply (child_descendant c (Tag i nm a cs)).
  rewrite (subtree_nodes_unfold c).
  destruct (name_in UNDIFFABLE c) eqn:Hname.
  - destruct (Hin c Hcd) as (k & nm' & id & HQ); [by rewrite Hname|].
    rewrite (edited_map_Some m c _ HQ), bind_singleton.
    rewrite filter_cons_True by (by rewrite Hname).
    rewrite (filter_none _ (descendants c)).
    2:{ intros d Hd. eapply Hnest; [exact Hcd|by rewrite Hname|done]. }
    simpl. rewrite HQ. unfold placeholder. simpl.
    rewrite filter_cons_True by (by eexists).
    rewrite filter_cons_False; [done|]. simpl. by intros [? [=]].
  - assert (¬ name_in UNDIFFABLE c) as Hname' by (rewrite Hname; exact id).
    rewrite (edited_map_None m c) by (by apply Hout).
    rewrite bind_singleton, subtree_nodes_unfold.
    rewrite filter_cons_False.
    2:{ unfold edit_map. rewrite edit_attrs, (Hattr c Hcd). by intros [? [=]]. }
    rewrite filter_cons_False by done.
    apply IH; [done|..].
    + intros d Hd. apply Hattr. by eapply descendants_child.
    + intros d Hd. apply Hnest. by eapply descendants_child.
    + intros d Hd. apply Hin. by eapply descendants_child.
    + intros d Hd. apply Hout. by eapply descendants_child.
Qed.

Lemma replacement_id_inj prefix : Inj (=) (=) (replacement_id prefix).
Proof.
  intros i j Heq. unfold replacement_id in Heq.
  apply String.app_inj in Heq. apply String.app_inj in Heq.
  by apply pretty_nat_inj in Heq.
Qed.

Lemma tree_child_oid_descendant i t :
  i ∈ tree_child_oids t → ∃ d, d ∈ descendants t ∧ oid_of d = i.
Proof.
  unfold tree_child_oids. intros (n & Hi & Hn)%list_elem_of_bind.
  unfold child_ids in Hi. apply list_elem_of_fmap in Hi as (d & -> & Hd).
  exists d. split; [|done].
  rewrite subtree_nodes_unfold in Hn. apply elem_of_cons in Hn as [->|Hn].
  - by apply child_descendant.
  - eapply descendants_trans; [|exact Hn]. by apply child_descendant.
Qed.

Section Pass.
Variables (prefix : string) (F0 : list node) (k0 : oid) (T : node).
Variable ns : list node.
Hypothesis Hwf0 : wf (Store F0 k0).
Hypothesis HT : T ∈ F0.
Hypothesis Hns :
  filter (λ n, name_in UNDIFFABLE n) (descendants T) = ns.
Hypothesis Hattr :
  ∀ c, c ∈ descendants T → lookup_attr ATTR (attrs_of c) = None.
Hypothesis Hnest :
  ∀ c, c ∈ descendants T → name_in UNDIFFABLE c →
       ∀ d, d ∈ descendants c → ¬ name_in UNDIFFABLE d.

Local Abbreviation covers := (covers k0 prefix ns).
Local Abbreviation P_of := (placeholder_of k0 prefix).

Lemma ns_descendant i n :
  ns !! i = Some n → n ∈ descendants T ∧ name_in UNDIFFABLE n.
Proof using Hns.
  intros Hi%list_elem_of_lookup_2. rewrite <-Hns in Hi.
  apply list_elem_of_filter in Hi. naive_solver.
Qed.

Lemma descendant_all_nodes c : c ∈ descendants T → c ∈ all_nodes F0.
Proof using HT.
  intros Hc. eapply all_nodes_closed; [by apply root_in_all_nodes|].
  by apply descendants_subtree.
Qed.

Lemma descendant_bound c : c ∈ descendants T → oid_of c < k0.
Proof using HT Hwf0.
  intros Hc%descendant_all_nodes. apply (wf_bound _ _ Hwf0).
  apply elem_of_oids. eauto.
Qed.

Lemma descendant_unique c d :
  c ∈ descendants T → d ∈ descendants T → oid_of c = oid_of d → c = d.
Proof using HT Hwf0.
  intros Hc%descendant_all_nodes Hd%descendant_all_nodes.
  by apply (node_unique F0); [apply Hwf0|..].
Qed.

Lemma ns_NoDup : NoDup (oid_of <$> ns).
Proof using HT Hwf0 Hns.
  rewrite <-Hns. apply (NoDup_root_descendants F0); [apply Hwf0|done].
Qed.

Lemma ns_inj i j n n' :
  ns !! i = Some n → ns !! j = Some n' → oid_of n = oid_of n' → i = j.
Proof using HT Hwf0 Hns.
  intros Hi Hj Heq. eapply NoDup_lookup; [apply ns_NoDup|..].
  - by rewrite list_lookup_fmap, Hi.
  - by rewrite list_lookup_fmap, Hj, Heq.
Qed.

Lemma ns_not_nested i j n n' :
  ns !! i = Some n → ns !! j = Some n' → n' ∉ descendants n.
Proof using Hns Hnest.
  intros [Hn Hname]%ns_descendant [Hn' Hname']%ns_descendant Hin.
  by eapply (Hnest n Hn Hname n' Hin).
Qed.

Lemma covers_key lo hi m c Q :
  covers lo hi m → c ∈ descendants T → m !! oid_of c = Some Q →
  ∃ i, ns !! i = Some c ∧ lo ≤ i < hi ∧ Q = P_of i c.
Proof using HT Hwf0 Hns.
  intros [_ Hkeys] Hc HQ.
  destruct (Hkeys _ _ HQ) as (i & n & Hi & Hlt & Hoid & ->).
  destruct (ns_descendant _ _ Hi) as [Hn _].
  assert (n = c) as -> by by apply descendant_unique.
  eauto.
Qed.

(** A shielded element holds no key of a covering map. *)
Lemma covers_clean lo hi m i n :
  covers lo hi m → ns !! i = Some n → edit_map m n = n.
Proof using HT Hwf0 Hns Hnest.
  intros Hcov Hi. apply edit_map_id. intros e He.
  destruct (m !! e) as [Q|] eqn:HQ; [|done]. exfalso.
  apply tree_child_oid_descendant in He as (d & Hd & <-).
  destruct (ns_descendant _ _ Hi) as [Hn Hname].
  assert (d ∈ descendants T) as HdT by by eapply descendants_trans.
  destruct (covers_key _ _ _ _ _ Hcov HdT HQ) as (j & Hj & _).
  by apply (ns_not_nested i j n d Hi Hj).
Qed.

(** A shielded element not yet replaced is still in the document. *)
Lemma covers_member lo hi m i n :
  covers lo hi m → ns !! i = Some n → ¬ (lo ≤ i < hi) →
  n ∈ descendants (edit_map m T).
Proof using HT Hwf0 Hns Hnest.
  intros Hcov Hi Hout. destruct (ns_descendant _ _ Hi) as [Hn Hname].
  apply edit_map_descendant; [done| |by eapply covers_clean].
  intros c Hc [Q HQ] Hin.
  destruct (covers_key _ _ _ _ _ Hcov Hc HQ) as (j & Hj & Hlt & _).
  rewrite subtree_nodes_unfold in Hin.
  apply elem_of_cons in Hin as [->|Hin].
  - assert (i = j) as -> by by eapply ns_inj. done.
  - by apply (ns_not_nested j i c n Hj Hi).
Qed.

Lemma placeholder_of_fresh i n :
  oid_of (P_of i n) = k0 + 2 * i
  ∧ tree_child_oids (P_of i n) = [S (k0 + 2 * i)].
Proof. done. Qed.

(** The shielding loop, from the [j]-th element on. *)
Lemma shield_pass rest :
  ∀ j m tbl,
    drop j ns = rest → j ≤ length ns →
    covers 0 j m → table_covers prefix ns j tbl →
    wf (Store ((edit_map m <$> F0) ++ take j ns) (k0 + 2 * j)) →
    ∃ m' tbl',
      fold_M (shield_step prefix) tbl
        (zip (seq j (length rest)) (oid_of <$> rest))
        (Store ((edit_map m <$> F0) ++ take j ns) (k0 + 2 * j))
      = Ok (tbl', Store ((edit_map m' <$> F0) ++ ns)
                    (k0 + 2 * length ns))
      ∧ covers 0 (length ns) m'
      ∧ table_covers prefix ns (length ns) tbl'
      ∧ wf (Store ((edit_map m' <$> F0) ++ ns) (k0 + 2 * length ns)).
Proof using HT Hwf0 Hns Hnest.
  induction rest as [|n rest IH]; intros j m tbl Hdrop Hj Hcov Htbl Hwf.
  - assert (j = length ns) as ->.
    { apply drop_nil_inv in Hdrop. lia. }
    exists m, tbl. by rewrite take_ge in * by done.
  - assert (ns !! j = Some n) as Hjn.
    { rewrite <-(Nat.add_0_r j), <-lookup_drop. by rewrite Hdrop. }
    assert (drop (S j) ns = rest) as Hdrop'.
    { rewrite (drop_S _ _ _ Hjn) in Hdrop. by injection Hdrop. }
    assert (j < length ns) as Hlt by by eapply lookup_lt_Some.
    destruct (ns_descendant _ _ Hjn) as [HnT Hname].
    set (σ := Store ((edit_map m <$> F0) ++ take j ns) (k0 + 2 * j)) in *.
    assert (edit_map m T ∈ objects σ) as HTσ.
    { apply elem_of_app. left. by apply list_elem_of_fmap_2. }
    assert (n ∈ descendants (edit_map m T)) as Hnin.
    { eapply covers_member; [done..|]. lia. }
    assert (oid_of n ∈ child_oids (objects σ)) as He
      by by eapply root_descendant_child.
    destruct (shield_step_run prefix tbl j (oid_of n) σ Hwf He)
      as (E & HE & Hrun & Hwf' & _ & _).
    assert (E = n) as ->.
    { rewrite deref_unique in HE; [congruence|apply Hwf|].
      eapply all_nodes_closed; [by apply root_in_all_nodes|].
      by apply descendants_subtree. }
    unfold σ in Hrun, Hwf'. cbn [objects next_oid] in Hrun, Hwf'.
    change (placeholder (k0 + 2 * j) (default "" (name_of n))
              (replacement_id prefix j)) with (P_of j n) in Hrun, Hwf'.
    assert (m !! oid_of n = None) as Hmn.
    { destruct (m !! oid_of n) as [Q|] eqn:HQ; [|done].
      destruct (covers_key _ _ _ _ _ Hcov HnT HQ) as (i & Hi & Hi' & _).
      assert (i = j) by by eapply ns_inj. lia. }
    assert ((edit (at_oid (oid_of n) [P_of j n])
               <$> (edit_map m <$> F0) ++ take j ns) ++ [n]
            = (edit_map (<[oid_of n := P_of j n]> m) <$> F0)
                ++ take (S j) ns) as Heq.
    { rewrite (take_S_r _ _ _ Hjn), fmap_app, <-(assoc (++)).
      f_equal; [|f_equal].
      - rewrite <-list_fmap_compose. apply list_fmap_ext.
        intros _ t _. simpl. apply edit_at_edit_map; [done|].
        intros e Q HQ. destruct Hcov as [_ Hkeys].
        destruct (Hkeys _ _ HQ) as (i & c & Hi & Hi' & Hoid & ->).
        destruct (ns_descendant _ _ Hi) as [HcT _].
        pose proof (descendant_bound _ HnT).
        destruct (placeholder_of_fresh i c) as [-> ->].
        split; [lia|]. apply not_elem_of_singleton_ne. lia.
      - rewrite <-(list_fmap_id (take j ns)) at 2. apply list_fmap_ext.
        intros i c Hc. simpl. apply edit_at_absent.
        intros (d & Hd & Hoid)%tree_child_oid_descendant.
        apply lookup_take_Some in Hc as [Hc _].
        destruct (ns_descendant _ _ Hc) as [HcT _].
        assert (d = n) as ->.
        { apply descendant_unique; [|done..].
          by eapply descendants_trans. }
        by apply (ns_not_nested i j c n Hc Hjn). }
    rewrite Heq in Hrun, Hwf'.
    replace (S (S (k0 + 2 * j))) with (k0 + 2 * S j) in Hrun, Hwf' by lia.
    destruct (IH (S j) (<[oid_of n := P_of j n]> m)
                (<[replacement_id prefix j := oid_of n]> tbl))
      as (m' & tbl' & Hrun' & Hcov' & Htbl' & Hwf'');
      [done|lia| | |done|].
    + split.
      * intros i c Hi Hi'. destruct (decide (i = j)) as [->|Hne].
        -- assert (c = n) as -> by congruence.
           by rewrite lookup_insert_eq.
        -- rewrite lookup_insert_ne.
           ++ apply Hcov; [done|lia].
           ++ intros Heq'. apply Hne. symmetry. by eapply ns_inj.
      * intros e Q HQ. destruct (decide (e = oid_of n)) as [->|Hne].
        -- rewrite lookup_insert_eq in HQ. injection HQ as <-.
           exists j, n. split_and!; try done; lia.
        -- rewrite lookup_insert_ne in HQ by done.
           destruct Hcov as [_ Hkeys].
           destruct (Hkeys _ _ HQ) as (i & c & ? & ? & ? & ?).
           exists i, c. split_and!; try done; lia.
    + intros i c Hi Hi'. destruct (decide (i = j)) as [->|Hne].
      * assert (c = n) as -> by congruence. by rewrite lookup_insert_eq.
      * rewrite lookup_insert_ne.
        -- apply Htbl; [done|lia].
        -- intros Heq'%replacement_id_inj. done.
    + exists m', tbl'. split_and!; [|done..].
      cbn [length fmap list_fmap seq]. simpl zip.
      cbn [fold_M]. erewrite bind_run by exact Hrun. exact Hrun'.
Qed.

Lemma covers_none lo hi m e : covers lo hi m → hi ≤ lo → m !! e = None.
Proof.
  intros [_ Hkeys] Hle. destruct (m !! e) as [Q|] eqn:HQ; [|done].
  destruct (Hkeys _ _ HQ) as (i & n & _ & Hi & _). lia.
Qed.

Lemma covers_delete j hi m n :
  ns !! j = Some n → covers j hi m → covers (S j) hi (delete (oid_of n) m).
Proof using HT Hwf0 Hns.
  intros Hj [Hin Hkeys]. split.
  - intros i c Hi Hi'. rewrite lookup_delete_ne.
    + apply Hin; [done|lia].
    + intros Heq. assert (j = i) by by eapply ns_inj. lia.
  - intros e Q HQ. destruct (decide (e = oid_of n)) as [->|Hne].
    { by rewrite lookup_delete_eq in HQ. }
    rewrite lookup_delete_ne in HQ by done.
    destruct (Hkeys _ _ HQ) as (i & c & Hi & Hi' & Hoid & ->).
    exists i, c. split_and!; try done; [|lia].
    destruct (decide (i = j)) as [->|]; [|lia].
    assert (c = n) as -> by congruence. done.
Qed.

(** The placeholder of a shielded element still shielded is in the
    document. *)
Lemma covers_placeholder lo hi m i n :
  covers lo hi m → ns !! i = Some n → lo ≤ i < hi →
  P_of i n ∈ descendants (edit_map m T).
Proof using HT Hwf0 Hns Hnest.
  intros Hcov Hi Hlt. destruct (ns_descendant _ _ Hi) as [Hn Hname].
  assert (m !! oid_of n = Some (P_of i n)) as HQ by by apply Hcov.
  assert (∀ c, c ∈ descendants T → is_Some (m !! oid_of c) →
               n ∉ descendants c) as Htop.
  { intros c Hc [Q HQ'] Hin.
    destruct (covers_key _ _ _ _ _ Hcov Hc HQ') as (j & Hj & _).
    by apply (ns_not_nested j i c n Hj Hi). }
  clear Hn Hname Hattr Hnest Hcov. revert Htop.
  assert (n ∈ descendants T) as Hn
    by (by destruct (ns_descendant _ _ Hi)).
  revert Hn. generalize T. clear HT Hns.
  intros t. induction t as [i' nm a cs IH|i' k s] using node_ind'.
  2:{ by intros []%elem_of_nil. }
  intros Hn Htop. rewrite edit_map_Tag.
  unfold descendants in Hn. cbn [contents_of] in Hn.
  apply list_elem_of_bind in Hn as (c & Hn & Hc).
  assert (c ∈ descendants (Tag i' nm a cs)) as Hcd
    by by apply (child_descendant c (Tag i' nm a cs)).
  unfold descendants at 1. cbn [contents_of].
  rewrite bind_bind. apply list_elem_of_bind. exists c. split; [|done].
  rewrite subtree_nodes_unfold in Hn.
  apply elem_of_cons in Hn as [->|Hn].
  - rewrite (edited_map_Some m c _ HQ), bind_singleton.
    apply subtree_nodes_self.
  - destruct (m !! oid_of c) as [Q|] eqn:HQc.
    { exfalso. by eapply (Htop c Hcd). }
    rewrite (edited_map_None m c) by done. rewrite bind_singleton.
    apply descendants_subtree. rewrite Forall_forall in IH.
    apply IH; [done|done|].
    intros d Hd. apply Htop. by eapply descendants_child.
Qed.

(** The restoring loop, from the [j]-th placeholder on. *)
Lemma unshield_pass tbl K rest :
  table_covers prefix ns (length ns) tbl →
  ∀ j m,
    drop j ns = rest →
    covers j (length ns) m →
    wf (Store ((edit_map m <$> F0) ++ rest ++ imap P_of (take j ns)) K) →
    for_each ((λ i, k0 + 2 * i) <$> seq j (length rest))
      (unshield_step tbl)
      (Store ((edit_map m <$> F0) ++ rest ++ imap P_of (take j ns)) K)
    = Ok ((), Store (F0 ++ imap P_of ns) K)
    ∧ wf (Store (F0 ++ imap P_of ns) K).
Proof using HT Hwf0 Hns Hnest.
  intros Htbl.
  induction rest as [|n rest IH]; intros j m Hdrop Hcov Hwf.
  - assert (length ns ≤ j) as Hj by by apply drop_nil_inv.
    rewrite take_ge in * by done.
    assert (edit_map m <$> F0 = F0) as Hid.
    { rewrite <-(list_fmap_id F0) at 2. apply list_fmap_ext.
      intros _ t _. simpl. apply edit_map_id. intros e _.
      by eapply covers_none. }
    rewrite Hid in *. done.
  - assert (ns !! j = Some n) as Hjn.
    { rewrite <-(Nat.add_0_r j), <-lookup_drop. by rewrite Hdrop. }
    assert (drop (S j) ns = rest) as Hdrop'.
    { rewrite (drop_S _ _ _ Hjn) in Hdrop. by injection Hdrop. }
    assert (j < length ns) as Hlt by by eapply lookup_lt_Some.
    destruct (ns_descendant _ _ Hjn) as [HnT Hname].
    pose proof (descendant_bound _ HnT) as Hnb.
    set (σ := Store ((edit_map m <$> F0) ++ (n :: rest)
                       ++ imap P_of (take j ns)) K) in *.
    assert (edit_map m T ∈ objects σ) as HTσ.
    { apply elem_of_app. left. by apply list_elem_of_fmap_2. }
    assert (P_of j n ∈ descendants (edit_map m T)) as HPin.
    { eapply covers_placeholder; [done..|]. lia. }
    assert (k0 + 2 * j ∈ child_oids (objects σ)) as He.
    { change (k0 + 2 * j) with (oid_of (P_of j n)).
      by eapply root_descendant_child. }
    assert (n ∈ objects σ) as Hnσ.
    { apply elem_of_app. right. apply elem_of_app. left. by left. }
    assert (k0 + 2 * j ∉ tree_child_oids n) as HeR.
    { intros (d & Hd & Hoid)%tree_child_oid_descendant.
      assert (d ∈ descendants T) as HdT by by eapply descendants_trans.
      pose proof (descendant_bound _ HdT). lia. }
    destruct (replace_with_parentless σ (k0 + 2 * j) (oid_of n) n
                Hwf He Hnσ eq_refl) as (E & HE & Hrun); [lia|done|].
    assert (E = P_of j n) as ->.
    { change (k0 + 2 * j) with (oid_of (P_of j n)) in HE.
      rewrite deref_unique in HE; [congruence|apply Hwf|].
      apply (all_nodes_closed _ _ (edit_map m T));
        [by apply root_in_all_nodes|].
      by apply descendants_subtree. }
    destruct (replace_store_wf σ (k0 + 2 * j) n (P_of j n)
                Hwf He HE Hnσ) as (Hwf' & _ & _); [lia|done|].
    assert (get (oid_of n) σ = Ok (n, σ)) as Hget.
    { apply get_deref. by apply root_deref. }
    assert (truthy n = true) as Htruthy.
    { destruct n; [done|]. by exfalso. }
    assert ((edit (at_oid (k0 + 2 * j) [n])
               <$> filter (λ t, oid_of t ≠ oid_of n) (objects σ))
              ++ [P_of j n]
            = (edit_map (delete (oid_of n) m) <$> F0) ++ rest
                ++ imap P_of (take (S j) ns)) as Heq.
    { pose proof (proj1 Hwf) as Hnd. unfold σ in Hnd |- *.
      cbn [objects] in Hnd |- *.
      rewrite !oids_app, oids_cons in Hnd.
      apply NoDup_app in Hnd as (_ & HdA & Hnd).
      apply NoDup_app in Hnd as (Hnd & Hdn & _).
      apply NoDup_app in Hnd as (_ & Hdn' & _).
      pose proof (oid_in_ids n) as Hnn.
      assert (oid_of n ∉ oids (edit_map m <$> F0)) as H1.
      { intros Hin. apply (HdA _ Hin). apply elem_of_app. left.
        apply elem_of_app. by left. }
      assert (oid_of n ∉ oids rest) as H2 by by apply Hdn'.
      assert (oid_of n ∉ oids (imap P_of (take j ns))) as H3.
      { apply Hdn. apply elem_of_app. by left. }
      rewrite !filter_app, filter_cons_False by (by intros []).
      rewrite !filter_roots_fresh by done.
      rewrite (take_S_r _ _ _ Hjn), imap_app, !fmap_app.
      rewrite <-!(assoc (++)). f_equal; [|f_equal; [|f_equal]].
      - rewrite <-list_fmap_compose. apply list_fmap_ext.
        intros _ t Ht%list_elem_of_lookup_2. simpl.
        apply (edit_at_edit_map_delete (oid_of n) (P_of j n) n).
        + apply Hcov; [done|lia].
        + intros c Hc Hoid. apply (node_unique F0); [apply Hwf0| |
            by apply descendant_all_nodes|done].
          eapply all_nodes_closed; [by apply root_in_all_nodes|].
          by apply descendants_subtree.
        + intros c Hc.
          assert (oid_of c < k0); [|simpl; lia].
          apply (wf_bound _ _ Hwf0), elem_of_oids. exists c.
          split; [|done].
          eapply all_nodes_closed; [by apply root_in_all_nodes|].
          by apply descendants_subtree.
        + eapply covers_clean; [by eapply covers_delete|done].
        + intros i Q HQ Hne. destruct Hcov as [_ Hkeys].
          destruct (Hkeys _ _ HQ) as (i' & c & Hi & Hi' & Hoid & ->).
          destruct (placeholder_of_fresh i' c) as [-> ->].
          destruct (placeholder_of_fresh j n) as [-> _].
          assert (i' ≠ j).
          { intros ->. apply Hne. rewrite <-Hoid. congruence. }
          split; [lia|]. apply not_elem_of_singleton_ne. lia.
      - rewrite <-(list_fmap_id rest) at 2. apply list_fmap_ext.
        intros i c Hc. simpl. apply edit_at_absent.
        intros (d & Hd & Hoid)%tree_child_oid_descendant.
        rewrite <-Hdrop', lookup_drop in Hc.
        destruct (ns_descendant _ _ Hc) as [HcT _].
        assert (d ∈ descendants T) as HdT by by eapply descendants_trans.
        pose proof (descendant_bound _ HdT). lia.
      - rewrite <-(list_fmap_id (imap _ _)) at 2. apply list_fmap_ext.
        intros i Q HQ. simpl. apply edit_at_absent.
        rewrite list_lookup_imap in HQ.
        apply fmap_Some in HQ as (c & Hc & ->).
        apply lookup_take_Some in Hc as [Hc Hi].
        destruct (placeholder_of_fresh i c) as [_ ->].
        apply not_elem_of_singleton_ne. lia.
      - simpl. rewrite length_take, Nat.min_l, Nat.add_0_r by lia. done. }
    rewrite Heq in Hrun, Hwf'. cbn [next_oid σ] in Hrun, Hwf'.
    destruct (IH (S j) (delete (oid_of n) m)) as [Hrun' Hwf''];
      [done|by apply covers_delete|exact Hwf'|].
    split; [|done].
    cbn [length seq fmap list_fmap for_each].
    erewrite bind_run; [exact Hrun'|].
    unfold unshield_step, getitem_attr.
    erewrite bind_run.
    2:{ erewrite bind_run by (apply get_deref; exact HE).
        cbn [attrs_of placeholder_of placeholder lookup_attr].
        rewrite decide_True by done. reflexivity. }
    erewrite bind_run.
    2:{ unfold lift, dict_getitem. by rewrite (Htbl j n Hjn Hlt). }
    erewrite bind_run by exact Hget. rewrite Htruthy. exact Hrun.
Qed.

End Pass.

Lemma omap_imap {A B} (f : A → option B) (g : nat → A → B) (l : list A) :
  (∀ i x, l !! i = Some x → f x = Some (g i x)) → omap f l = imap g l.
Proof.
  revert g. induction l as [|x l IH]; intros g Hl; [done|].
  cbn [omap list_omap imap]. rewrite (Hl 0 x eq_refl).
  f_equal. apply IH. intros i y Hi. apply (Hl (S i) y Hi).
Qed.

Lemma placeholder_oids k0 prefix (l : list node) j :
  oid_of <$> imap (λ i, placeholder_of k0 prefix (j + i)) l
  = (λ i, k0 + 2 * i) <$> seq j (length l).
Proof.
  revert j. induction l as [|x l IH]; intros j; [done|].
  cbn [imap length seq fmap list_fmap]. rewrite Nat.add_0_r. f_equal.
  rewrite <-IH. f_equal. apply imap_ext. intros i c _. simpl.
  by rewrite Nat.add_succ_r.
Qed.

(** ** C2, with the two conditions it needs *)

(** C2 (amended): for a well-formed store and a parentless document [T]
    none of whose elements carries the [wm-diff-replacement] attribute
    and none of whose script or style elements holds another one,
    shielding and then restoring with the table the shield produced
    returns, and leaves the document exactly as it was: the same tree,
    every element with the same tag, attributes and content, and no
    element with the marker attribute.  The only new objects are the
    discarded placeholders. *)
Theorem shield_unshield_roundtrip σ soup T prefix :
  wf σ → T ∈ objects σ → oid_of T = soup →
  unmarked T → unnested T →
  ∃ σ',
    shield_unshield soup prefix σ = Ok (soup, σ')
    ∧ deref soup (objects σ') = Some T
    ∧ objects σ'
      = objects σ
          ++ imap (placeholder_of (next_oid σ) prefix)
               (filter (λ n, name_in UNDIFFABLE n) (descendants T))
    ∧ select_attr soup ATTR σ' = Ok ([], σ').
Proof.
  intros Hwf HT <- Hattr Hnest. destruct σ as [F0 k0].
  cbn [objects next_oid] in *.
  unfold unmarked in Hattr. unfold unnested in Hnest.
  rewrite Forall_forall in Hattr.
  assert (∀ c, c ∈ descendants T → name_in UNDIFFABLE c →
               ∀ d, d ∈ descendants c → ¬ name_in UNDIFFABLE d) as Hnest'.
  { rewrite Forall_forall in Hnest. intros c Hc Hname.
    apply Forall_forall. by apply Hnest. }
  clear Hnest.
  set (ns := filter (λ n, name_in UNDIFFABLE n) (descendants T)).
  assert (filter (λ n, name_in UNDIFFABLE n) (descendants T) = ns) as Hns
    by done.
  destruct (shield_pass prefix F0 k0 T ns Hwf HT Hns Hnest' ns 0 ∅ ∅)
    as (m & tbl & Hshield & Hcov & Htbl & Hwf1).
  { done. }
  { lia. }
  { split; [intros; lia|]. intros e Q HQ. by rewrite lookup_empty in HQ. }
  { intros i n _ Hi. lia. }
  { rewrite take_0, app_nil_r, Nat.mul_0_r, Nat.add_0_r.
    replace (edit_map ∅ <$> F0) with F0; [done|].
    rewrite <-(list_fmap_id F0) at 1. apply list_fmap_ext.
    intros _ t _. simpl. by rewrite edit_map_empty. }
  rewrite take_0, app_nil_r, Nat.mul_0_r, Nat.add_0_r in Hshield.
  replace (edit_map ∅ <$> F0) with F0 in Hshield.
  2:{ rewrite <-(list_fmap_id F0) at 1. apply list_fmap_ext.
      intros _ t _. simpl. by rewrite edit_map_empty. }
  set (K := k0 + 2 * length ns) in *.
  destruct (unshield_pass prefix F0 k0 T ns Hwf HT Hns Hnest' tbl K ns
              Htbl 0 m) as [Hunshield Hwf2].
  { done. }
  { done. }
  { by rewrite take_0, app_nil_r. }
  rewrite take_0, app_nil_r in Hunshield.
  exists (Store (F0 ++ imap (placeholder_of k0 prefix) ns) K).
  assert (deref (oid_of T) (F0 ++ imap (placeholder_of k0 prefix) ns)
          = Some T) as Hderef.
  { apply (root_deref _ _ Hwf2). apply elem_of_app. by left. }
  split_and!; [|done|done|].
  - unfold shield_unshield, _remove_undiffable_content, find_all.
    erewrite bind_run.
    2:{ erewrite bind_run.
        2:{ erewrite bind_run by (apply get_deref; by apply root_deref).
            reflexivity. }
        unfold enumerate. rewrite length_fmap.
        change (filter (λ n, name_in ["script"; "style"] n) (descendants T))
          with ns.
        erewrite bind_run by exact Hshield. reflexivity. }
    cbv beta iota. unfold _add_undiffable_content.
    erewrite bind_run.
    2:{ apply select_attr_deref.
        rewrite <-(edit_map_oid m T). apply (root_deref _ _ Hwf1).
        apply elem_of_app. left. by apply list_elem_of_fmap_2. }
    rewrite (select_edit_map m T Hattr Hnest'), Hns.
    + rewrite (omap_imap _ (placeholder_of k0 prefix)).
      2:{ intros i c Hi. apply Hcov; [done|].
          apply lookup_lt_Some in Hi. lia. }
      change (imap (placeholder_of k0 prefix) ns)
        with (imap (λ i, placeholder_of k0 prefix (0 + i)) ns).
      rewrite placeholder_oids.
      by erewrite bind_run by exact Hunshield.
    + intros c Hc Hname.
      assert (c ∈ ns) as [i Hi]%list_elem_of_lookup.
      { unfold ns. apply list_elem_of_filter. by split. }
      eexists _, _, _. apply Hcov; [done|].
      apply lookup_lt_Some in Hi. lia.
    + intros c Hc Hname. destruct (m !! oid_of c) as [Q|] eqn:HQ; [|done].
      destruct (covers_key prefix F0 k0 T ns Hwf HT Hns _ _ _ _ _
                  Hcov Hc HQ) as (i & Hi & _).
      apply list_elem_of_lookup_2 in Hi. unfold ns in Hi.
      apply list_elem_of_filter in Hi as [? _]. done.
  - rewrite (select_attr_deref _ _ _ T) by done. cbn [objects].
    rewrite filter_none; [done|].
    intros c Hc [v Hv]. rewrite (Hattr c Hc) in Hv. done.
Qed.

End Roundtrip.

(** ** Blank lines *)

Section BlankLines.
Implicit Types (s w r h : string) (c : ascii) (p : ascii → bool).

Lemma app_string_cons c w r : String c w +:+ r = String c (w +:+ r).
Proof. done. Qed.

Lemma app_string_nil r : "" +:+ r = r.
Proof. done. Qed.

Lemma length_app_string w r :
  String.length (w +:+ r) = String.length w + String.length r.
Proof.
  induction w as [|c w IH]; [done|].
  rewrite app_string_cons. simpl. by rewrite IH.
Qed.

Lemma app_string_assoc w1 w2 r : (w1 +:+ w2) +:+ r = w1 +:+ (w2 +:+ r).
Proof.
  induction w1 as [|c w1 IH]; [done|].
  by rewrite !app_string_cons, IH.
Qed.

Lemma try_suffixes_first {R} w r (k : string → option R) x :
  k r = Some x → try_suffixes w r k = Some x.
Proof. intros Hk. induction w as [|c w IH]; simpl; [done|by rewrite IH]. Qed.

Lemma try_suffixes_only_last {R} p w r (k : string → option R) :
  all_chars p w →
  (∀ c t, p c → k (String c t) = None) →
  try_suffixes w r k = k r.
Proof.
  intros Hw Hk. induction w as [|c w IH]; simpl in *; [done|].
  apply andb_True in Hw as [Hc Hw]. rewrite IH by done.
  rewrite app_string_cons, (Hk c) by done. by destruct (k r).
Qed.

(** A greedy repetition of one character class consumes the longest run
    first. *)
Lemma star_chars {R} p w r (k : string → option R) budget :
  all_chars p w → stops p r → String.length w ≤ budget →
  star_loop (rmatch (Chars p)) k budget (w +:+ r) = try_suffixes w r k.
Proof.
  revert w. induction budget as [|b IH]; intros w Hw Hr Hb.
  - destruct w; simpl in *; [done|lia].
  - destruct w as [|c w].
    + rewrite app_string_nil. cbn [star_loop try_suffixes].
      destruct r as [|c r]; [done|]. cbn [rmatch]. simpl in Hr.
      apply negb_True in Hr. by destruct (p c).
    + simpl in Hw, Hb. apply andb_True in Hw as [Hc Hw].
      apply Is_true_true in Hc.
      rewrite app_string_cons. cbn [star_loop try_suffixes rmatch].
      rewrite Hc, decide_True by (simpl; lia).
      rewrite IH by (done || lia). done.
Qed.

Lemma rmatch_star_chars {R} p w r (k : string → option R) :
  all_chars p w → stops p r →
  rmatch (Star (Chars p)) (w +:+ r) k = try_suffixes w r k.
Proof.
  intros Hw Hr. simpl. apply star_chars; [done..|].
  rewrite length_app_string. lia.
Qed.

Lemma not_newline_space_isspace c : not_newline_space c → isspace c.
Proof. unfold not_newline_space. by intros [? _]%andb_True. Qed.

Lemma not_newline_space_newline c : not_newline_space c → ¬ is_newline c.
Proof.
  unfold not_newline_space, is_newline. intros [_ Hc]%andb_True.
  by apply negb_True in Hc.
Qed.

Lemma is_newline_isspace c : is_newline c → isspace c.
Proof. unfold is_newline. by intros ->%bool_decide_unpack. Qed.

Lemma isspace_cases c :
  isspace c → is_newline c ∨ not_newline_space c.
Proof.
  intros Hc. unfold not_newline_space, is_newline.
  destruct (bool_decide (c = nl)); [by left|right].
  apply andb_True. by split.
Qed.

(** A run of whitespace is free of line ends or splits at its first one. *)
Lemma whitespace_split w :
  all_chars isspace w →
  (all_chars not_newline_space w ∧ newlines w = 0)
  ∨ ∃ h w1, w = h +:+ String nl w1 ∧ all_chars not_newline_space h
            ∧ all_chars isspace w1 ∧ newlines w = S (newlines w1).
Proof.
  induction w as [|c w IH]; simpl; [by left|].
  intros [Hc Hw]%andb_True.
  destruct (isspace_cases c Hc) as [Hnl|Hh].
  - right. exists "", w. apply Is_true_true in Hnl as Hnl'. rewrite Hnl'.
    unfold is_newline in Hnl. apply bool_decide_unpack in Hnl as ->. done.
  - pose proof (not_newline_space_newline c Hh) as Hn.
    apply Is_true_false in Hn. rewrite Hn. simpl.
    destruct (IH Hw) as [[Hall H0]|(h & w1 & -> & Hh' & Hw1 & HS)].
    + left. split; [|done]. apply andb_True. by split.
    + right. exists (String c h), w1. split_and!; try done.
      simpl. apply andb_True. by split.
Qed.

Lemma stops_isspace_not_newline_space r :
  stops isspace r → stops not_newline_space r.
Proof.
  destruct r as [|c r]; [done|]. simpl. intros Hc%negb_True.
  apply negb_True. intros Hh. by apply Hc, not_newline_space_isspace.
Qed.

(** [LINE_END] first passes over the whitespace before the line end. *)
Lemma rmatch_Cat {R} (rx1 rx2 : regex) s (k : string → option R) :
  rmatch (Cat rx1 rx2) s k = rmatch rx1 s (λ s', rmatch rx2 s' k).
Proof. done. Qed.

Lemma rmatch_LINE_END {R} h r (k : string → option R) :
  all_chars not_newline_space h → stops not_newline_space r →
  rmatch LINE_END (h +:+ r) k
  = rmatch (Cat (Chars is_newline) (Star (Chars isspace))) r k.
Proof.
  intros Hh Hr. unfold LINE_END.
  rewrite rmatch_Cat, rmatch_star_chars by done.
  apply (try_suffixes_only_last not_newline_space h r
           (λ s', rmatch (Cat (Chars is_newline) (Star (Chars isspace)))
                    s' k)); [done|].
  intros c t Hc%not_newline_space_newline. apply Is_true_false in Hc.
  cbn [rmatch]. by rewrite Hc.
Qed.

Lemma rmatch_LINE_END_none {R} w r (k : string → option R) :
  all_chars isspace w → stops isspace r → newlines w = 0 →
  rmatch LINE_END (w +:+ r) k = None.
Proof.
  intros Hw Hr H0.
  destruct (whitespace_split w Hw) as [[Hall _]|(h & w1 & _ & _ & _ & HS)];
    [|lia].
  rewrite rmatch_LINE_END;
    [|done|by apply stops_isspace_not_newline_space].
  destruct r as [|c r]; [done|]. simpl in Hr. apply negb_True in Hr.
  assert (is_newline c = false) as Hc.
  { apply Is_true_false. intros Hc. by apply Hr, is_newline_isspace. }
  cbn [rmatch]. by rewrite Hc.
Qed.

Lemma rmatch_LINE_END_some {R} h w1 r (k : string → option R) :
  all_chars not_newline_space h → all_chars isspace w1 → stops isspace r →
  rmatch LINE_END ((h +:+ String nl w1) +:+ r) k = try_suffixes w1 r k.
Proof.
  intros Hh Hw1 Hr. rewrite app_string_assoc, app_string_cons.
  rewrite rmatch_LINE_END by done.
  exact (rmatch_star_chars isspace w1 r k Hw1 Hr).
Qed.

(** [REPEATED_BLANK_LINES] matches at the start of a text exactly when the
    whitespace the text starts with holds two or more line ends, and then
    it matches all of that whitespace. *)
Lemma re_match_REPEATED_BLANK_LINES w r :
  all_chars isspace w → stops isspace r →
  re_match REPEATED_BLANK_LINES (w +:+ r)
  = if decide (2 ≤ newlines w) then Some r else None.
Proof.
  intros Hw Hr. unfold re_match, REPEATED_BLANK_LINES. cbn [rmatch at_least].
  fold LINE_END.
  set (k3 := λ s2, star_loop (rmatch LINE_END) Some (String.length s2) s2).
  set (k2 := λ s1, rmatch LINE_END s1 k3).
  change (rmatch LINE_END (w +:+ r) k2
          = if decide (2 ≤ newlines w) then Some r else None).
  assert (k3 r = Some r) as Hk3.
  { assert (∀ k : string → option string, rmatch LINE_END r k = None)
      as Hnone by (intros k; exact (rmatch_LINE_END_none "" r k I Hr eq_refl)).
    unfold k3. destruct (String.length r); cbn [star_loop]; [done|].
    by rewrite Hnone. }
  assert (∀ w', all_chars isspace w' →
                k2 (w' +:+ r) = if decide (newlines w' = 0) then None
                                else Some r) as Hk2.
  { intros w' Hw'. unfold k2.
    destruct (whitespace_split w' Hw')
      as [[Hall H0]|(h & w1 & -> & Hh & Hw1 & HS)].
    - rewrite decide_True by done. by apply rmatch_LINE_END_none.
    - rewrite decide_False by lia. rewrite rmatch_LINE_END_some by done.
      by apply try_suffixes_first. }
  assert (∀ w', all_chars isspace w' →
                try_suffixes w' r k2 = if decide (newlines w' = 0) then None
                                       else Some r) as Htry.
  { induction w' as [|c w' IH]; intros Hw'.
    - exact (Hk2 "" Hw').
    - pose proof Hw' as [Hc Hw'']%andb_True. cbn [try_suffixes].
      rewrite IH by done. destruct (decide (newlines w' = 0)) as [H0|H0].
      + by rewrite (Hk2 (String c w')).
      + rewrite decide_False; [done|]. simpl. lia. }
  destruct (whitespace_split w Hw)
    as [[Hall H0]|(h & w1 & -> & Hh & Hw1 & HS)].
  - rewrite decide_False by lia. by apply rmatch_LINE_END_none.
  - rewrite rmatch_LINE_END_some, Htry by done. rewrite HS.
    destruct (decide (newlines w1 = 0)).
    + by rewrite decide_False by lia.
    + by rewrite decide_True by lia.
Qed.

(** The whitespace a text starts with. *)
Lemma leading_whitespace s :
  ∃ w r, s = w +:+ r ∧ all_chars isspace w ∧ stops isspace r.
Proof.
  induction s as [|c s (w & r & -> & Hw & Hr)].
  - by exists "", "".
  - destruct (isspace c) eqn:Hc.
    + exists (String c w), r. split_and!; [done| |done].
      simpl. rewrite Hc. done.
    + exists "", (String c (w +:+ r)). split_and!; [done..|].
      simpl. by rewrite Hc.
Qed.

Lemma pieces_whitespace c w r :
  isspace c → all_chars isspace w → stops isspace r →
  pieces (String c w +:+ r) = Blank (String c w) :: pieces r.
Proof.
  revert c. induction w as [|c' w IH]; intros c Hc Hw Hr.
  - simpl. apply Is_true_true in Hc. rewrite Hc.
    destruct r as [|c' r]; [done|]. simpl in *.
    apply negb_True, Is_true_false in Hr. by rewrite Hr.
  - apply andb_True in Hw as [Hc' Hw].
    change (pieces (String c (String c' w +:+ r))
            = Blank (String c (String c' w)) :: pieces r).
    cbn [pieces]. apply Is_true_true in Hc. rewrite Hc.
    change (String c' (w +:+ r)) with (String c' w +:+ r).
    by rewrite IH.
Qed.

Lemma re_sub_from_skip rx repl w r :
  re_sub_from rx repl (String.length w) (w +:+ r) = re_sub_from rx repl 0 r.
Proof. induction w as [|c w IH]; [done|]. simpl. exact IH. Qed.

Lemma app_string_nil_r w : w +:+ "" = w.
Proof.
  induction w as [|c w IH]; [done|]. by rewrite app_string_cons, IH.
Qed.

Lemma join_empty_cons (x : string) (l : list string) :
  join "" (x :: l) = x +:+ join "" l.
Proof.
  unfold join. destruct l as [|y l]; simpl; [|done].
  by rewrite app_string_nil_r.
Qed.

(** Whitespace with fewer than two line ends is kept. *)
Lemma re_sub_keeps_whitespace repl w r :
  all_chars isspace w → stops isspace r → newlines w < 2 →
  re_sub_from REPEATED_BLANK_LINES repl 0 (w +:+ r)
  = w +:+ re_sub_from REPEATED_BLANK_LINES repl 0 r.
Proof.
  induction w as [|c w IH]; intros Hw Hr Hn; [done|].
  pose proof Hw as [Hc Hw']%andb_True.
  change (String c w +:+ r) with (String c (w +:+ r)).
  cbn [re_sub_from].
  change (String c (w +:+ r)) with (String c w +:+ r).
  rewrite re_match_REPEATED_BLANK_LINES by done.
  rewrite decide_False by lia. rewrite app_string_cons. f_equal.
  apply IH; [done..|]. simpl in Hn. lia.
Qed.

Lemma re_sub_collapses s :
  re_sub REPEATED_BLANK_LINES (newline +:+ newline) s
  = collapse_blank_lines s.
Proof.
  unfold re_sub, collapse_blank_lines.
  remember (String.length s) as n eqn:Hn.
  assert (String.length s ≤ n) as Hle by lia. clear Hn.
  revert s Hle. induction n as [|n IH]; intros s Hle.
  { destruct s; simpl in *; [done|lia]. }
  destruct s as [|c s]; [done|].
  destruct (isspace c) eqn:Hc.
  - destruct (leading_whitespace s) as (w & r & -> & Hw & Hr).
    assert (all_chars isspace (String c w)) as Hcw
      by (simpl; by rewrite Hc).
    change (String c (w +:+ r)) with (String c w +:+ r).
    rewrite pieces_whitespace by (done || by rewrite Hc).
    rewrite fmap_cons, join_empty_cons.
    assert (String.length r ≤ n) as Hr'.
    { simpl in Hle. rewrite length_app_string in Hle. lia. }
    cbn [collapse_piece]. destruct (decide (2 ≤ newlines (String c w))).
    + change (String c w +:+ r) with (String c (w +:+ r)).
      cbn [re_sub_from].
      change (String c (w +:+ r)) with (String c w +:+ r).
      rewrite re_match_REPEATED_BLANK_LINES, decide_True by done.
      replace (String.length (String c w +:+ r) - String.length r)
        with (S (String.length w))
        by (simpl; rewrite length_app_string; lia).
      by rewrite re_sub_from_skip, IH.
    + rewrite re_sub_keeps_whitespace by (done || lia). by rewrite IH.
  - cbn [re_sub_from pieces]. rewrite Hc.
    assert (re_match REPEATED_BLANK_LINES (String c s) = None) as ->.
    { apply (re_match_REPEATED_BLANK_LINES "" (String c s)); [done|].
      simpl. by rewrite Hc. }
    rewrite fmap_cons, join_empty_cons. cbn [collapse_piece].
    rewrite app_string_cons, app_string_nil. f_equal.
    apply IH. simpl in Hle. lia.
Qed.

End BlankLines.

(** ** Visible text *)

Section VisibleText.
Context `{Collaborators}.
Implicit Types (σ : store) (F : list node) (t c n : node) (D L : list oid).

Lemma without_Tag D i nm a cs :
  without D (Tag i nm a cs)
  = Tag i nm a
      (cs ≫= edited (λ i, if decide (i ∈ D) then Some [] else None)).
Proof. done. Qed.

Lemma edited_without_in D c :
  oid_of c ∈ D →
  edited (λ i, if decide (i ∈ D) then Some [] else None) c = [].
Proof. intros Hc. unfold edited. by rewrite decide_True. Qed.

Lemma edited_without_out D c :
  oid_of c ∉ D →
  edited (λ i, if decide (i ∈ D) then Some [] else None) c = [without D c].
Proof. intros Hc. unfold edited. by rewrite decide_False. Qed.

Lemma without_string D c : is_string c → without D c = c.
Proof. by destruct c. Qed.

Lemma without_oid D c : oid_of (without D c) = oid_of c.
Proof. apply edit_oid. Qed.

Lemma without_nil t : without [] t = t.
Proof.
  apply edit_id. intros i _. rewrite decide_False; [done|]. apply not_elem_of_nil.
Qed.

Lemma edit_at_without e D t :
  edit (at_oid e []) (without D t) = without (e :: D) t.
Proof.
  induction t as [i nm a cs IH|i k s] using node_ind'; [|done].
  rewrite !without_Tag, edit_Tag. f_equal. rewrite bind_bind.
  apply Forall_bind_ext. rewrite Forall_forall in IH |- *. intros c Hc.
  destruct (decide (oid_of c ∈ D)) as [HD|HD].
  - rewrite (edited_without_in D c HD).
    rewrite (edited_without_in (e :: D) c) by (by right). done.
  - rewrite (edited_without_out D c HD), bind_singleton.
    unfold edited at 1. rewrite without_oid. unfold at_oid.
    destruct (decide (oid_of c = e)) as [<-|Hne].
    + rewrite edited_without_in by (by left). done.
    + rewrite edited_without_out.
      * f_equal. by apply IH.
      * rewrite elem_of_cons. naive_solver.
Qed.

(** An object that lies under no edited child, and holds none, is still in
    the edited tree. *)
Lemma edit_descendant ρ t n :
  n ∈ descendants t →
  (∀ c, c ∈ descendants t → is_Some (ρ (oid_of c)) → n ∉ subtree_nodes c) →
  edit ρ n = n →
  n ∈ descendants (edit ρ t).
Proof.
  intros Hn Hρ Hnn. revert Hn Hρ.
  induction t as [i nm a cs IH|i k s] using node_ind'.
  2:{ by intros []%elem_of_nil. }
  intros Hn Hρ. rewrite edit_Tag.
  unfold descendants in Hn. cbn [contents_of] in Hn.
  apply list_elem_of_bind in Hn as (c & Hn & Hc).
  assert (c ∈ descendants (Tag i nm a cs)) as Hcd
    by by apply (child_descendant c (Tag i nm a cs)).
  destruct (ρ (oid_of c)) as [l|] eqn:Hl.
  { exfalso. by eapply (Hρ c Hcd). }
  unfold descendants at 1. cbn [contents_of].
  rewrite bind_bind. apply list_elem_of_bind. exists c. split; [|done].
  unfold edited. rewrite Hl, bind_singleton.
  rewrite subtree_nodes_unfold in Hn.
  apply elem_of_cons in Hn as [->|Hn].
  - rewrite Hnn. apply subtree_nodes_self.
  - apply descendants_subtree. rewrite Forall_forall in IH.
    apply IH; [done|done|].
    intros d Hd. apply Hρ. by eapply descendants_child.
Qed.

(** The loop that extracts the comments: what is left of every tree is the
    tree without them. *)
Lemma comments_pass F0 (k : oid) T :
  wf (Store F0 k) → T ∈ F0 →
  ∀ L D removed,
    (∀ e, e ∈ L → ∃ c, c ∈ descendants T ∧ is_string c ∧ oid_of c = e) →
    (∀ e, e ∈ D → ∃ c, c ∈ descendants T ∧ is_string c ∧ oid_of c = e) →
    NoDup L → (∀ e, e ∈ L → e ∉ D) →
    Forall (λ c, is_string c) removed →
    wf (Store ((without D <$> F0) ++ removed) k) →
    ∃ D' removed',
      for_each L extract (Store ((without D <$> F0) ++ removed) k)
      = Ok ((), Store ((without D' <$> F0) ++ removed') k)
      ∧ wf (Store ((without D' <$> F0) ++ removed') k)
      ∧ (∀ e, e ∈ D' ↔ e ∈ L ∨ e ∈ D).
Proof.
  intros Hwf0 HT L.
  induction L as [|e L IH]; intros D removed HL HD Hnd Hdisj Hrem Hwf.
  { exists D, removed. split_and!; [done..|]. set_solver. }
  destruct (HL e) as (c & Hc & Hcs & Hce); [by left|].
  apply NoDup_cons in Hnd as [HeL Hnd].
  set (σ := Store ((without D <$> F0) ++ removed) k) in *.
  assert (without D T ∈ objects σ) as HTσ.
  { apply elem_of_app. left. by apply list_elem_of_fmap_2. }
  assert (c ∈ descendants (without D T)) as Hcin.
  { apply edit_descendant; [done| |by apply without_string].
    intros a Ha [l Hl] Hin.
    destruct (decide (oid_of a ∈ D)) as [HaD|]; [|done].
    destruct (HD _ HaD) as (c2 & Hc2 & Hc2s & Hoid).
    assert (c2 = a) as ->.
    { apply (node_unique F0); [apply Hwf0| | |done];
        (eapply all_nodes_closed; [by apply root_in_all_nodes|]);
        by apply descendants_subtree. }
    destruct a as [|j cls s]; [done|].
    apply list_elem_of_singleton in Hin as ->.
    apply (Hdisj e); [by left|]. by rewrite <-Hce. }
  assert (e ∈ child_oids (objects σ)) as He.
  { rewrite <-Hce. by eapply root_descendant_child. }
  destruct (extract_child σ e Hwf He) as (E & HE & Hrun).
  assert (E = c) as ->.
  { rewrite <-Hce in HE. rewrite deref_unique in HE; [congruence|apply Hwf|].
    apply (all_nodes_closed _ _ (without D T));
      [by apply root_in_all_nodes|].
    by apply descendants_subtree. }
  destruct (extract_wf σ e () _ Hwf Hrun) as (Hwf' & _).
  assert ((edit (at_oid e []) <$> objects σ) ++ [c]
          = (without (e :: D) <$> F0) ++ (removed ++ [c])) as Heq.
  { unfold σ. cbn [objects]. rewrite fmap_app, <-(assoc (++)).
    f_equal; [|f_equal].
    - rewrite <-list_fmap_compose. apply list_fmap_ext.
      intros _ t _. simpl. apply edit_at_without.
    - rewrite <-(list_fmap_id removed) at 2. apply list_fmap_ext.
      intros i r Hr%list_elem_of_lookup_2.
      rewrite Forall_forall in Hrem. specialize (Hrem r Hr).
      by destruct r. }
  rewrite Heq in Hrun, Hwf'. cbn [next_oid σ] in Hrun, Hwf'.
  destruct (IH (e :: D) (removed ++ [c])) as (D' & removed' & Hrun' & Hwf'' & HD');
    [| | | | |exact Hwf'|].
  - intros e' He'. apply HL. by right.
  - intros e' [->|He']%elem_of_cons; [by exists c|by apply HD].
  - done.
  - intros e' He' [->|He'']%elem_of_cons; [done|].
    apply (Hdisj e'); [by right|done].
  - apply Forall_app. split; [done|]. by apply Forall_singleton.
  - exists D', removed'. split_and!; [|done|].
    + cbn [for_each]. by erewrite bind_run by exact Hrun.
    + intros e'. rewrite HD'. set_solver.
Qed.

Lemma bind_NoDup_inj {A B} (f : A → list B) (l : list A) x y e :
  NoDup (l ≫= f) → x ∈ l → y ∈ l → e ∈ f x → e ∈ f y → x = y.
Proof.
  induction l as [|a l IH]; [by intros _ []%elem_of_nil|].
  rewrite bind_cons. intros (_ & Hdisj & Hnd)%NoDup_app Hx Hy Hex Hey.
  apply elem_of_cons in Hx as [->|Hx]; apply elem_of_cons in Hy as [->|Hy].
  - done.
  - exfalso. apply (Hdisj e Hex). apply list_elem_of_bind. eauto.
  - exfalso. apply (Hdisj e Hey). apply list_elem_of_bind. eauto.
  - by apply IH.
Qed.

(** The parent is the one tag that holds the object. *)
Lemma parent_of_unique F P e :
  NoDup (oids F) → P ∈ all_nodes F → e ∈ child_ids P →
  parent_of e F = Some P.
Proof.
  intros Hnd HP He.
  assert (e ∈ child_oids F) as Hin.
  { apply list_elem_of_bind. eauto. }
  apply parent_of_is_Some in Hin as [P' HP'].
  rewrite HP'. f_equal.
  apply parent_of_Some in HP' as [HP'in He'].
  apply NoDup_child_oids in Hnd.
  by eapply (bind_NoDup_inj child_ids (all_nodes F)).
Qed.

Lemma comment_markup_bytes s : re_match COMMENT_MARKUP ("b" +:+ s) = None.
Proof. done. Qed.

(** [_is_visible] on a string of the store. *)
Lemma is_visible_run σ c :
  wf σ → c ∈ all_nodes (objects σ) → oid_of c ∈ child_oids (objects σ) →
  _is_visible (oid_of c) σ = Ok (visible_in (objects σ) (oid_of c), σ).
Proof.
  intros Hwf Hc Hin. unfold _is_visible, visible_in.
  erewrite bind_run by apply parent_run.
  apply parent_of_is_Some in Hin as [P HP]. rewrite HP.
  pose proof (parent_of_Some _ _ _ HP) as [HPin _].
  cbn [fmap option_fmap option_map].
  erewrite bind_run
    by (apply get_deref, deref_unique; [apply Hwf|exact HPin]).
  destruct (bool_decide (default "" (name_of P) ∈ INVISIBLE_TAGS)); [done|].
  erewrite bind_run
    by (apply get_deref, deref_unique; [apply Hwf|exact Hc]).
  by rewrite comment_markup_bytes.
Qed.

Lemma filter_M_nodes (pred : oid → M bool) (f : node → bool) (l : list node)
    σ :
  (∀ c, c ∈ l → pred (oid_of c) σ = Ok (f c, σ)) →
  filter_M pred (oid_of <$> l) σ = Ok (oid_of <$> filter f l, σ).
Proof.
  induction l as [|c l IH]; intros Hl; [done|].
  cbn [fmap list_fmap filter_M].
  erewrite bind_run by (apply Hl; by left).
  erewrite bind_run by (apply IH; intros c' Hc'; apply Hl; by right).
  unfold ret. rewrite filter_cons. by destruct (f c).
Qed.

Lemma map_M_nodes {B} (g : oid → M B) (h : node → B) (l : list node) σ :
  (∀ c, c ∈ l → g (oid_of c) σ = Ok (h c, σ)) →
  map_M g (oid_of <$> l) σ = Ok (h <$> l, σ).
Proof.
  induction l as [|c l IH]; intros Hl; [done|].
  cbn [fmap list_fmap map_M].
  erewrite bind_run by (apply Hl; by left).
  erewrite bind_run by (apply IH; intros c' Hc'; apply Hl; by right).
  done.
Qed.

Lemma visible_text_Tag pn i nm a cs :
  visible_text pn (Tag i nm a cs) = cs ≫= visible_text nm.
Proof. done. Qed.

(** The strings [_is_visible] keeps below a tag without comments are its
    visible text. *)
Lemma visible_strings σ t :
  wf σ → t ∈ all_nodes (objects σ) →
  Forall (λ c, ¬ is_comment c) (descendants t) →
  py_str <$> filter (λ c, visible_in (objects σ) (oid_of c))
               (filter (λ c, is_string c) (descendants t))
  = contents_of t ≫= visible_text (default "" (name_of t)).
Proof.
  intros Hwf. induction t as [i nm a cs IH|i k s] using node_ind'; [|done].
  intros Ht Hno. unfold descendants at 1 in Hno. unfold descendants at 1.
  cbn [contents_of] in Hno |- *.
  change (default "" (name_of (Tag i nm a cs))) with nm.
  rewrite !filter_bind, fmap_bind. apply Forall_bind_ext.
  rewrite Forall_forall in IH |- *. intros c Hc.
  assert (c ∈ all_nodes (objects σ)) as Hcin.
  { eapply all_nodes_closed; [exact Ht|]. apply descendants_subtree.
    by apply (child_descendant c (Tag i nm a cs)). }
  rewrite Forall_bind, Forall_forall in Hno. specialize (Hno c Hc).
  unfold compose in Hno.
  rewrite subtree_nodes_unfold in Hno |- *.
  apply Forall_cons in Hno as [Hcc Hno].
  destruct c as [j nm' a' cs'|j cls s].
  - rewrite filter_cons_False by (by intros []).
    rewrite visible_text_Tag. by apply (IH _ Hc).
  - rewrite filter_cons_True by done.
    change (descendants (NavigableString j cls s)) with (@nil node).
    rewrite !filter_nil.
    assert (visible_in (objects σ) j
            = negb (bool_decide (nm ∈ INVISIBLE_TAGS))) as Hvis.
    { unfold visible_in.
      rewrite (parent_of_unique _ (Tag i nm a cs)); [done|apply Hwf|done|].
      unfold child_ids. cbn [contents_of].
      by apply (list_elem_of_fmap_2 oid_of) in Hc. }
    cbn [visible_text oid_of].
    assert (bool_decide (cls = Comment) = false) as ->.
    { apply bool_decide_eq_false. intros ->. by apply Hcc. }
    destruct (bool_decide (nm ∈ INVISIBLE_TAGS)) eqn:Hinv.
    + rewrite filter_cons_False; [done|].
      cbn [oid_of]. rewrite Hvis. by intros [].
    + rewrite filter_cons_True; [done|]. cbn [oid_of]. by rewrite Hvis.
Qed.

(** Removing the comments does not change the visible text, and leaves no
    comment. *)
Lemma visible_text_without D t pn :
  (∀ c, c ∈ subtree_nodes t → oid_of c ∈ D ↔ is_comment c) →
  ¬ is_comment t →
  visible_text pn (without D t) = visible_text pn t.
Proof.
  revert pn. induction t as [i nm a cs IH|i k s] using node_ind'; [|done].
  intros pn HD _. rewrite without_Tag, !visible_text_Tag, bind_bind.
  apply Forall_bind_ext. rewrite Forall_forall in IH |- *. intros c Hc.
  assert (c ∈ subtree_nodes (Tag i nm a cs)) as Hcs.
  { apply descendants_subtree. by apply (child_descendant c (Tag i nm a cs)). }
  destruct (decide (oid_of c ∈ D)) as [Hin|Hout].
  - rewrite edited_without_in by done.
    apply HD in Hin; [|done]. by destruct c as [|j [] s].
  - rewrite edited_without_out, bind_singleton by done.
    apply IH; [done| |].
    + intros d Hd. apply HD. by eapply subtree_nodes_trans.
    + intros Hcc. apply Hout. by apply HD.
Qed.

Lemma without_no_comment D t :
  (∀ c, c ∈ subtree_nodes t → oid_of c ∈ D ↔ is_comment c) →
  Forall (λ c, ¬ is_comment c) (descendants (without D t)).
Proof.
  induction t as [i nm a cs IH|i k s] using node_ind'; [|by constructor].
  intros HD. rewrite without_Tag. unfold descendants. cbn [contents_of].
  rewrite bind_bind, Forall_bind. rewrite Forall_forall in IH |- *.
  intros c Hc. unfold compose.
  assert (c ∈ subtree_nodes (Tag i nm a cs)) as Hcs.
  { apply descendants_subtree. by apply (child_descendant c (Tag i nm a cs)). }
  destruct (decide (oid_of c ∈ D)) as [Hin|Hout].
  - rewrite edited_without_in by done. constructor.
  - rewrite edited_without_out, bind_singleton, subtree_nodes_unfold by done.
    constructor.
    + intros Hcc. apply Hout, HD; [done|]. by destruct c.
    + apply IH; [done|]. intros d Hd. apply HD.
      by eapply subtree_nodes_trans.
Qed.

Lemma visible_text_strip_ids pn t :
  visible_text pn (strip_ids t) = visible_text pn t.
Proof.
  revert pn. induction t as [i nm a cs IH|i k s] using node_ind'; [|done].
  intros pn. cbn [strip_ids]. rewrite !visible_text_Tag.
  induction IH as [|c cs' Hc _ IH']; [done|].
  by rewrite fmap_cons, !bind_cons, Hc, IH'.
Qed.

Lemma visible_fragments_strip_ids cs cs' :
  strip_ids <$> cs = strip_ids <$> cs' →
  visible_fragments cs = visible_fragments cs'.
Proof.
  unfold visible_fragments. revert cs'.
  induction cs as [|c cs IH]; intros [|c' cs'] Heq; try done.
  rewrite !fmap_cons in Heq. injection Heq as Hc Hcs.
  rewrite !bind_cons, (IH cs') by done. f_equal.
  by rewrite <-(visible_text_strip_ids _ c), Hc, visible_text_strip_ids.
Qed.

(** C7: [_get_visible_text] returns, for every markup, the visible text
    fragments of the parsed document (the strings that are not comments
    and whose parent is not [style], [script], the document itself, [head]
    or [title]) joined with single spaces, with every run of whitespace
    that holds two or more line ends (the end of a line and the blank or
    whitespace-only lines after it) replaced by exactly two newlines, and
    stripped of leading and trailing whitespace. *)
Theorem get_visible_text_fragments html σ :
  wf σ →
  ∃ σ',
    _get_visible_text html σ
    = Ok (strip (collapse_blank_lines
                   (join " " (visible_fragments (lxml_parse html)))), σ').
Proof.
  intros Hwf.
  destruct (BeautifulSoup_run html σ Hwf) as (cs & m & Hsoup & Hwf1 & Hcs & _).
  set (k := next_oid σ) in *.
  set (T := Tag k "[document]" [] cs) in *. cbn zeta in Hsoup, Hwf1.
  set (F1 := objects σ ++ [T]) in *.
  assert (T ∈ F1) as HT by (apply elem_of_app; right; by left).
  set (L := oid_of <$> filter (λ n, is_comment n) (descendants T)).
  destruct (comments_pass F1 m T Hwf1 HT L [] [])
    as (D & removed & Hpass & Hwf2 & HD).
  { intros e (c & -> & [Hc Hin]%list_elem_of_filter)%list_elem_of_fmap.
    exists c. split_and!; [done| |done]. by destruct c as [|j [] s]. }
  { by intros e []%elem_of_nil. }
  { apply (NoDup_root_descendants F1); [apply Hwf1|done]. }
  { intros e _. apply not_elem_of_nil. }
  { constructor. }
  { rewrite app_nil_r. replace (without [] <$> F1) with F1; [done|].
    rewrite <-(list_fmap_id F1) at 1. apply list_fmap_ext.
    intros _ t _. simpl. by rewrite without_nil. }
  rewrite app_nil_r in Hpass.
  replace (without [] <$> F1) with F1 in Hpass.
  2:{ rewrite <-(list_fmap_id F1) at 1. apply list_fmap_ext.
      intros _ t _. simpl. by rewrite without_nil. }
  set (σ2 := Store ((without D <$> F1) ++ removed) m) in *.
  assert (without D T ∈ objects σ2) as HT2.
  { apply elem_of_app. left. by apply list_elem_of_fmap_2. }
  assert (deref k (objects σ2) = Some (without D T)) as Hderef.
  { change k with (oid_of T). rewrite <-(without_oid D T).
    by apply root_deref. }
  assert (∀ c, c ∈ subtree_nodes T → oid_of c ∈ D ↔ is_comment c) as HDc.
  { intros c Hc. rewrite HD. split.
    - intros [(c' & Hoid & [Hcc Hc']%list_elem_of_filter)%list_elem_of_fmap|
              []%elem_of_nil].
      assert (c = c') as ->; [|done].
      apply (node_unique F1); [apply Hwf1| | |done].
      + eapply all_nodes_closed; [by apply root_in_all_nodes|done].
      + eapply all_nodes_closed; [by apply root_in_all_nodes|].
        by apply descendants_subtree.
    - intros Hcc. left. apply list_elem_of_fmap_2, list_elem_of_filter.
      split; [done|]. rewrite subtree_nodes_unfold in Hc.
      apply elem_of_cons in Hc as [->|Hc]; [done|done]. }
  set (texts := filter (λ c, is_string c) (descendants (without D T))).
  exists σ2. unfold _get_visible_text, _get_text.
  erewrite bind_run.
  2:{ erewrite bind_run by exact Hsoup.
      erewrite bind_run.
      2:{ unfold find_all_comments.
          erewrite bind_run by (apply get_deref; by apply (root_deref _ T)).
          reflexivity. }
      erewrite bind_run by exact Hpass.
      unfold find_all_text.
      erewrite bind_run by (apply get_deref; exact Hderef).
      reflexivity. }
  fold texts.
  assert (∀ c, c ∈ texts → c ∈ all_nodes (objects σ2)
                           ∧ oid_of c ∈ child_oids (objects σ2)) as Htexts.
  { intros c [_ Hc]%list_elem_of_filter. split.
    - eapply all_nodes_closed; [by apply root_in_all_nodes|].
      by apply descendants_subtree.
    - by eapply root_descendant_child. }
  erewrite bind_run.
  2:{ apply (filter_M_nodes _ (λ c, visible_in (objects σ2) (oid_of c))).
      intros c Hc. apply is_visible_run; [done|by apply Htexts..]. }
  erewrite bind_run.
  2:{ apply (map_M_nodes _ py_str). intros c [_ Hc]%list_elem_of_filter.
      erewrite bind_run; [reflexivity|].
      apply get_deref, deref_unique; [apply Hwf2|by apply Htexts]. }
  unfold ret. do 3 f_equal. rewrite re_sub_collapses. do 2 f_equal.
  unfold texts.
  rewrite (visible_strings σ2 (without D T) Hwf2);
    [|by apply root_in_all_nodes|by apply without_no_comment].
  change (contents_of (without D T)
            ≫= visible_text (default "" (name_of (without D T))))
    with (visible_text "" (without D T)).
  rewrite visible_text_without; [|done|exact id].
  rewrite <-(visible_fragments_strip_ids cs) by done. done.
Qed.

End VisibleText.

(** ** The rebuilt document *)

Section Render.
Context `{Collaborators}.
Implicit Types (σ : store) (F G : list node) (t c n : node).

Lemma strings_bind_edited ρ (l : list node) :
  Forall (λ n, is_string n) l →
  Forall (λ n, is_Some (ρ (oid_of n)) →
               Forall (λ x, is_string x) (default [] (ρ (oid_of n)))) l →
  Forall (λ n, is_string n) (l ≫= edited ρ).
Proof.
  intros Hl Hρ. rewrite Forall_bind.
  rewrite Forall_forall in Hl, Hρ |- *. intros s Hs.
  unfold compose, edited.
  specialize (Hρ s Hs). destruct (ρ (oid_of s)) as [l'|].
  - by apply Hρ.
  - constructor; [|done]. specialize (Hl s Hs). by destruct s.
Qed.

(** An edit that leaves the [html] element in place, and puts only strings
    where it takes a string away, keeps the shape of the document. *)
Lemma html_rooted_edit σ soup h e l E G (k : oid) :
  wf σ → html_rooted σ soup h →
  deref e (objects σ) = Some E → ¬ is_named "html" E →
  (is_string E → Forall (λ n, is_string n) l) →
  html_rooted (Store ((edit (at_oid e l) <$> objects σ) ++ G) k) soup h.
Proof.
  intros Hwf (dn & da & pre & a & post & hs & HT & Hpre & Hpost) HE Hname Hl.
  set (T := doc soup dn da pre h a post hs) in *.
  assert (∀ c, c ∈ pre ++ Tag h "html" a hs :: post →
               c ∈ all_nodes (objects σ)) as Hin.
  { intros c Hc. eapply all_nodes_closed; [by apply root_in_all_nodes|].
    apply descendants_subtree. by apply (child_descendant c T). }
  assert (∀ c, c ∈ pre ++ Tag h "html" a hs :: post → oid_of c = e → c = E)
    as Huniq.
  { intros c Hc Hoid. apply Hin in Hc.
    apply (deref_unique _ _ (proj1 Hwf)) in Hc. congruence. }
  assert (∀ l', Forall (λ n, is_string n) l' →
                (∀ c, c ∈ l' → c ∈ pre ++ Tag h "html" a hs :: post) →
                Forall (λ n, is_string n) (l' ≫= edited (at_oid e l)))
    as Hstrings.
  { intros l' Hl' Hsub. apply strings_bind_edited; [done|].
    rewrite Forall_forall in Hl' |- *. intros s Hs [l0 Hl0].
    rewrite Hl0. simpl. unfold at_oid in Hl0. case_decide; [|done].
    simplify_eq. apply Hl. rewrite <-(Huniq s); [by apply Hl'|by apply Hsub|done]. }
  exists dn, da, (pre ≫= edited (at_oid e l)), a,
    (post ≫= edited (at_oid e l)), (hs ≫= edited (at_oid e l)).
  split_and!.
  - cbn [objects]. apply elem_of_app. left.
    apply list_elem_of_fmap. exists T. split; [|done].
    assert (edited (at_oid e l) (Tag h "html" a hs)
            = [Tag h "html" a (hs ≫= edited (at_oid e l))]) as Hhtml.
    { unfold edited at 1, at_oid at 1. cbn [oid_of].
      case_decide as Hhe; [|done]. exfalso. apply Hname.
      rewrite <-(Huniq (Tag h "html" a hs)); [done| |done].
      apply elem_of_app. right. by left. }
    unfold T, doc. by rewrite edit_Tag, bind_app, bind_cons, Hhtml.
  - apply Hstrings; [done|]. intros c Hc. apply elem_of_app. by left.
  - apply Hstrings; [done|]. intros c Hc. apply elem_of_app. right. by right.
Qed.

Lemma html_rooted_app σ soup h G (k : oid) :
  html_rooted σ soup h → html_rooted (Store (objects σ ++ G) k) soup h.
Proof.
  intros (dn & da & pre & a & post & hs & HT & Hpre & Hpost).
  exists dn, da, pre, a, post, hs. split_and!; [|done..].
  cbn [objects]. apply elem_of_app. by left.
Qed.

(** The loop that extracts comments keeps the shape of the documents. *)
Lemma extract_loop_rooted soup h L :
  ∀ σ σ',
    wf σ →
    Forall (λ e, ∃ c, c ∈ objects σ ≫= shallows ∧ oid_of c = e
                      ∧ is_string c) L →
    for_each L extract σ = Ok ((), σ') →
    html_rooted σ soup h → html_rooted σ' soup h.
Proof.
  induction L as [|e L IH]; intros σ σ' Hwf HL Hrun Hroot.
  { change (Ok ((), σ) = Ok ((), σ')) in Hrun. by simplify_eq. }
  apply Forall_cons in HL as [(c & Hc & Hoc & Hcs) HL].
  destruct (extract e σ) as [[[] σ1]|] eqn:Hstep.
  2:{ cbn [for_each] in Hrun. by rewrite (bind_raise _ _ _ _ Hstep) in Hrun. }
  cbn [for_each] in Hrun. rewrite (bind_run _ _ _ _ _ Hstep) in Hrun.
  destruct (extract_persists _ _ _ _ Hwf Hstep) as [Hp _].
  apply (IH σ1 σ'); [apply Hp| |done|].
  - eapply Forall_impl; [exact HL|]. intros e' (c' & Hc' & ? & ?).
    exists c'. split; [|done]. by apply Hp.
  - destruct (decide (e ∈ child_oids (objects σ))) as [He|He].
    + destruct (extract_child _ _ Hwf He) as (E & HE & Hstep').
      rewrite Hstep' in Hstep. simplify_eq.
      assert (c = shallow E) as ->.
      { eapply shallow_node_unique; [apply Hwf|done|done]. }
      eapply html_rooted_edit; [done|done|exact HE| |done].
      destruct E; [done|]. by intros [].
    + rewrite extract_parentless in Hstep by done. by simplify_eq.
Qed.

(** So does the loop that shields the script and style elements. *)
Lemma shield_loop_rooted soup h prefix L :
  ∀ idxs tbl tbl' σ σ',
    wf σ →
    Forall (λ e, e ∈ child_oids (objects σ)
                 ∧ ∃ c, c ∈ objects σ ≫= shallows ∧ oid_of c = e
                        ∧ ¬ is_named "html" c ∧ ¬ is_string c) L →
    NoDup L →
    fold_M (shield_step prefix) tbl (zip idxs L) σ = Ok (tbl', σ') →
    html_rooted σ soup h → html_rooted σ' soup h.
Proof.
  induction L as [|e L IH]; intros idxs tbl tbl' σ σ' Hwf HL Hnd Hrun Hroot.
  { rewrite zip_with_nil_r in Hrun.
    change (Ok (tbl, σ) = Ok (tbl', σ')) in Hrun. by simplify_eq. }
  destruct idxs as [|j idxs].
  { change (Ok (tbl, σ) = Ok (tbl', σ')) in Hrun. by simplify_eq. }
  apply Forall_cons in HL as [(He & c & Hc & Hoc & Hname & Hcs) HL].
  apply NoDup_cons in Hnd as [HeL Hnd].
  destruct (shield_step_run prefix tbl j e σ Hwf He)
    as (E & HE & Hstep & Hwf' & Hsh & Hch).
  cbn [zip zip_with fold_M] in Hrun.
  rewrite (bind_run _ _ _ _ _ Hstep) in Hrun.
  assert (c = shallow E) as ->.
  { eapply shallow_node_unique; [apply Hwf|done|by rewrite Hoc]. }
  cbv zeta in Hstep, Hwf', Hsh, Hch.
  eapply (IH _ _ _ _ _ Hwf' _ Hnd Hrun).
  eapply html_rooted_edit; [done|done|exact HE| |].
  - by rewrite <-(is_named_shallow "html" (shallow E) E)
      by (by destruct E).
  - intros HEs. exfalso. apply Hcs. by destruct E.
  Unshelve.
  rewrite Forall_forall in HL |- *. intros e' He'.
  destruct (HL e' He') as (Hc' & c' & Hc'' & ? & ? & ?). split.
  { apply Hch; [|done]. by intros ->. }
  exists c'. split; [|done]. cbn [objects].
  rewrite Hsh. apply elem_of_app. by left.
Qed.

(** *** From the markup to the shielded documents *)

Lemma html_rooted_has_root σ soup h : html_rooted σ soup h → has_root σ soup.
Proof.
  intros (dn & da & pre & a & post & hs & HT & _).
  unfold has_root. by apply (list_elem_of_fmap_2 oid_of) in HT.
Qed.

Lemma is_string_strip_ids (l l' : list node) :
  strip_ids <$> l = strip_ids <$> l' →
  Forall (λ n, is_string n) l' → Forall (λ n, is_string n) l.
Proof.
  revert l'. induction l as [|x l IH]; intros [|x' l'] Heq Hl'; try done.
  rewrite !fmap_cons in Heq. injection Heq as Hx Hl.
  apply Forall_cons in Hl' as [Hx' Hl']. constructor; [|by eapply IH].
  by destruct x, x'.
Qed.

Lemma BeautifulSoup_rooted markup σ :
  wf σ → parses_with_html_root markup →
  ∃ σ' h,
    BeautifulSoup markup σ = Ok (next_oid σ, σ')
    ∧ wf σ'
    ∧ html_rooted σ' (next_oid σ) h
    ∧ (∀ s h', html_rooted σ s h' → html_rooted σ' s h').
Proof.
  intros Hwf (pre & i & a & hs & post & Hparse & Hpre & Hpost).
  destruct (BeautifulSoup_run markup σ Hwf) as (cs & m & Hrun & Hwf' & Hcs & _).
  cbn zeta in Hrun, Hwf'. rewrite Hparse, fmap_app, fmap_cons in Hcs.
  apply fmap_app_inv in Hcs as (pre' & rest & Hpre' & Hrest & ->).
  symmetry in Hrest.
  apply fmap_cons_inv in Hrest as (x & post' & Hx & Hpost' & ->).
  destruct x as [i' nm a' hs'|]; [|done]. cbn [strip_ids] in Hx.
  injection Hx as <- <- _.
  eexists _, i'. split_and!; [exact Hrun|done| |].
  - exists "[document]", [], pre', a, post', hs'. cbn [objects].
    split_and!.
    + apply elem_of_app. right. by left.
    + by apply (is_string_strip_ids pre' pre).
    + by apply (is_string_strip_ids post' post).
  - intros s h' Hs. by apply (html_rooted_app σ).
Qed.

Lemma remove_comments_rooted soup σ :
  wf σ → has_root σ soup →
  ∃ comments σ',
    find_all_comments soup σ = Ok (comments, σ)
    ∧ for_each comments extract σ = Ok ((), σ')
    ∧ wf σ'
    ∧ ∀ s h, html_rooted σ s h → html_rooted σ' s h.
Proof.
  intros Hwf (T & HT & <-)%has_root_tree.
  set (L := oid_of <$> filter (λ n, is_comment n) (descendants T)).
  destruct (extract_loop L σ Hwf) as (σ' & Hrun & Hp & _).
  exists L, σ'. split_and!; [|exact Hrun|apply Hp|].
  - unfold find_all_comments.
    by erewrite bind_run by (apply get_deref; by apply root_deref).
  - intros s h. apply (extract_loop_rooted s h L σ σ' Hwf); [|done].
    apply Forall_forall. intros e (c & -> & Hc)%list_elem_of_fmap.
    apply list_elem_of_filter in Hc as [Hcc Hc].
    exists c. split_and!; [|done|by destruct c].
    assert (c = shallow c) as -> by (by destruct c).
    unfold shallows. rewrite <-fmap_bind. apply list_elem_of_fmap_2.
    eapply all_nodes_closed; [by apply root_in_all_nodes|].
    by apply descendants_subtree.
Qed.

Lemma remove_undiffable_rooted soup prefix σ :
  wf σ → has_root σ soup →
  ∃ tbl σ',
    _remove_undiffable_content soup prefix σ = Ok ((soup, tbl), σ')
    ∧ wf σ'
    ∧ ∀ s h, html_rooted σ s h → html_rooted σ' s h.
Proof.
  intros Hwf (T & HT & <-)%has_root_tree.
  set (L := oid_of <$> filter (λ n, name_in ["script"; "style"] n)
                         (descendants T)).
  assert (NoDup L) as HndL.
  { apply NoDup_root_descendants with (F := objects σ); [apply Hwf|done]. }
  assert (Forall (λ e, e ∈ child_oids (objects σ)
                       ∧ ∃ c, c ∈ objects σ ≫= shallows ∧ oid_of c = e
                              ∧ ¬ is_named "html" c ∧ ¬ is_string c) L)
    as HL.
  { apply Forall_forall. intros e (n & -> & Hn)%list_elem_of_fmap.
    apply list_elem_of_filter in Hn as [Hname Hn]. split.
    - by eapply root_descendant_child.
    - exists (shallow n). split_and!.
      + unfold shallows. rewrite <-fmap_bind. apply list_elem_of_fmap_2.
        eapply all_nodes_closed; [by apply root_in_all_nodes|].
        by apply descendants_subtree.
      + apply oid_shallow.
      + rewrite (is_named_shallow _ _ n) by (by destruct n).
        unfold name_in, is_named in *.
        destruct (name_of n) as [nm|]; [|done].
        intros Heq%bool_decide_unpack. simplify_eq.
        apply bool_decide_unpack in Hname.
        rewrite !elem_of_cons, elem_of_nil in Hname. naive_solver.
      + destruct n; [by intros []|done]. }
  destruct (shield_loop prefix L (seq 0 (length L)) ∅ σ Hwf HndL)
    as (tbl & σ' & Hrun & Hp).
  { eapply Forall_impl; [exact HL|]. intros e (? & c & ? & ? & ? & ?).
    split; [done|]. by exists c. }
  exists tbl, σ'. split_and!; [|apply Hp|].
  - unfold _remove_undiffable_content, find_all.
    erewrite bind_run.
    2:{ erewrite bind_run by (apply get_deref; by apply root_deref). done. }
    unfold enumerate. fold L. by erewrite bind_run by exact Hrun.
  - intros s h.
    by apply (shield_loop_rooted s h prefix L _ _ _ _ _ Hwf HL HndL Hrun).
Qed.

(** *** Putting a parentless object into a tag *)

Lemma roots_disjoint F T E i :
  NoDup (oids F) → T ∈ F → E ∈ F → oid_of T ≠ oid_of E →
  i ∈ ids T → i ∉ ids E.
Proof.
  intros Hnd HT HE Hne Hi HiE.
  pose proof (split_root F T Hnd HT) as Hsplit.
  rewrite (oids_proper _ _ Hsplit), oids_cons in Hnd.
  apply NoDup_app in Hnd as (_ & Hdisj & _).
  apply (Hdisj i Hi). eapply ids_subseteq_oids; [|exact HiE].
  apply list_elem_of_filter. split; [|done]. by intros Heq.
Qed.

Lemma update_contents_Tag p f i nm a cs :
  update_contents p f (Tag i nm a cs)
  = Tag i nm a (if decide (i = p) then f cs else update_contents p f <$> cs).
Proof. done. Qed.

(** Identities after a change to the contents of the one tag [p]. *)
Lemma update_contents_ids p f X t nm a cs :
  NoDup (ids t) → Tag p nm a cs ∈ subtree_nodes t →
  f cs ≫= ids ≡ₚ (cs ≫= ids) ++ X →
  ids (update_contents p f t) ≡ₚ ids t ++ X.
Proof.
  intros Hnd Hin Hf. revert Hnd Hin.
  induction t as [i nm' a' cs' IH|i k s] using node_ind'.
  2:{ intros _ Hin. by apply list_elem_of_singleton in Hin. }
  intros Hnd Hin. rewrite update_contents_Tag, !ids_Tag.
  rewrite ids_Tag in Hnd. apply NoDup_cons in Hnd as [Hi Hnd].
  rewrite subtree_nodes_unfold in Hin. unfold descendants in Hin.
  cbn [contents_of] in Hin.
  destruct (decide (i = p)) as [->|Hip].
  - apply elem_of_cons in Hin as [Heq|Hin].
    + simplify_eq. by rewrite Hf.
    + exfalso. apply Hi. apply list_elem_of_bind in Hin as (c & Hin & Hc).
      apply list_elem_of_bind. exists c. split; [|done].
      apply elem_of_ids. by exists (Tag p nm a cs).
  - apply elem_of_cons in Hin as [Heq|Hin]; [by simplify_eq|].
    simpl. constructor. clear Hi.
    induction cs' as [|c cs' IHcs]; [by apply elem_of_nil in Hin|].
    apply Forall_cons in IH as [IHc IH].
    rewrite bind_cons in Hnd. rewrite bind_cons in Hin.
    rewrite fmap_cons, !bind_cons.
    apply NoDup_app in Hnd as (Hndc & Hdisj & Hnd).
    apply elem_of_app in Hin as [Hin|Hin].
    + rewrite (IHc Hndc Hin).
      assert (p ∉ oids cs') as Hp.
      { rewrite oids_bind. apply Hdisj, elem_of_ids.
        by exists (Tag p nm a cs). }
      rewrite (update_contents_forest_id _ _ _ Hp). solve_Permutation.
    + assert (p ∉ ids c) as Hp.
      { intros Hpc. apply (Hdisj p Hpc).
        apply list_elem_of_bind in Hin as (c' & Hin & Hc').
        apply list_elem_of_bind. exists c'. split; [|done].
        apply elem_of_ids. by exists (Tag p nm a cs). }
      rewrite (update_contents_id _ _ _ Hp), (IHcs IH Hnd Hin).
      solve_Permutation.
Qed.

Lemma list_insert_at_ids (position : nat) E (cs : list node) :
  list_insert_at position E cs ≫= ids ≡ₚ (cs ≫= ids) ++ ids E.
Proof.
  unfold list_insert_at. rewrite bind_app, bind_cons.
  rewrite <-(take_drop position cs) at 3. rewrite bind_app.
  solve_Permutation.
Qed.

(** [tag.insert(position, E)] for a parentless [E] and a tag of another
    tree [T]. *)
Lemma insert_root σ p nm a cs position e E T :
  wf σ → T ∈ objects σ → Tag p nm a cs ∈ subtree_nodes T →
  E ∈ objects σ → oid_of E = e → oid_of T ≠ e →
  ∃ σ',
    insert p position e σ = Ok ((), σ')
    ∧ wf σ'
    ∧ next_oid σ' = next_oid σ
    ∧ update_contents p (list_insert_at (position `min` length cs) E) T
      ∈ objects σ'
    ∧ (∀ R, R ∈ objects σ → oid_of R ≠ oid_of T → oid_of R ≠ e →
            R ∈ objects σ').
Proof.
  intros Hwf HT HP HE <- Hne. pose proof (proj1 Hwf) as Hnd.
  assert (p ∈ ids T) as HpT.
  { apply elem_of_ids. by exists (Tag p nm a cs). }
  assert (∀ R, R ∈ objects σ → oid_of R ≠ oid_of T → p ∉ ids R) as Hother.
  { intros R HR HRT. by apply (roots_disjoint (objects σ) T R). }
  assert (p ∉ ids E) as HpE by (apply Hother; [done|by intros Heq]).
  assert (oid_of E ≠ p) as Hep.
  { intros <-. apply HpE, oid_in_ids. }
  assert (deref p (objects σ) = Some (Tag p nm a cs)) as Hderef.
  { apply (deref_unique _ (Tag p nm a cs) Hnd).
    apply (all_nodes_closed _ _ T); [by apply root_in_all_nodes|done]. }
  set (g := list_insert_at (position `min` length cs) E).
  set (F' := filter (λ r, oid_of r ≠ oid_of E) (objects σ)).
  exists (Store (update_contents p g <$> F') (next_oid σ)).
  assert (T ∈ F') as HT'.
  { apply list_elem_of_filter. by split. }
  split_and!.
  - rewrite (insert_parentless p position (oid_of E) σ (Tag p nm a cs) E);
      [done|done|done|by apply root_not_child|by apply root_deref|done].
  - pose proof (split_root _ E Hnd HE) as HsplitE. fold F' in HsplitE.
    assert (NoDup (oids F')) as Hnd'.
    { rewrite (oids_proper _ _ HsplitE), oids_cons in Hnd.
      by apply NoDup_app in Hnd as (_ & _ & Hnd). }
    pose proof (split_root _ T Hnd' HT') as HsplitT.
    set (F'' := filter (λ t, oid_of t ≠ oid_of T) F') in *.
    assert (p ∉ oids F'') as HpF.
    { rewrite (oids_proper _ _ HsplitT), oids_cons in Hnd'.
      apply NoDup_app in Hnd' as (_ & Hdisj & _). by apply Hdisj. }
    eapply (wf_perm (objects σ)); [|by destruct σ].
    cbn [objects]. rewrite (oids_proper _ _ HsplitE), oids_cons.
    rewrite (oids_proper (update_contents p g <$> F')
               (update_contents p g T :: F'')).
    2:{ rewrite HsplitT at 1. rewrite fmap_cons.
        by rewrite (update_contents_forest_id _ _ _ HpF). }
    rewrite oids_cons, (oids_proper _ _ HsplitT), oids_cons.
    rewrite (update_contents_ids p g (ids E) T nm a cs);
      [solve_Permutation| |done|apply list_insert_at_ids].
    by eapply NoDup_ids_root.
  - done.
  - cbn [objects]. by apply list_elem_of_fmap_2.
  - intros R HR HRT HRE. cbn [objects].
    rewrite <-(update_contents_id p g R) by (by apply Hother).
    apply list_elem_of_fmap_2. apply list_elem_of_filter. by split.
Qed.

Lemma list_insert_at_end {A} (x : A) (l : list A) :
  list_insert_at (length l) x l = l ++ [x].
Proof. unfold list_insert_at. by rewrite take_ge, drop_ge by lia. Qed.

(** [tag.append(E)] *)
Lemma append_root σ p nm a cs e E T :
  wf σ → T ∈ objects σ → Tag p nm a cs ∈ subtree_nodes T →
  E ∈ objects σ → oid_of E = e → oid_of T ≠ e →
  ∃ σ',
    append p e σ = Ok ((), σ')
    ∧ wf σ'
    ∧ next_oid σ' = next_oid σ
    ∧ update_contents p (list_insert_at (length cs) E) T ∈ objects σ'
    ∧ (∀ R, R ∈ objects σ → oid_of R ≠ oid_of T → oid_of R ≠ e →
            R ∈ objects σ').
Proof.
  intros Hwf HT HP HE He Hne.
  destruct (insert_root σ p nm a cs (length cs) e E T)
    as (σ' & Hrun & Hwf' & Hnext & HT' & Hroots); [done..|].
  rewrite Nat.min_id in HT'.
  exists σ'. split_and!; [|done..].
  unfold append. erewrite (bind_run _ _ _ (Tag p nm a cs)); [exact Hrun|].
  apply get_deref, (deref_unique _ (Tag p nm a cs) (proj1 Hwf)).
  apply (all_nodes_closed _ _ T); [by apply root_in_all_nodes|done].
Qed.

(** [tag.append(s)] for a Python [str]. *)
Lemma append_str_tag σ p nm a cs s T :
  wf σ → T ∈ objects σ → Tag p nm a cs ∈ subtree_nodes T →
  ∃ σ',
    append_str p s σ = Ok ((), σ')
    ∧ wf σ'
    ∧ next_oid σ' = S (next_oid σ)
    ∧ update_contents p
        (list_insert_at (length cs)
           (NavigableString (next_oid σ) PlainString s)) T
      ∈ objects σ'
    ∧ (∀ R, R ∈ objects σ → oid_of R ≠ oid_of T → R ∈ objects σ').
Proof.
  intros Hwf HT HP. destruct σ as [F k]. cbn [objects next_oid] in *.
  set (E := NavigableString k PlainString s).
  assert (wf (Store (F ++ [E]) (S k))) as Hwf1.
  { eapply wf_alloc; [done| |lia]. replace (S k - k) with 1 by lia. done. }
  assert (k ∉ oids F) as Hk.
  { pose proof (wf_fresh _ 0 Hwf) as Hk. simpl in Hk.
    by rewrite Nat.add_0_r in Hk. }
  assert (oid_of T ≠ k) as HTk.
  { intros Heq. apply Hk. eapply ids_subseteq_oids; [exact HT|].
    rewrite <-Heq. apply oid_in_ids. }
  destruct (append_root (Store (F ++ [E]) (S k)) p nm a cs k E T)
    as (σ' & Hrun & Hwf' & Hnext & HT' & Hroots); [done|..].
  { apply elem_of_app. by left. }
  { done. }
  { apply elem_of_app. right. by left. }
  { done. }
  { done. }
  exists σ'. split_and!; [|done..|].
  - unfold append_str. by erewrite bind_run by apply new_string_run.
  - intros R HR HRT. apply Hroots; [|done|].
    + apply elem_of_app. by left.
    + intros Heq. apply Hk. eapply ids_subseteq_oids; [exact HR|].
      rewrite <-Heq. apply oid_in_ids.
Qed.

(** [tag.string = s] on a tag that has just been made. *)
Lemma set_string_fresh F (m : oid) nm attrs s :
  wf (Store F m) →
  set_string m s (Store (F ++ [Tag m nm attrs []]) (S m))
  = Ok ((), Store (F ++ [Tag m nm attrs [NavigableString (S m) PlainString s]])
                  (S (S m)))
  ∧ wf (Store (F ++ [Tag m nm attrs [NavigableString (S m) PlainString s]])
          (S (S m))).
Proof.
  intros Hwf. split.
  - assert (m ∉ oids F) as Hm.
    { pose proof (wf_fresh _ 0 Hwf) as Hm. simpl in Hm.
      by rewrite Nat.add_0_r in Hm. }
    unfold set_string, clear.
    assert (clear m (Store (F ++ [Tag m nm attrs []]) (S m))
            = Ok ((), Store (F ++ [Tag m nm attrs []]) (S m))) as Hclear.
    { unfold clear.
      erewrite (bind_run _ _ _ (Tag m nm attrs [])); [done|].
      apply get_deref. cbn [objects]. rewrite deref_app_r by done.
      apply (deref_root_self (Tag m nm attrs [])). }
    erewrite bind_run by exact Hclear.
    by apply append_str_fresh.
  - eapply wf_alloc; [done| |lia].
    replace (S (S m) - m) with 2 by lia. done.
Qed.

(** [_diff_elements] on two elements: the store gains the new element and,
    parentless, the children of the copy. *)
Lemma diff_elements_store σ o (n : oid) O i nm a cs :
  wf σ →
  deref o (objects σ) = Some O →
  deref n (objects σ) = Some (Tag i nm a cs) →
  ∃ j cs',
    let E := Tag (next_oid σ) nm a
               [NavigableString j PlainString
                  (htmldiff (py_str O) (py_str (Tag i nm a cs)))] in
    _diff_elements (Some o) (Some n) σ
    = Ok (Element (next_oid σ), Store (objects σ ++ [E] ++ cs') (S j))
    ∧ wf (Store (objects σ ++ [E] ++ cs') (S j))
    ∧ next_oid σ ∉ oids (objects σ).
Proof.
  intros Hwf HO HN. destruct σ as [F k]. cbn [objects next_oid] in *.
  pose proof (wf_fresh _ 0 Hwf) as Hk. simpl in Hk.
  rewrite Nat.add_0_r in Hk.
  pose proof (relabel_spec (Tag i nm a cs) k) as (Hids & Hlt & _).
  rewrite relabel_Tag in Hids, Hlt.
  destruct (relabel_list cs (S k)) as [cs' m] eqn:Hr. cbn [fst snd] in *.
  assert (wf (Store (F ++ [Tag k nm a cs']) m)) as Hwf1.
  { eapply wf_alloc; [done|done|lia]. }
  assert (copy n (Store F k) = Ok (k, Store (F ++ [Tag k nm a cs']) m))
    as Hcopy.
  { unfold copy. erewrite bind_run by (by apply get_deref).
    cbn [next_oid objects]. by rewrite relabel_Tag, Hr. }
  assert (clear k (Store (F ++ [Tag k nm a cs']) m)
          = Ok ((), Store (F ++ [Tag k nm a []] ++ cs') m)) as Hclear.
  { unfold clear. erewrite bind_run.
    2:{ apply get_deref. cbn [objects]. rewrite deref_app_r by done.
        apply (deref_root_self (Tag k nm a cs')). }
    cbn [contents_of].
    pose proof (clear_loop F k nm a cs' [] m) as Hloop.
    rewrite !app_nil_r in Hloop. rewrite Hloop; [|done].
    by rewrite app_nil_l. }
  assert (wf (Store (F ++ [Tag k nm a []] ++ cs') m)) as Hwf2.
  { eapply wf_perm; [|exact Hwf1].
    rewrite !oids_app, !oids_singleton, !ids_Tag, (oids_bind cs').
    simpl. done. }
  set (s := htmldiff (py_str O) (py_str (Tag i nm a cs))).
  assert (append_str k s (Store (F ++ [Tag k nm a []] ++ cs') m)
          = Ok ((), Store (F ++ [Tag k nm a [NavigableString m PlainString s]]
                             ++ cs') (S m))) as Happ.
  { by rewrite (append_str_root F cs' k nm a [] s m Hwf2). }
  exists m, cs'. cbn zeta. split_and!; [| |done].
  - unfold _diff_elements.
    erewrite bind_run by exact Hcopy.
    erewrite bind_run by exact Hclear.
    erewrite bind_run.
    2:{ apply get_deref. cbn [objects]. rewrite deref_app_l; [done|].
        apply deref_Some in HO as [HO <-]. apply elem_of_oids. eauto. }
    erewrite bind_run.
    2:{ apply get_deref. cbn [objects]. rewrite deref_app_l; [done|].
        apply deref_Some in HN as [HN <-]. apply elem_of_oids. eauto. }
    by erewrite bind_run by exact Happ.
  - assert (wf (Store ((F ++ [Tag k nm a []] ++ cs')
                         ++ [NavigableString m PlainString s]) (S m)))
      as Hwf3.
    { eapply wf_alloc; [done| |lia]. replace (S m - m) with 1 by lia. done. }
    eapply wf_perm; [|exact Hwf3].
    rewrite !oids_app, !oids_singleton, !ids_Tag, ids_string.
    simpl. solve_Permutation.
Qed.

Lemma diff_elements_region σ nm (o n : option oid) :
  wf σ →
  (∀ i, o = Some i → is_Some (deref i (objects σ))) →
  (∀ i, n = Some i → ∃ j a cs, deref i (objects σ) = Some (Tag j nm a cs)) →
  ∃ d σ',
    _diff_elements o n σ = Ok (d, σ') ∧ wf σ'
    ∧ (∀ R, R ∈ objects σ → R ∈ objects σ')
    ∧ match d with
      | Markup _ => True
      | Element e =>
          (e ∉ oids (objects σ))
          ∧ ∃ a j s,
              Tag e nm a [NavigableString j PlainString s] ∈ objects σ'
      end.
Proof.
  intros Hwf Ho Hn. destruct o as [o|], n as [n|].
  2-4: by exists (Markup ""), σ.
  destruct (Ho o eq_refl) as [O HO].
  destruct (Hn n eq_refl) as (j & a & cs & HN).
  destruct (diff_elements_store σ o n O j nm a cs Hwf HO HN)
    as (j' & cs' & Hrun & Hwf' & Hfresh).
  cbn zeta in Hrun, Hwf'.
  eexists (Element (next_oid σ)), _.
  split; [exact Hrun|]. split; [done|]. split.
  - intros R HR. cbn [objects]. apply elem_of_app. by left.
  - split; [done|]. eexists a, j', _. cbn [objects].
    apply elem_of_app. right. apply elem_of_app. left. by left.
Qed.

Lemma pending_step (k : oid) nm σ σ' d (Q : node → Prop) :
  pending k nm σ d →
  (∀ R, R ∈ objects σ → oid_of R ≠ k → Q R → R ∈ objects σ') →
  (∀ e a j s, d = Element e →
              Q (Tag e nm a [NavigableString j PlainString s])) →
  pending k nm σ' d.
Proof.
  destruct d as [s|e]; [done|]. intros [Hek (a & j & s & HE)] Hroots HQ.
  split; [done|]. exists a, j, s. apply Hroots; [done|done|by apply HQ].
Qed.

(** The head and the body the splitter finds are children of [html]. *)
Lemma classify_all_head (l : list node) i :
  head_region (classify_all l) = Some i →
  ∃ x, x ∈ l ∧ is_named "head" x ∧ oid_of x = i.
Proof.
  intros Hr. pose proof (classify_all_regions l) as Hreg.
  destruct Hreg; cbn [head_region] in Hr; simplify_eq.
  - eexists. split_and!; [|done..]. apply elem_of_app. right. by left.
  - eexists. split_and!; [|done..]. apply elem_of_app. right. by left.
Qed.

Lemma classify_all_body (l : list node) i :
  body_region (classify_all l) = Some i →
  ∃ x, x ∈ l ∧ is_named "body" x ∧ oid_of x = i.
Proof.
  intros Hr. pose proof (classify_all_regions l) as Hreg.
  destruct Hreg; cbn [body_region] in Hr; simplify_eq.
  - eexists. split_and!; [|done..]. apply elem_of_app. right. right.
    apply elem_of_app. right. by left.
  - eexists. split_and!; [|done..]. apply elem_of_app. right. by left.
Qed.

(** *** The document and its [html] element *)

Lemma update_contents_list p f (l1 : list node) x l2 :
  NoDup ((l1 ++ x :: l2) ≫= ids) → p ∈ ids x →
  update_contents p f <$> (l1 ++ x :: l2)
  = l1 ++ update_contents p f x :: l2.
Proof.
  rewrite bind_app, bind_cons. intros (_ & Hd1 & Hnd)%NoDup_app Hp.
  apply NoDup_app in Hnd as (_ & Hd2 & _).
  rewrite fmap_app, fmap_cons.
  rewrite !update_contents_forest_id; [done|..]; rewrite oids_bind.
  - by apply Hd2.
  - intros Hin. apply (Hd1 p Hin). apply elem_of_app. by left.
Qed.

Lemma edited_list e l (l1 : list node) x l2 :
  NoDup ((l1 ++ x :: l2) ≫= ids) → e ∈ tree_child_oids x →
  (l1 ++ x :: l2) ≫= edited (at_oid e l)
  = l1 ++ edit (at_oid e l) x :: l2.
Proof.
  rewrite bind_app, bind_cons. intros (_ & Hd1 & Hnd)%NoDup_app He.
  apply NoDup_app in Hnd as (Hndx & Hd2 & _).
  assert (e ∈ ids x) as Hex by by apply tree_child_oids_ids.
  rewrite bind_app, bind_cons, !edited_at_absent.
  - f_equal. unfold edited, at_oid. rewrite decide_False; [done|].
    intros Heq. rewrite ids_perm in Hndx.
    apply NoDup_cons in Hndx as [Hx _]. apply Hx. by rewrite Heq.
  - by apply Hd2.
  - intros Hin. apply (Hd1 e Hin). apply elem_of_app. by left.
Qed.

Section Doc.
Variables (k : oid) (dn : string) (da : list (string * string)).
Variables (pre : list node) (h : oid) (a : list (string * string)).
Variable post : list node.
Hypothesis Hpre : Forall (λ n, is_string n) pre.
Hypothesis Hpost : Forall (λ n, is_string n) post.

Local Abbreviation document := (doc k dn da pre h a post).

Lemma ids_doc hs :
  ids (document hs)
  = k :: (pre ≫= ids) ++ (h :: hs ≫= ids) ++ (post ≫= ids).
Proof.
  unfold doc. by rewrite ids_Tag, bind_app, bind_cons, ids_Tag.
Qed.

Lemma html_in_doc hs : Tag h "html" a hs ∈ subtree_nodes (document hs).
Proof.
  apply descendants_subtree, (child_descendant _ (document hs)).
  apply elem_of_app. right. by left.
Qed.

Lemma child_in_doc hs c : c ∈ hs → c ∈ descendants (document hs).
Proof.
  intros Hc. eapply descendants_child; [|apply elem_of_app; right; by left].
  by apply (child_descendant c (Tag h "html" a hs)).
Qed.

Lemma update_contents_doc_html f hs :
  NoDup (ids (document hs)) → update_contents h f (document hs) = document (f hs).
Proof.
  intros Hnd. unfold doc in *. rewrite ids_Tag in Hnd.
  apply NoDup_cons in Hnd as [Hk Hnd].
  rewrite update_contents_Tag, decide_False.
  2:{ intros ->. apply Hk. rewrite bind_app, bind_cons, ids_Tag.
      apply elem_of_app. right. by left. }
  rewrite update_contents_list; [|done|rewrite ids_Tag; by left].
  by rewrite update_contents_Tag, decide_True.
Qed.

Lemma update_contents_doc_child p f hs1 x hs2 :
  NoDup (ids (document (hs1 ++ x :: hs2))) → p ∈ ids x →
  update_contents p f (document (hs1 ++ x :: hs2))
  = document (hs1 ++ update_contents p f x :: hs2).
Proof.
  intros Hnd Hp. unfold doc in *. rewrite ids_Tag in Hnd.
  apply NoDup_cons in Hnd as [Hk Hnd].
  assert (p ∈ (hs1 ++ x :: hs2) ≫= ids) as Hp'.
  { rewrite bind_app, bind_cons. apply elem_of_app. right.
    apply elem_of_app. by left. }
  assert (p ∈ ids (Tag h "html" a (hs1 ++ x :: hs2))) as Hph.
  { rewrite ids_Tag. by right. }
  rewrite update_contents_Tag, decide_False.
  2:{ intros ->. apply Hk. rewrite bind_app, bind_cons.
      apply elem_of_app. right. apply elem_of_app. by left. }
  rewrite update_contents_list by done.
  pose proof Hnd as Hnd'. rewrite bind_app, bind_cons in Hnd'.
  apply NoDup_app in Hnd' as (_ & _ & Hnd').
  apply NoDup_app in Hnd' as (Hndh & _ & _).
  rewrite ids_Tag in Hndh. apply NoDup_cons in Hndh as [Hh Hndh].
  rewrite update_contents_Tag, decide_False by (by intros ->).
  by rewrite update_contents_list.
Qed.

Lemma strings_no_tag nm (l : list node) :
  Forall (λ n, is_string n) l →
  filter (λ n, is_named nm n) (l ≫= subtree_nodes) = [].
Proof.
  intros Hl. apply filter_none. intros x (s & Hx & Hs)%list_elem_of_bind.
  rewrite Forall_forall in Hl. specialize (Hl s Hs).
  destruct s; [done|]. apply list_elem_of_singleton in Hx as ->. by intros [].
Qed.

Lemma doc_find_html hs :
  head (filter (λ n, is_named "html" n) (descendants (document hs)))
  = Some (Tag h "html" a hs).
Proof using Hpre.
  unfold descendants, doc. cbn [contents_of].
  rewrite bind_app, bind_cons, filter_app, strings_no_tag by done.
  rewrite subtree_nodes_unfold, app_nil_l. cbn [app].
  by rewrite filter_cons_True.
Qed.

Lemma doc_heads hs :
  filter (λ n, is_named "head" n) (descendants (document hs))
  = filter (λ n, is_named "head" n) (hs ≫= subtree_nodes).
Proof using Hpre Hpost.
  unfold descendants at 1, doc. cbn [contents_of].
  rewrite bind_app, bind_cons, !filter_app, !strings_no_tag by done.
  rewrite subtree_nodes_unfold, app_nil_l, app_nil_r.
  by rewrite filter_cons_False by (by intros []).
Qed.

(** [soup.html] *)
Lemma soup_html_doc σ hs attribute :
  wf σ → document hs ∈ objects σ →
  soup_html k attribute σ = Ok (h, σ).
Proof using Hpre.
  intros Hwf HT. unfold soup_html.
  destruct (find_tag_Some k "html" σ (document hs) (Tag h "html" a hs) Hwf)
    as [Hfind _]; [by apply (root_deref _ (document hs))|apply doc_find_html|].
  by erewrite bind_run by exact Hfind.
Qed.

(** [soup.html.clear()] *)
Lemma clear_html_loop hs :
  ∀ σ, wf σ → document hs ∈ objects σ →
    ∃ σ',
      for_each (oid_of <$> hs) extract σ = Ok ((), σ')
      ∧ wf σ' ∧ next_oid σ' = next_oid σ
      ∧ document [] ∈ objects σ'
      ∧ (∀ R, R ∈ objects σ → oid_of R ≠ k → R ∈ objects σ').
Proof.
  induction hs as [|c hs IH]; intros σ Hwf HT.
  { exists σ. by split_and!. }
  pose proof (proj1 Hwf) as Hnd.
  pose proof (NoDup_ids_root _ _ Hnd HT) as HndT.
  assert (oid_of c ∈ child_oids (objects σ)) as Hc.
  { eapply root_descendant_child; [exact HT|]. apply child_in_doc. by left. }
  destruct (extract_child σ (oid_of c) Hwf Hc) as (E & HE & Hrun).
  assert (E = c) as ->.
  { rewrite deref_unique in HE; [congruence|done|].
    apply (all_nodes_closed _ _ (document (c :: hs)));
      [by apply root_in_all_nodes|].
    apply descendants_subtree, child_in_doc. by left. }
  destruct (extract_wf σ (oid_of c) () _ Hwf Hrun) as (Hwf1 & Hnext & _).
  cbn [next_oid] in Hnext.
  assert (edit (at_oid (oid_of c) []) (document (c :: hs)) = document hs) as Hedit.
  { unfold doc in *. rewrite edit_Tag.
    rewrite ids_Tag in HndT. apply NoDup_cons in HndT as [_ HndT].
    rewrite edited_list; [|done|].
    2:{ rewrite tree_child_oids_Tag. apply elem_of_app. left. by left. }
    do 3 f_equal. apply edit_remove_first_child.
    rewrite bind_app, bind_cons, ids_Tag, bind_cons in HndT.
    apply NoDup_app in HndT as (_ & _ & HndT).
    apply NoDup_app in HndT as (HndT & _ & _).
    apply NoDup_cons in HndT as [_ HndT].
    apply NoDup_app in HndT as (_ & Hdisj & _).
    apply Hdisj, oid_in_ids. }
  destruct (IH _ Hwf1) as (σ' & Hrun' & Hwf' & Hnext' & HT' & Hroots).
  { cbn [objects]. apply elem_of_app. left.
    rewrite <-Hedit. by apply list_elem_of_fmap_2. }
  exists σ'. split_and!; [|done|by rewrite Hnext'|done|].
  - rewrite fmap_cons. cbn [for_each].
    by erewrite bind_run by exact Hrun.
  - intros R HR HRk. apply Hroots; [|done]. cbn [objects].
    apply elem_of_app. left.
    rewrite <-(edit_at_absent (oid_of c) [] R).
    + by apply list_elem_of_fmap_2.
    + intros Hin%tree_child_oids_ids.
      apply (roots_disjoint (objects σ) (document (c :: hs)) R (oid_of c));
        [done|done|done|by intros Heq| |done].
      apply elem_of_ids. exists c. split; [|done].
      apply descendants_subtree, child_in_doc. by left.
Qed.

Lemma clear_html σ hs :
  wf σ → document hs ∈ objects σ →
  ∃ σ',
    clear h σ = Ok ((), σ')
    ∧ wf σ' ∧ next_oid σ' = next_oid σ
    ∧ document [] ∈ objects σ'
    ∧ (∀ R, R ∈ objects σ → oid_of R ≠ k → R ∈ objects σ').
Proof.
  intros Hwf HT.
  destruct (clear_html_loop hs σ Hwf HT) as (σ' & Hrun & Hrest).
  exists σ'. split; [|done]. unfold clear.
  erewrite (bind_run _ _ _ (Tag h "html" a hs)); [exact Hrun|].
  apply get_deref, (deref_unique _ (Tag h "html" a hs) (proj1 Hwf)).
  apply (all_nodes_closed _ _ (document hs)); [by apply root_in_all_nodes|].
  apply html_in_doc.
Qed.

(** [soup.html.append(s)], [soup.html.append(E)] and
    [soup.html.insert(0, E)] *)
Lemma html_append_str σ hs s :
  wf σ → document hs ∈ objects σ →
  ∃ σ',
    (let* html := soup_html k "append" in append_content html (Markup s)) σ
    = Ok ((), σ')
    ∧ wf σ' ∧ next_oid σ' = S (next_oid σ)
    ∧ document (hs ++ [NavigableString (next_oid σ) PlainString s])
      ∈ objects σ'
    ∧ (∀ R, R ∈ objects σ → oid_of R ≠ k → R ∈ objects σ').
Proof using Hpre.
  intros Hwf HT.
  destruct (append_str_tag σ h "html" a hs s (document hs) Hwf HT
              (html_in_doc hs)) as (σ' & Hrun & Hwf' & Hnext & HT' & Hroots).
  rewrite update_contents_doc_html, list_insert_at_end in HT'
    by (by eapply NoDup_ids_root; [apply Hwf|]).
  exists σ'. split_and!; [|done..].
  by erewrite bind_run by (by eapply soup_html_doc).
Qed.

Lemma html_append_element σ hs e E :
  wf σ → document hs ∈ objects σ → E ∈ objects σ → oid_of E = e → e ≠ k →
  ∃ σ',
    (let* html := soup_html k "append" in append_content html (Element e)) σ
    = Ok ((), σ')
    ∧ wf σ' ∧ next_oid σ' = next_oid σ
    ∧ document (hs ++ [E]) ∈ objects σ'
    ∧ (∀ R, R ∈ objects σ → oid_of R ≠ k → oid_of R ≠ e → R ∈ objects σ').
Proof using Hpre.
  intros Hwf HT HE He Hek.
  destruct (append_root σ h "html" a hs e E (document hs) Hwf HT
              (html_in_doc hs) HE He)
    as (σ' & Hrun & Hwf' & Hnext & HT' & Hroots); [by intros Heq|].
  rewrite update_contents_doc_html, list_insert_at_end in HT'
    by (by eapply NoDup_ids_root; [apply Hwf|]).
  exists σ'. split_and!; [|done..].
  by erewrite bind_run by (by eapply soup_html_doc).
Qed.

Lemma html_insert_first σ hs e E :
  wf σ → document hs ∈ objects σ → E ∈ objects σ → oid_of E = e → e ≠ k →
  ∃ σ',
    (let* html := soup_html k "insert" in insert html 0 e) σ = Ok ((), σ')
    ∧ wf σ' ∧ next_oid σ' = next_oid σ
    ∧ document (E :: hs) ∈ objects σ'
    ∧ (∀ R, R ∈ objects σ → oid_of R ≠ k → oid_of R ≠ e → R ∈ objects σ').
Proof using Hpre.
  intros Hwf HT HE He Hek.
  destruct (insert_root σ h "html" a hs 0 e E (document hs) Hwf HT
              (html_in_doc hs) HE He)
    as (σ' & Hrun & Hwf' & Hnext & HT' & Hroots); [by intros Heq|].
  rewrite update_contents_doc_html in HT'
    by (by eapply NoDup_ids_root; [apply Hwf|]).
  exists σ'. split_and!; [|done..].
  by erewrite bind_run by (by eapply soup_html_doc).
Qed.

(** [soup.head] and [soup.head.append(E)] *)
Lemma find_head σ hs :
  wf σ → document hs ∈ objects σ →
  find_tag k "head" σ
  = Ok (oid_of <$> head (filter (λ n, is_named "head" n)
                           (hs ≫= subtree_nodes)), σ).
Proof using Hpre Hpost.
  intros Hwf HT. unfold find_tag.
  erewrite bind_run
    by (apply get_deref; by apply (root_deref _ (document hs))).
  by rewrite doc_heads.
Qed.

Lemma head_append σ hs1 hd hn ha hcs hs2 e E :
  wf σ → document (hs1 ++ Tag hd hn ha hcs :: hs2) ∈ objects σ →
  E ∈ objects σ → oid_of E = e → e ≠ k →
  ∃ σ',
    append hd e σ = Ok ((), σ')
    ∧ wf σ' ∧ next_oid σ' = next_oid σ
    ∧ document (hs1 ++ Tag hd hn ha (hcs ++ [E]) :: hs2) ∈ objects σ'.
Proof.
  intros Hwf HT HE He Hek.
  destruct (append_root σ hd hn ha hcs e E
              (document (hs1 ++ Tag hd hn ha hcs :: hs2)) Hwf HT)
    as (σ' & Hrun & Hwf' & Hnext & HT' & _); [|done|done|by intros Heq|].
  { apply descendants_subtree, child_in_doc, elem_of_app. right. by left. }
  rewrite update_contents_doc_child in HT'.
  - rewrite update_contents_Tag, decide_True, list_insert_at_end in HT'
      by done.
    by exists σ'.
  - by eapply NoDup_ids_root; [apply Hwf|].
  - rewrite ids_Tag. by left.
Qed.

Lemma html_append_content σ hs d nm :
  wf σ → document hs ∈ objects σ → pending k nm σ d →
  ∃ σ' x,
    (let* html := soup_html k "append" in append_content html d) σ
    = Ok ((), σ')
    ∧ wf σ' ∧ document (hs ++ [x]) ∈ objects σ'
    ∧ match d with Markup _ => is_string x | Element _ => diff_node nm x end
    ∧ (∀ R, R ∈ objects σ → oid_of R ≠ k →
            match d with Markup _ => True | Element e => oid_of R ≠ e end →
            R ∈ objects σ').
Proof using Hpre.
  intros Hwf HT Hd. destruct d as [s|e].
  - destruct (html_append_str σ hs s Hwf HT)
      as (σ' & Hrun & Hwf' & _ & HT' & Hroots).
    eexists σ', _. split_and!; [exact Hrun|done|exact HT'|done|].
    intros R HR HRk _. by apply Hroots.
  - destruct Hd as [Hek (a' & j & s & HE)].
    destruct (html_append_element σ hs e _ Hwf HT HE eq_refl Hek)
      as (σ' & Hrun & Hwf' & _ & HT' & Hroots).
    eexists σ', _. split_and!; [exact Hrun|done|exact HT'| |done].
    right. by eexists _, _, _, _.
Qed.

Lemma headless_string x : is_string x → headless [x].
Proof.
  intros Hx. apply strings_no_tag. by constructor.
Qed.

Lemma headless_diff_body x : diff_node "body" x → headless [x].
Proof.
  intros [Hx|(e & a' & j & s & ->)]; [by apply headless_string|done].
Qed.

Lemma headless_app (l1 l2 : list node) :
  headless l1 → headless l2 → headless (l1 ++ l2).
Proof.
  unfold headless. intros H1 H2. by rewrite bind_app, filter_app, H1, H2.
Qed.

Lemma headless_cons x (l : list node) :
  headless [x] → headless l → headless (x :: l).
Proof. apply (headless_app [x] l). Qed.

Lemma filter_head_first (hs1 : list node) hd ha hcs hs2 :
  headless hs1 →
  head (filter (λ n, is_named "head" n)
          ((hs1 ++ Tag hd "head" ha hcs :: hs2) ≫= subtree_nodes))
  = Some (Tag hd "head" ha hcs).
Proof.
  intros H1. rewrite bind_app, filter_app, H1, bind_cons.
  by rewrite subtree_nodes_unfold, app_nil_l.
Qed.

(** [if not soup.head: soup.html.insert(0, soup.new_tag('head'))] *)
Lemma ensure_head σ x0 x1 x2 x3 x4 :
  wf σ → document [x0; x1; x2; x3; x4] ∈ objects σ →
  is_string x0 → diff_node "head" x1 → is_string x2 →
  diff_node "body" x3 → is_string x4 →
  ∃ hopt σ' hs1 hd ha hcs hs2,
    find_tag k "head" σ = Ok (hopt, σ)
    ∧ match hopt with
      | None =>
          let* head := new_tag "head" [] in
          let* html := soup_html k "insert" in
          insert html 0 head
      | Some _ => ret ()
      end σ = Ok ((), σ')
    ∧ wf σ'
    ∧ document (hs1 ++ Tag hd "head" ha hcs :: hs2) ∈ objects σ'
    ∧ headless hs1 ∧ headless hs2 ∧ Forall (λ n, is_string n) hcs.
Proof using Hpre Hpost.
  intros Hwf HT H0 H1 H2 H3 H4.
  pose proof (find_head σ _ Hwf HT) as Hfind.
  assert (headless [x2; x3; x4]) as H234.
  { apply headless_cons; [by apply headless_string|].
    apply headless_cons; [by apply headless_diff_body|].
    by apply headless_string. }
  destruct H1 as [H1|(e & a' & j & s & ->)].
  - assert (headless [x0; x1; x2; x3; x4]) as Hall.
    { apply headless_cons; [by apply headless_string|].
      apply headless_cons; [by apply headless_string|done]. }
    unfold headless in Hall. rewrite Hall in Hfind. cbn in Hfind.
    destruct σ as [F m]. cbn [objects next_oid] in *.
    set (E := Tag m "head" [] []).
    assert (wf (Store (F ++ [E]) (S m))) as Hwf1.
    { eapply wf_alloc; [done| |lia]. replace (S m - m) with 1 by lia. done. }
    assert (m ≠ k) as Hmk.
    { intros ->. pose proof (wf_fresh _ 0 Hwf) as Hk. simpl in Hk.
      rewrite Nat.add_0_r in Hk. apply Hk.
      eapply ids_subseteq_oids; [exact HT|]. unfold doc. rewrite ids_Tag.
      by left. }
    destruct (html_insert_first (Store (F ++ [E]) (S m))
                [x0; x1; x2; x3; x4] m E Hwf1)
      as (σ' & Hrun & Hwf' & _ & HT' & _); [| |done|done|].
    { apply elem_of_app. by left. }
    { apply elem_of_app. right. by left. }
    exists None, σ', [], m, [], [], [x0; x1; x2; x3; x4].
    split_and!; [done| |done|exact HT'|done| |done].
    + by erewrite bind_run by apply new_tag_run.
    + apply headless_cons; [by apply headless_string|].
      apply headless_cons; [by apply headless_string|done].
  - pose proof (filter_head_first [x0] e a'
                  [NavigableString j PlainString s] [x2; x3; x4]
                  (headless_string x0 H0)) as Hfirst.
    cbn [app] in Hfirst. rewrite Hfirst in Hfind.
    exists (Some e), σ, [x0], e, a', [NavigableString j PlainString s],
      [x2; x3; x4].
    split_and!; [done|done|done|exact HT|by apply headless_string|done|].
    by repeat constructor.
Qed.

(** The stylesheet element is made and appended to the head. *)
Lemma inject_style σ hs1 hd ha hcs hs2 :
  wf σ → document (hs1 ++ Tag hd "head" ha hcs :: hs2) ∈ objects σ →
  headless hs1 →
  ∃ σ1 σ2 σ',
    new_tag "style" [("type", "text/css")] σ = Ok (next_oid σ, σ1)
    ∧ set_string (next_oid σ) CHANGE_STYLES σ1 = Ok ((), σ2)
    ∧ find_tag k "head" σ2 = Ok (Some hd, σ2)
    ∧ append hd (next_oid σ) σ2 = Ok ((), σ')
    ∧ wf σ'
    ∧ document
        (hs1 ++ Tag hd "head" ha
                  (hcs ++ [style_element (next_oid σ) (S (next_oid σ))])
             :: hs2)
      ∈ objects σ'.
Proof using Hpre Hpost.
  intros Hwf HT H1. destruct σ as [F m]. cbn [objects next_oid] in *.
  destruct (set_string_fresh F m "style" [("type", "text/css")]
              CHANGE_STYLES Hwf) as [Hset Hwf2].
  set (σ2 := Store (F ++ [style_element m (S m)]) (S (S m))).
  assert (document (hs1 ++ Tag hd "head" ha hcs :: hs2) ∈ objects σ2)
    as HT2 by (apply elem_of_app; by left).
  assert (m ≠ k) as Hmk.
  { intros ->. pose proof (wf_fresh _ 0 Hwf) as Hk. simpl in Hk.
    rewrite Nat.add_0_r in Hk. apply Hk.
    eapply ids_subseteq_oids; [exact HT|]. unfold doc. rewrite ids_Tag.
    by left. }
  destruct (head_append σ2 hs1 hd "head" ha hcs hs2 m
              (style_element m (S m)) Hwf2 HT2)
    as (σ' & Hrun & Hwf' & _ & HT'); [|done|done|].
  { apply elem_of_app. right. by left. }
  eexists _, σ2, σ'. split_and!; [apply new_tag_run|exact Hset| |done..].
  rewrite (find_head σ2 _ Hwf2 HT2). by rewrite filter_head_first.
Qed.

Lemma one_head (hs1 : list node) hd ha hcs hs2 j j' :
  headless hs1 → headless hs2 → Forall (λ n, is_string n) hcs →
  filter (λ n, is_named "head" n)
    (descendants
       (document (hs1 ++ Tag hd "head" ha (hcs ++ [style_element j j'])
                    :: hs2)))
  = [Tag hd "head" ha (hcs ++ [style_element j j'])].
Proof using Hpre Hpost.
  intros H1 H2 Hcs. rewrite doc_heads, bind_app, filter_app, H1, bind_cons.
  rewrite filter_app, H2, app_nil_l, app_nil_r.
  rewrite subtree_nodes_unfold, filter_cons_True by done. f_equal.
  unfold descendants. cbn [contents_of].
  by rewrite bind_app, filter_app, strings_no_tag.
Qed.

End Doc.

Lemma doc_oid_in_oids σ k dn da pre h a post hs :
  doc k dn da pre h a post hs ∈ objects σ → k ∈ oids (objects σ).
Proof.
  intros HT. eapply ids_subseteq_oids; [exact HT|].
  unfold doc. rewrite ids_Tag. by left.
Qed.

Lemma doc_child_deref σ k dn da pre h a post hs x :
  wf σ → doc k dn da pre h a post hs ∈ objects σ → x ∈ hs →
  deref (oid_of x) (objects σ) = Some x.
Proof.
  intros Hwf HT Hx. apply deref_unique; [apply Hwf|].
  apply (all_nodes_closed _ _ (doc k dn da pre h a post hs));
    [by apply root_in_all_nodes|].
  by apply descendants_subtree, child_in_doc.
Qed.


End Render.

(* ===================================================================== *)
(** * Part VII: the theorems on sample inputs                            *)
(* ===================================================================== *)

Lemma wf_script_document : wf script_document.
Proof. apply (bool_decide_unpack _). by vm_compute. Qed.

Lemma wf_marked_div_document : wf marked_div_document.
Proof. apply (bool_decide_unpack _). by vm_compute. Qed.

Lemma wf_two_heads : wf two_heads.
Proof. apply (bool_decide_unpack _). by vm_compute. Qed.

Lemma wf_empty_store : wf empty_store.
Proof. apply (bool_decide_unpack _). by vm_compute. Qed.

(** Restoring the document with one placeholder from the empty table. *)
Lemma add_undiffable_content_orphan_placeholder :
  wf orphan_placeholder_document
  ∧ _add_undiffable_content 0 ∅ orphan_placeholder_document
    = Raise (KeyError "old-0").
Proof.
  split; [apply wf_orphan_placeholder_document|].
  eapply (add_undiffable_content_missing_id_raises
            orphan_placeholder_document 0 _ _ _ "old-0" ∅).
  - apply wf_orphan_placeholder_document.
  - reflexivity.
  - reflexivity.
  - reflexivity.
  - reflexivity.
Defined.

(** The round trip on a document with a style and a script element. *)
Lemma shield_unshield_script_document :
  wf script_document ∧ unmarked script_document_tree
  ∧ unnested script_document_tree
  ∧ ∃ σ',
      shield_unshield 0 "old" script_document = Ok (0, σ')
      ∧ deref 0 (objects σ') = Some script_document_tree
      ∧ objects σ'
        = objects script_document
            ++ imap (placeholder_of (next_oid script_document) "old")
                 (filter (λ n, name_in UNDIFFABLE n)
                    (descendants script_document_tree))
      ∧ select_attr 0 ATTR σ' = Ok ([], σ').
Proof.
  assert (unmarked script_document_tree) as Hm.
  { apply (bool_decide_unpack _). by vm_compute. }
  assert (unnested script_document_tree) as Hn.
  { apply (bool_decide_unpack _). by vm_compute. }
  split_and!; [apply wf_script_document|done|done|].
  apply (shield_unshield_roundtrip script_document 0 script_document_tree
           "old"); [apply wf_script_document|by left|done|done|done].
Defined.

(** The round trip on a document that already carries the marker
    attribute: the [div] is lost, and the result differs from the original
    even up to object identity. *)
Lemma shield_unshield_loses_marked_div :
  wf marked_div_document
  ∧ ∃ T σ' T',
      deref 0 (objects marked_div_document) = Some T
      ∧ filter (λ n, name_in UNDIFFABLE n) (descendants T) ≠ []
      ∧ shield_unshield 0 "old" marked_div_document = Ok (0, σ')
      ∧ deref 0 (objects σ') = Some T'
      ∧ strip_ids T' ≠ strip_ids T.
Proof.
  split; [apply wf_marked_div_document|].
  eexists _, _, _. split_and!.
  - reflexivity.
  - by vm_compute.
  - by vm_compute.
  - by vm_compute.
  - by vm_compute.
Qed.

(** The regions of the document with a head and a body. *)
Lemma find_meaningful_nodes_script_document :
  wf script_document
  ∧ deref 0 (objects script_document) = Some script_document_tree
  ∧ ∃ r, _find_meaningful_nodes (H := sample_collaborators) 0
           script_document = Ok (r, script_document)
         ∧ regions_of (H := sample_collaborators)
             (contents_of script_document_html) r.
Proof.
  split_and!; [apply wf_script_document|done|].
  apply (find_meaningful_nodes_regions (H := sample_collaborators)
           script_document 0 script_document_tree script_document_html);
    [apply wf_script_document|reflexivity|reflexivity].
Defined.


(** The codes of a deletion followed by an insertion. *)
Lemma compute_dmp_diff_sample :
  dmp_changes (H := sample_collaborators) (PyStr "a") (PyStr "b") 4
  = Ok [("-", PyStr "a"); ("+", PyStr "b")]
  ∧ compute_dmp_diff (H := sample_collaborators) (PyStr "a") (PyStr "b") 4
    = Ok [((-1)%Z, PyStr "a"); (1%Z, PyStr "b")].
Proof.
  split; [reflexivity|].
  destruct (compute_dmp_diff_translates_tags (H := sample_collaborators)
              (PyStr "a") (PyStr "b") 4
              [("-", PyStr "a"); ("+", PyStr "b")] eq_refl) as (_ & _ & _).
  reflexivity.
Defined.

(** Rendering the diff of the empty string against a paragraph. *)
Lemma html_diff_render_empty_input :
  wf empty_store
  ∧ parses_without_html (H := sample_collaborators) ""
  ∧ html_diff_render (H := sample_collaborators) "" "x" empty_store
    = Raise NO_CHILDREN.
Proof.
  assert (parses_without_html (H := sample_collaborators) "") as Hno
    by constructor.
  split_and!; [apply wf_empty_store|done|].
  apply (html_diff_render_requires_html (H := sample_collaborators) "" "x"
           empty_store); [apply wf_empty_store|by left].
Defined.

(** The visible text of a paragraph with three line ends in a row. *)
Lemma get_visible_text_sample :
  wf empty_store
  ∧ ∃ σ',
      _get_visible_text (H := sample_collaborators)
        (" a" +:+ newline +:+ " " +:+ newline +:+ newline +:+ "b ")
        empty_store
      = Ok ("a" +:+ newline +:+ newline +:+ "b", σ').
Proof.
  split; [apply wf_empty_store|].
  apply (get_visible_text_fragments (H := sample_collaborators)
           (" a" +:+ newline +:+ " " +:+ newline +:+ newline +:+ "b ")
           empty_store wf_empty_store).
Defined.



(* ===================================================================== *)
(** * Part VIII: further properties of the module                       *)
(* ===================================================================== *)

(** ** The diff engine's tags *)

Section EngineTags.
Context `{Collaborators}.

Lemma result_map_first_raise {A B} (f : A → result B) pre c rest e :
  Forall (λ x, ∃ y, f x = Ok y) pre → f c = Raise e →
  result_map f (pre ++ c :: rest) = Raise e.
Proof.
  intros Hpre Hc. induction Hpre as [|x pre [y Hy] _ IH]; simpl.
  - by rewrite Hc.
  - by rewrite Hy, IH.
Qed.

Lemma diff_codes_unknown tag :
  tag ∉ ["="; "-"; "+"] → diff_codes !! tag = None.
Proof.
  rewrite !not_elem_of_cons. intros (? & ? & ? & _).
  unfold diff_codes. by simplify_map_eq.
Qed.

(** X1: when the diff engine reports a change whose tag is none of '=',
    '-', '+', [compute_dmp_diff] raises [KeyError] for the first such
    tag: the translation through [diff_codes] has no default. *)
Theorem compute_dmp_diff_unknown_tag a b tl pre c rest :
  dmp_changes a b tl = Ok (pre ++ c :: rest) →
  Forall (λ change, change.1 ∈ ["="; "-"; "+"]) pre →
  c.1 ∉ ["="; "-"; "+"] →
  compute_dmp_diff a b tl = Raise (KeyError c.1).
Proof.
  unfold compute_dmp_diff. intros -> Hpre Hc. simpl.
  apply result_map_first_raise.
  - eapply Forall_impl; [exact Hpre|].
    intros [tag seg] Htag. simpl in *.
    rewrite !elem_of_cons, elem_of_nil in Htag.
    destruct Htag as [-> | [-> | [-> | []]]]; by eexists.
  - unfold dict_getitem. by rewrite diff_codes_unknown.
Qed.

End EngineTags.

(** ** Text extraction *)

Section MoreVisibleText.
Context `{Collaborators}.
Implicit Types (σ : store) (F : list node) (t c n : node) (D L : list oid).

Lemma without_nil_forest F : without [] <$> F = F.
Proof.
  rewrite <-(list_fmap_id F) at 2. apply list_fmap_ext.
  intros _ t _. simpl. by rewrite without_nil.
Qed.

(** [_get_text]: the document is parsed, its comments are taken out, and
    the strings that are left are returned in document order. *)
Lemma get_text_run html σ :
  wf σ →
  ∃ cs D σ',
    let T := Tag (next_oid σ) "[document]" [] cs in
    _get_text html σ
    = Ok (oid_of <$> filter (λ c, is_string c) (descendants (without D T)),
          σ')
    ∧ wf σ'
    ∧ strip_ids <$> cs = strip_ids <$> lxml_parse html
    ∧ without D T ∈ objects σ'
    ∧ (∀ c, c ∈ subtree_nodes T → oid_of c ∈ D ↔ is_comment c).
Proof.
  intros Hwf.
  destruct (BeautifulSoup_run html σ Hwf) as (cs & m & Hsoup & Hwf1 & Hcs & _).
  set (k := next_oid σ) in *.
  set (T := Tag k "[document]" [] cs) in *. cbn zeta in Hsoup, Hwf1.
  set (F1 := objects σ ++ [T]) in *.
  assert (T ∈ F1) as HT by (apply elem_of_app; right; by left).
  set (L := oid_of <$> filter (λ n, is_comment n) (descendants T)).
  destruct (comments_pass F1 m T Hwf1 HT L [] [])
    as (D & removed & Hpass & Hwf2 & HD).
  { intros e (c & -> & [Hc Hin]%list_elem_of_filter)%list_elem_of_fmap.
    exists c. split_and!; [done| |done]. by destruct c as [|j [] s]. }
  { by intros e []%elem_of_nil. }
  { apply (NoDup_root_descendants F1); [apply Hwf1|done]. }
  { intros e _. apply not_elem_of_nil. }
  { constructor. }
  { by rewrite app_nil_r, without_nil_forest. }
  rewrite app_nil_r, without_nil_forest in Hpass.
  set (σ2 := Store ((without D <$> F1) ++ removed) m) in *.
  assert (without D T ∈ objects σ2) as HT2.
  { apply elem_of_app. left. by apply list_elem_of_fmap_2. }
  assert (deref k (objects σ2) = Some (without D T)) as Hderef.
  { change k with (oid_of T). rewrite <-(without_oid D T).
    by apply root_deref. }
  exists cs, D, σ2. cbn zeta. fold T. split_and!; [|done|done|done|].
  - unfold _get_text.
    erewrite bind_run by exact Hsoup.
    erewrite bind_run.
    2:{ unfold find_all_comments.
        erewrite bind_run by (apply get_deref; by apply (root_deref _ T)).
        reflexivity. }
    erewrite bind_run by exact Hpass.
    unfold find_all_text.
    by erewrite bind_run by (apply get_deref; exact Hderef).
  - intros c Hc. rewrite HD. split.
    + intros [(c' & Hoid & [Hcc Hc']%list_elem_of_filter)%list_elem_of_fmap|
              []%elem_of_nil].
      assert (c = c') as ->; [|done].
      apply (node_unique F1); [apply Hwf1| | |done].
      * eapply all_nodes_closed; [by apply root_in_all_nodes|done].
      * eapply all_nodes_closed; [by apply root_in_all_nodes|].
        by apply descendants_subtree.
    + intros Hcc. left. apply list_elem_of_fmap_2, list_elem_of_filter.
      split; [done|]. rewrite subtree_nodes_unfold in Hc.
      apply elem_of_cons in Hc as [->|Hc]; [done|done].
Qed.

(** [_get_visible_text] returns for every markup, and leaves a well-formed
    store. *)
Lemma get_visible_text_run html σ :
  wf σ →
  ∃ σ', _get_visible_text html σ = Ok (visible_text_of html, σ') ∧ wf σ'.
Proof.
  intros Hwf.
  destruct (get_text_run html σ Hwf)
    as (cs & D & σ2 & Hrun & Hwf2 & Hcs & HT2 & HDc).
  cbn zeta in *. set (T := Tag (next_oid σ) "[document]" [] cs) in *.
  set (texts := filter (λ c, is_string c) (descendants (without D T))) in *.
  exists σ2. split; [|done]. unfold _get_visible_text.
  erewrite bind_run by exact Hrun.
  assert (∀ c, c ∈ texts → c ∈ all_nodes (objects σ2)
                           ∧ oid_of c ∈ child_oids (objects σ2)) as Htexts.
  { intros c [_ Hc]%list_elem_of_filter. split.
    - eapply all_nodes_closed; [by apply root_in_all_nodes|].
      by apply descendants_subtree.
    - by eapply root_descendant_child. }
  erewrite bind_run.
  2:{ apply (filter_M_nodes _ (λ c, visible_in (objects σ2) (oid_of c))).
      intros c Hc. apply is_visible_run; [done|by apply Htexts..]. }
  erewrite bind_run.
  2:{ apply (map_M_nodes _ py_str). intros c [_ Hc]%list_elem_of_filter.
      erewrite bind_run; [reflexivity|].
      apply get_deref, deref_unique; [apply Hwf2|by apply Htexts]. }
  unfold ret, visible_text_of. do 3 f_equal. rewrite re_sub_collapses.
  do 2 f_equal. unfold texts.
  rewrite (visible_strings σ2 (without D T) Hwf2);
    [|by apply root_in_all_nodes|by apply without_no_comment].
  change (contents_of (without D T)
            ≫= visible_text (default "" (name_of (without D T))))
    with (visible_text "" (without D T)).
  rewrite visible_text_without; [|done|exact id].
  rewrite <-(visible_fragments_strip_ids cs) by done. done.
Qed.

Lemma text_items_Tag i nm a cs : text_items (Tag i nm a cs) = cs ≫= text_items.
Proof. done. Qed.

Lemma text_items_strings t :
  filter (λ c, is_string c) (subtree_nodes t) ≫= text_items = text_items t.
Proof.
  induction t as [i nm a cs IH|i k s] using node_ind'.
  - rewrite subtree_nodes_unfold, filter_cons_False by (by intros []).
    unfold descendants. cbn [contents_of].
    rewrite filter_bind, bind_bind, text_items_Tag.
    by apply Forall_bind_ext.
  - rewrite subtree_nodes_unfold, filter_cons_True by done.
    change (descendants (NavigableString i k s)) with (@nil node).
    by rewrite filter_nil, bind_cons, app_nil_r.
Qed.

Lemma text_items_without D t :
  (∀ c, c ∈ subtree_nodes t → oid_of c ∈ D ↔ is_comment c) →
  text_items (without D t) = text_items t.
Proof.
  induction t as [i nm a cs IH|i k s] using node_ind'; [|done].
  intros HD. rewrite without_Tag, !text_items_Tag, bind_bind.
  apply Forall_bind_ext. rewrite Forall_forall in IH |- *. intros c Hc.
  assert (c ∈ subtree_nodes (Tag i nm a cs)) as Hcs.
  { apply descendants_subtree. by apply (child_descendant c (Tag i nm a cs)). }
  destruct (decide (oid_of c ∈ D)) as [Hin|Hout].
  - rewrite edited_without_in by done.
    apply HD in Hin; [|done]. by destruct c as [|j [] s].
  - rewrite edited_without_out, bind_singleton by done.
    apply IH; [done|].
    intros d Hd. apply HD. by eapply subtree_nodes_trans.
Qed.

Lemma text_items_strip_ids t : text_items (strip_ids t) = text_items t.
Proof.
  induction t as [i nm a cs IH|i k s] using node_ind'; [|done].
  cbn [strip_ids]. rewrite !text_items_Tag.
  induction IH as [|c cs' Hc _ IH']; [done|].
  by rewrite fmap_cons, !bind_cons, Hc, IH'.
Qed.

Lemma text_items_strip_list (cs cs' : list node) :
  strip_ids <$> cs = strip_ids <$> cs' →
  cs ≫= text_items = cs' ≫= text_items.
Proof.
  revert cs'. induction cs as [|c cs IH]; intros [|c' cs'] Heq; try done.
  rewrite !fmap_cons in Heq. injection Heq as Hc Hcs.
  rewrite !bind_cons, (IH cs') by done. f_equal.
  by rewrite <-(text_items_strip_ids c), Hc, text_items_strip_ids.
Qed.

Lemma string_at_items F (l : list node) :
  (∀ c, c ∈ l → is_string c ∧ ¬ is_comment c
                ∧ deref (oid_of c) F = Some c) →
  string_at F <$> (oid_of <$> l) = Some <$> (l ≫= text_items).
Proof.
  induction l as [|c l IH]; intros Hl; [done|].
  rewrite !fmap_cons, bind_cons, fmap_app, IH
    by (intros c' Hc'; apply Hl; by right).
  destruct (Hl c) as (Hs & Hc & Hd); [by left|].
  unfold string_at at 1. rewrite Hd.
  destruct c as [|j cls s]; [done|]. cbn [text_items].
  rewrite bool_decide_eq_false_2; [done|].
  intros ->. by apply Hc.
Qed.

(** X6: for every markup, [_get_text] returns references to the string
    objects of the parsed document other than comments (the text of
    script, style and head elements and doctypes included), in document
    order, each with the class and text the parser gave it. *)
Theorem get_text_strings html σ :
  wf σ →
  ∃ l σ',
    _get_text html σ = Ok (l, σ')
    ∧ string_at (objects σ') <$> l
      = Some <$> (lxml_parse html ≫= text_items).
Proof.
  intros Hwf.
  destruct (get_text_run html σ Hwf)
    as (cs & D & σ2 & Hrun & Hwf2 & Hcs & HT2 & HDc).
  cbn zeta in *. set (T := Tag (next_oid σ) "[document]" [] cs) in *.
  eexists _, σ2. split; [exact Hrun|].
  rewrite string_at_items.
  - f_equal.
    assert (filter (λ c, is_string c) (descendants (without D T))
            = filter (λ c, is_string c) (subtree_nodes (without D T))) as ->.
    { rewrite (subtree_nodes_unfold (without D T)).
      rewrite filter_cons_False; [done|].
      unfold T. rewrite without_Tag. by intros []. }
    rewrite text_items_strings, text_items_without by done.
    unfold T. rewrite text_items_Tag. by apply text_items_strip_list.
  - intros c [Hs Hc]%list_elem_of_filter. split_and!; [done| |].
    + pose proof (without_no_comment D T HDc) as Hno.
      rewrite Forall_forall in Hno. by apply Hno.
    + apply deref_unique; [apply Hwf2|].
      eapply all_nodes_closed; [by apply root_in_all_nodes|].
      by apply descendants_subtree.
Qed.

(** X4: [_is_visible] raises [AttributeError] on an object that has no
    parent (the soup itself, or an extracted element): [element.parent] is
    [None] and has no [name]. *)
Theorem is_visible_parentless σ e :
  e ∉ child_oids (objects σ) →
  _is_visible e σ
  = Raise (AttributeError "'NoneType' object has no attribute 'name'").
Proof.
  intros He. unfold _is_visible.
  erewrite bind_run by apply parent_run.
  by rewrite parent_of_None.
Qed.

(** X5: for an object held by a tag, the answer of [_is_visible] depends
    on the name of that tag alone: it is [False] exactly when the name is
    one of the invisible tags.  The test against the comment markup never
    succeeds (the text it is given is the [repr] of a [bytes] value, which
    starts with [b]), so a comment below a visible tag is reported
    visible. *)
Theorem is_visible_parent_name σ c P :
  wf σ → c ∈ all_nodes (objects σ) → P ∈ all_nodes (objects σ) →
  oid_of c ∈ child_ids P →
  _is_visible (oid_of c) σ
  = Ok (negb (bool_decide (default "" (name_of P) ∈ INVISIBLE_TAGS)), σ).
Proof.
  intros Hwf Hc HP Hin.
  rewrite is_visible_run; [|done|done|].
  - unfold visible_in.
    by rewrite (parent_of_unique _ P); [|apply Hwf|done|done].
  - apply list_elem_of_bind. eauto.
Qed.

(** X2: [html_text_diff] is the diff of the two visible texts with a time
    limit of 2 seconds: both texts are extracted for every pair of inputs,
    and since both are [str] the type error of [compute_dmp_diff] cannot
    occur. *)
Theorem html_text_diff_visible_texts a_text b_text σ :
  wf σ →
  (∃ σ', html_text_diff a_text b_text σ
         = lift (compute_dmp_diff (PyStr (visible_text_of a_text))
                   (PyStr (visible_text_of b_text)) 2) σ')
  ∧ ∀ msg, html_text_diff a_text b_text σ ≠ Raise (TypeError msg).
Proof.
  intros Hwf.
  destruct (get_visible_text_run a_text σ Hwf) as (σ1 & Hrun1 & Hwf1).
  destruct (get_visible_text_run b_text σ1 Hwf1) as (σ2 & Hrun2 & Hwf2).
  assert (html_text_diff a_text b_text σ
          = lift (compute_dmp_diff (PyStr (visible_text_of a_text))
                    (PyStr (visible_text_of b_text)) 2) σ2) as Heq.
  { unfold html_text_diff.
    erewrite bind_run by exact Hrun1.
    by erewrite bind_run by exact Hrun2. }
  split; [by exists σ2|].
  intros msg. rewrite Heq. unfold lift.
  destruct (compute_dmp_diff _ _ _) as [l|e] eqn:Hd; [done|].
  intros [= ->].
  by apply (compute_dmp_diff_no_TypeError
              (PyStr (visible_text_of a_text)) (PyStr (visible_text_of b_text))
              2%Z _ msg eq_refl).
Qed.

End MoreVisibleText.

Section SideBySide.
Context `{Collaborators} `{DiffLibraries}.

(** X3: [side_by_side_text] returns, for every pair of inputs, the dict
    whose entry [a_text] is the visible text of the first input and whose
    entry [b_text] is the visible text of the second; neither entry
    depends on the other input. *)
Theorem side_by_side_text_entries a_text b_text σ :
  wf σ →
  ∃ σ', side_by_side_text a_text b_text σ
        = Ok ({[ "a_text" := visible_text_of a_text;
                 "b_text" := visible_text_of b_text ]}, σ')
        ∧ wf σ'.
Proof.
  intros Hwf.
  destruct (get_visible_text_run a_text σ Hwf) as (σ1 & Hrun1 & Hwf1).
  destruct (get_visible_text_run b_text σ1 Hwf1) as (σ2 & Hrun2 & Hwf2).
  exists σ2. split; [|done]. unfold side_by_side_text.
  erewrite bind_run by exact Hrun1.
  by erewrite bind_run by exact Hrun2.
Qed.

End SideBySide.

(** ** The normal form of the visible text *)

Section NormalForm.
Implicit Types (s w r u : string) (c d : ascii).

(** Induction on a text, one character or one whitespace run at a time. *)
Lemma text_ind (P : string → Prop) :
  P "" →
  (∀ c s, ¬ isspace c → P s → P (String c s)) →
  (∀ c w r, isspace c → all_chars isspace w → stops isspace r → P r →
            P (String c w +:+ r)) →
  ∀ s, P s.
Proof.
  intros Hnil Hchar Hblank s.
  remember (String.length s) as n eqn:Hn.
  assert (String.length s ≤ n) as Hle by lia. clear Hn.
  revert s Hle. induction n as [|n IH]; intros s Hle.
  { destruct s; simpl in *; [done|lia]. }
  destruct s as [|c s]; [done|].
  destruct (isspace c) eqn:Hc.
  - destruct (leading_whitespace s) as (w & r & -> & Hw & Hr).
    change (String c (w +:+ r)) with (String c w +:+ r).
    apply Hblank; [by rewrite Hc|done|done|].
    apply IH. simpl in Hle. rewrite length_app_string in Hle. lia.
  - apply Hchar; [by apply Is_true_false|]. apply IH. simpl in Hle. lia.
Qed.

Lemma collapse_char c s :
  ¬ isspace c →
  collapse_blank_lines (String c s) = String c (collapse_blank_lines s).
Proof.
  intros Hc%Is_true_false. unfold collapse_blank_lines. cbn [pieces].
  rewrite Hc, fmap_cons, join_empty_cons. cbn [collapse_piece].
  by rewrite app_string_cons, app_string_nil.
Qed.

Lemma collapse_blank c w r :
  isspace c → all_chars isspace w → stops isspace r →
  collapse_blank_lines (String c w +:+ r)
  = collapse_piece (Blank (String c w)) +:+ collapse_blank_lines r.
Proof.
  intros Hc Hw Hr. unfold collapse_blank_lines.
  by rewrite pieces_whitespace, fmap_cons, join_empty_cons.
Qed.

Lemma collapse_stops r :
  stops isspace r → stops isspace (collapse_blank_lines r).
Proof.
  destruct r as [|d r]; [done|]. intros Hd.
  rewrite collapse_char; [done|]. simpl in Hd. by apply negb_True.
Qed.

(** What a whitespace run becomes is again a whitespace run, and one that
    is kept as it is. *)
Lemma collapse_piece_blank c w :
  isspace c → all_chars isspace w →
  ∃ c' w', collapse_piece (Blank (String c w)) = String c' w'
           ∧ isspace c' ∧ all_chars isspace w'
           ∧ collapse_piece (Blank (String c' w')) = String c' w'.
Proof.
  intros Hc Hw. cbn [collapse_piece].
  destruct (decide (2 ≤ newlines (String c w))) as [Hn|Hn].
  - exists nl, (String nl ""). done.
  - exists c, w. split_and!; [done..|].
    cbn [collapse_piece]. by rewrite decide_False.
Qed.

Lemma collapse_idempotent s :
  collapse_blank_lines (collapse_blank_lines s) = collapse_blank_lines s.
Proof.
  induction s as [|c s Hc IH|c w r Hc Hw Hr IH] using text_ind.
  - done.
  - by rewrite !collapse_char, IH.
  - rewrite collapse_blank by done.
    destruct (collapse_piece_blank c w Hc Hw) as (c' & w' & -> & Hc' & Hw' & Hcp).
    rewrite collapse_blank by (done || by apply collapse_stops).
    by rewrite Hcp, IH.
Qed.

Lemma lstrip_whitespace w r :
  all_chars isspace w → lstrip (w +:+ r) = lstrip r.
Proof.
  induction w as [|c w IH]; [done|].
  intros [Hc Hw]%andb_True. rewrite app_string_cons. cbn [lstrip].
  apply Is_true_true in Hc. rewrite Hc. by apply IH.
Qed.

Lemma lstrip_stops r : stops isspace r → lstrip r = r.
Proof.
  destruct r as [|d r]; [done|]. simpl.
  intros Hd%negb_True%Is_true_false. by rewrite Hd.
Qed.

Lemma stops_lstrip s : stops isspace (lstrip s).
Proof.
  induction s as [|c s IH]; [done|]. cbn [lstrip].
  destruct (isspace c) eqn:Hc; [done|]. simpl. by rewrite Hc.
Qed.

Lemma collapse_lstrip s :
  collapse_blank_lines (lstrip s) = lstrip (collapse_blank_lines s).
Proof.
  destruct s as [|c s]; [done|].
  destruct (isspace c) eqn:Hc.
  - destruct (leading_whitespace s) as (w & r & -> & Hw & Hr).
    change (String c (w +:+ r)) with (String c w +:+ r).
    assert (all_chars isspace (String c w)) as Hcw by (simpl; by rewrite Hc).
    rewrite collapse_blank by (done || by rewrite Hc).
    destruct (collapse_piece_blank c w) as (c' & w' & -> & Hc' & Hw' & _);
      [by rewrite Hc|done|].
    rewrite !lstrip_whitespace by (done || (simpl; by apply andb_True)).
    by rewrite !lstrip_stops by (done || by apply collapse_stops).
  - assert (¬ isspace c) as Hc' by by apply Is_true_false.
    rewrite collapse_char by done.
    rewrite !lstrip_stops; [|simpl; by rewrite Hc..].
    by rewrite collapse_char.
Qed.

Lemma rstrip_char c s : ¬ isspace c → rstrip (String c s) = String c (rstrip s).
Proof.
  intros Hc%Is_true_false. cbn [rstrip]. rewrite Hc.
  by destruct (rstrip s).
Qed.

Lemma rstrip_whitespace w : all_chars isspace w → rstrip w = "".
Proof.
  induction w as [|c w IH]; [done|].
  intros [Hc Hw]%andb_True. cbn [rstrip]. rewrite IH by done.
  apply Is_true_true in Hc. by rewrite Hc.
Qed.

Lemma rstrip_app w r :
  rstrip r ≠ "" → rstrip (w +:+ r) = w +:+ rstrip r.
Proof.
  intros Hr. induction w as [|c w IH]; [done|].
  rewrite !app_string_cons. cbn [rstrip]. rewrite IH.
  destruct (w +:+ rstrip r) eqn:Heq; [|done].
  destruct w; [|done]. by rewrite app_string_nil in Heq.
Qed.

Lemma rstrip_app_whitespace w r :
  rstrip r = "" → all_chars isspace w → rstrip (w +:+ r) = "".
Proof.
  intros Hr. induction w as [|c w IH]; [done|].
  intros [Hc Hw]%andb_True. rewrite app_string_cons. cbn [rstrip].
  rewrite IH by done. apply Is_true_true in Hc. by rewrite Hc.
Qed.

Lemma collapse_rstrip s :
  collapse_blank_lines (rstrip s) = rstrip (collapse_blank_lines s).
Proof.
  induction s as [|c s Hc IH|c w r Hc Hw Hr IH] using text_ind.
  - done.
  - by rewrite rstrip_char, !collapse_char, rstrip_char, IH.
  - rewrite collapse_blank by done.
    destruct (collapse_piece_blank c w Hc Hw) as (c' & w' & Hcp & Hc' & Hw' & _).
    assert (all_chars isspace (String c w)) as Hcw
      by (simpl; by apply andb_True).
    assert (all_chars isspace (String c' w')) as Hcw'
      by (simpl; by apply andb_True).
    destruct r as [|d r].
    + rewrite rstrip_app_whitespace by done.
      rewrite Hcp. by rewrite rstrip_app_whitespace.
    + assert (¬ isspace d) as Hd by (simpl in Hr; by apply negb_True).
      rewrite rstrip_app by (by rewrite rstrip_char).
      rewrite collapse_blank; [|done|done|by rewrite rstrip_char].
      rewrite IH. rewrite rstrip_app; [done|].
      by rewrite collapse_char, rstrip_char.
Qed.

Lemma collapse_strip s :
  collapse_blank_lines (strip s) = strip (collapse_blank_lines s).
Proof. unfold strip. by rewrite collapse_rstrip, collapse_lstrip. Qed.

Lemma stops_rstrip r : stops isspace r → stops isspace (rstrip r).
Proof.
  destruct r as [|d r]; [done|]. intros Hd.
  rewrite rstrip_char; [done|]. simpl in Hd. by apply negb_True.
Qed.

Lemma rstrip_idempotent s : rstrip (rstrip s) = rstrip s.
Proof.
  induction s as [|c s IH]; [done|]. cbn [rstrip].
  destruct (rstrip s) as [|c' t] eqn:Ht.
  - destruct (isspace c) eqn:Hc; [done|]. cbn [rstrip]. by rewrite Hc.
  - change (rstrip (String c (String c' t))) with
      (match rstrip (String c' t) with
       | "" => if isspace c then "" else String c ""
       | u => String c u
       end).
    by rewrite IH.
Qed.

Lemma strip_idempotent s : strip (strip s) = strip s.
Proof.
  unfold strip.
  rewrite (lstrip_stops (rstrip (lstrip s)))
    by apply stops_rstrip, stops_lstrip.
  apply rstrip_idempotent.
Qed.

(** Normalising a normalised text changes nothing. *)
Lemma normal_form_fixed s :
  strip (collapse_blank_lines (strip (collapse_blank_lines s)))
  = strip (collapse_blank_lines s).
Proof. by rewrite collapse_strip, collapse_idempotent, strip_idempotent. Qed.

Lemma ink_app w r : ink (w +:+ r) = ink w ++ ink r.
Proof.
  induction w as [|c w IH]; [done|]. rewrite app_string_cons. cbn [ink].
  rewrite IH. by destruct (isspace c).
Qed.

Lemma ink_whitespace w : all_chars isspace w → ink w = [].
Proof.
  induction w as [|c w IH]; [done|].
  intros [Hc Hw]%andb_True. cbn [ink]. apply Is_true_true in Hc.
  rewrite Hc. by apply IH.
Qed.

Lemma ink_collapse s : ink (collapse_blank_lines s) = ink s.
Proof.
  induction s as [|c s Hc IH|c w r Hc Hw Hr IH] using text_ind.
  - done.
  - rewrite collapse_char by done. cbn [ink]. by rewrite IH.
  - rewrite collapse_blank by done.
    destruct (collapse_piece_blank c w Hc Hw) as (c' & w' & -> & Hc' & Hw' & _).
    rewrite !ink_app, IH.
    rewrite (ink_whitespace (String c' w')), (ink_whitespace (String c w));
      [done|cbn [all_chars]; by apply andb_True..].
Qed.

Lemma ink_lstrip s : ink (lstrip s) = ink s.
Proof.
  induction s as [|c s IH]; [done|]. cbn [lstrip ink].
  destruct (isspace c) eqn:Hc; [done|]. cbn [ink]. by rewrite Hc.
Qed.

Lemma ink_rstrip s : ink (rstrip s) = ink s.
Proof.
  induction s as [|c s IH]; [done|]. cbn [rstrip ink]. rewrite <-IH.
  destruct (rstrip s) as [|c' t].
  - destruct (isspace c) eqn:Hc; [done|]. cbn [ink]. by rewrite Hc.
  - cbn [ink]. done.
Qed.

Lemma ink_strip s : ink (strip s) = ink s.
Proof. unfold strip. by rewrite ink_rstrip, ink_lstrip. Qed.

Lemma ink_join (l : list string) : ink (join " " l) = l ≫= ink.
Proof.
  unfold join. induction l as [|x l IH]; [done|].
  destruct l as [|y l].
  - simpl. by rewrite app_nil_r.
  - change (String.concat " " (x :: y :: l))
      with (x +:+ " " +:+ String.concat " " (y :: l)).
    by rewrite !ink_app, IH, bind_cons.
Qed.

End NormalForm.

Section VisibleNormalForm.
Context `{Collaborators}.

(** X7: the text [_get_visible_text] returns is in normal form: collapsing
    its blank lines with [REPEATED_BLANK_LINES] and stripping it once more,
    as the function itself does, gives the same text back. *)
Theorem get_visible_text_normal_form html σ :
  wf σ →
  ∃ out σ',
    _get_visible_text html σ = Ok (out, σ')
    ∧ strip (re_sub REPEATED_BLANK_LINES (newline +:+ newline) out) = out.
Proof.
  intros Hwf.
  destruct (get_visible_text_run html σ Hwf) as (σ' & Hrun & _).
  exists (visible_text_of html), σ'. split; [done|].
  rewrite re_sub_collapses. apply normal_form_fixed.
Qed.

(** X8: the characters of the returned text that are not whitespace are
    those of the visible fragments, in order: normalising the text removes
    and rewrites whitespace only. *)
Theorem get_visible_text_keeps_ink html σ :
  wf σ →
  ∃ out σ',
    _get_visible_text html σ = Ok (out, σ')
    ∧ ink out = visible_fragments (lxml_parse html) ≫= ink.
Proof.
  intros Hwf.
  destruct (get_visible_text_run html σ Hwf) as (σ' & Hrun & _).
  exists (visible_text_of html), σ'. split; [done|].
  unfold visible_text_of. by rewrite ink_strip, ink_collapse, ink_join.
Qed.

End VisibleNormalForm.

(** ** Shielding and restoring, further *)

Section MoreShield.
Implicit Types (σ : store) (F : list node) (t n c : node).

(** X9: on a document none of whose elements carries the
    [wm-diff-replacement] attribute, [_add_undiffable_content] returns the
    soup and changes nothing, whatever the table holds. *)
Theorem add_undiffable_content_unmarked σ soup T R :
  deref soup (objects σ) = Some T → unmarked T →
  _add_undiffable_content soup R σ = Ok (soup, σ).
Proof.
  intros HT Hattr. unfold _add_undiffable_content.
  erewrite bind_run by (by apply select_attr_deref).
  rewrite filter_none; [done|].
  unfold unmarked in Hattr. rewrite Forall_forall in Hattr.
  intros c Hc [v Hv]. by rewrite (Hattr c Hc) in Hv.
Qed.

Lemma shield_step_table prefix tbl i e σ tbl' σ' :
  shield_step prefix tbl (i, e) σ = Ok (tbl', σ') →
  tbl' = <[replacement_id prefix i := e]> tbl.
Proof.
  unfold shield_step, bind, ret. intros Hrun.
  repeat match type of Hrun with
         | context [match ?x with _ => _ end] =>
             destruct x as [[? ?]|]; [|done]
         end.
  by injection Hrun as <- _.
Qed.

Lemma shield_fold_table prefix items :
  ∀ tbl σ tbl' σ',
    fold_M (shield_step prefix) tbl items σ = Ok (tbl', σ') →
    tbl' = table_of prefix items tbl.
Proof.
  induction items as [|[i e] items IH]; intros tbl σ tbl' σ' Hrun.
  - by injection Hrun as <- _.
  - cbn [fold_M] in Hrun. unfold bind at 1 in Hrun.
    destruct (shield_step prefix tbl (i, e) σ) as [[t1 σ1]|] eqn:Hstep;
      [|done].
    apply shield_step_table in Hstep as ->.
    by apply IH in Hrun.
Qed.

Lemma remove_undiffable_content_fold soup prefix σ r tbl σ' :
  _remove_undiffable_content soup prefix σ = Ok ((r, tbl), σ') →
  ∃ L, tbl = table_of prefix (enumerate L) ∅
       ∧ find_all soup ["script"; "style"] σ = Ok (L, σ).
Proof.
  unfold _remove_undiffable_content. intros Hrun.
  unfold bind at 1 in Hrun.
  destruct (find_all soup ["script"; "style"] σ) as [[L σ1]|] eqn:Hfind;
    [|done].
  assert (σ1 = σ) as ->.
  { cbv [find_all bind get get_objects ret raise] in Hfind.
    destruct (deref soup (objects σ)); by simplify_eq. }
  unfold bind at 1 in Hrun.
  destruct (fold_M (shield_step prefix) ∅ (enumerate L) σ)
    as [[t1 σ2]|] eqn:Hfold; [|done].
  injection Hrun as _ <- _. exists L. split; [|done].
  by eapply shield_fold_table.
Qed.

Lemma table_of_keys prefix items tbl key e :
  table_of prefix items tbl !! key = Some e →
  (∃ i, key = replacement_id prefix i) ∨ tbl !! key = Some e.
Proof.
  revert tbl. induction items as [|[i x] items IH]; intros tbl; [by right|].
  intros [Hk|Hk]%IH; [by left|]. cbn [fst snd] in Hk.
  destruct (decide (key = replacement_id prefix i)) as [->|Hne];
    [left; by exists i|].
  right. by rewrite lookup_insert_ne in Hk.
Qed.

Lemma table_of_lookup prefix (L : list oid) :
  ∀ j tbl key e,
    table_of prefix (zip (seq j (length L)) L) tbl !! key = Some e ↔
    (∃ i, key = replacement_id prefix (j + i) ∧ L !! i = Some e)
    ∨ (tbl !! key = Some e
       ∧ ∀ i, i < length L → key ≠ replacement_id prefix (j + i)).
Proof.
  induction L as [|x L IH]; intros j tbl key e.
  - simpl. split; [intros Hk; right; split; [done|intros; lia]|].
    intros [(i & _ & Hi)|[Hk _]]; [by rewrite lookup_nil in Hi|done].
  - cbn [length seq]. simpl zip.
    change (table_of prefix ((j, x) :: zip (seq (S j) (length L)) L) tbl)
      with (table_of prefix (zip (seq (S j) (length L)) L)
              (<[replacement_id prefix j := x]> tbl)).
    rewrite IH. split.
    + intros [(i & -> & Hi)|[Hk Hne]].
      * left. exists (S i). split; [f_equal; lia|done].
      * destruct (decide (key = replacement_id prefix j)) as [->|Hkj].
        -- rewrite lookup_insert_eq in Hk. injection Hk as <-.
           left. exists 0. split; [f_equal; lia|done].
        -- rewrite lookup_insert_ne in Hk by done. right. split; [done|].
           intros [|i] Hi; [by rewrite Nat.add_0_r|].
           replace (j + S i) with (S j + i) by lia. apply Hne. lia.
    + intros [(i & -> & Hi)|[Hk Hne]].
      * destruct i as [|i].
        -- injection Hi as <-. right. rewrite Nat.add_0_r.
           rewrite lookup_insert_eq. split; [done|].
           intros i Hi Heq%replacement_id_inj. lia.
        -- left. exists i. split; [f_equal; lia|done].
      * right. split.
        -- rewrite lookup_insert_ne; [done|].
           intros <-. apply (Hne 0); [lia|]. by rewrite Nat.add_0_r.
        -- intros i Hi. replace (S j + i) with (j + S i) by lia.
           apply Hne. lia.
Qed.

(** X10: for every document, [_remove_undiffable_content] returns the soup
    it was given and a table with exactly one entry for each script or
    style element: the key [f'{prefix}-{i}'] is bound to the [i]-th such
    element of the document, in document order, and there is no other
    key. *)
Theorem remove_undiffable_content_table σ soup T prefix :
  wf σ → T ∈ objects σ → oid_of T = soup →
  ∃ tbl σ',
    _remove_undiffable_content soup prefix σ = Ok ((soup, tbl), σ')
    ∧ ∀ key e,
        tbl !! key = Some e ↔
        ∃ i, key = replacement_id prefix i
             ∧ (oid_of <$> filter (λ n, name_in UNDIFFABLE n)
                             (descendants T)) !! i = Some e.
Proof.
  intros Hwf HT <-.
  destruct (remove_undiffable_content_run (oid_of T) prefix σ Hwf)
    as (tbl & σ' & Hrun & _).
  { unfold has_root. by apply list_elem_of_fmap_2. }
  exists tbl, σ'. split; [done|].
  apply remove_undiffable_content_fold in Hrun as (L & -> & Hfind).
  unfold find_all in Hfind.
  erewrite bind_run in Hfind by (apply get_deref; by apply root_deref).
  injection Hfind as <-. intros key e. unfold enumerate.
  rewrite table_of_lookup. split.
  - intros [(i & -> & Hi)|[Hk _]]; [by exists i|by rewrite lookup_empty in Hk].
  - intros (i & -> & Hi). left. by exists i.
Qed.

Lemma all_chars_app p (a b : string) :
  all_chars p (a +:+ b) = all_chars p a && all_chars p b.
Proof.
  induction a as [|c a IH]; [done|].
  rewrite app_string_cons. cbn [all_chars]. by rewrite IH, andb_assoc.
Qed.

Local Abbreviation no_dash := (λ c : ascii, negb (bool_decide (c = "-"%char))).

Lemma pretty_N_char_no_dash x : pretty_N_char x ≠ "-"%char.
Proof. unfold pretty_N_char. by repeat case_match. Qed.

Lemma pretty_N_go_no_dash x :
  ∀ s, all_chars no_dash s → all_chars no_dash (pretty_N_go x s).
Proof.
  induction (N.lt_wf_0 x) as [x _ IH]. intros s Hs.
  destruct (decide (x = 0%N)) as [->|Hx]; [by rewrite pretty_N_go_0|].
  rewrite pretty_N_go_step by lia. apply IH.
  - apply N.div_lt; lia.
  - cbn [all_chars]. apply andb_True. split; [|done].
    apply negb_True, Is_true_false, bool_decide_eq_false.
    apply pretty_N_char_no_dash.
Qed.

Lemma pretty_nat_no_dash (i : nat) : all_chars no_dash (pretty i).
Proof.
  unfold pretty, pretty_nat, pretty, pretty_N.
  case_decide; [done|]. by apply pretty_N_go_no_dash.
Qed.

Lemma dash_split (p q d1 d2 : string) :
  all_chars no_dash d1 → all_chars no_dash d2 →
  p +:+ "-" +:+ d1 = q +:+ "-" +:+ d2 → p = q ∧ d1 = d2.
Proof.
  intros H1 H2. revert q.
  induction p as [|c p IH]; intros [|c' q] Heq;
    repeat (rewrite app_string_cons in Heq || rewrite app_string_nil in Heq).
  - by injection Heq.
  - injection Heq as <- ->. rewrite all_chars_app in H1.
    by apply andb_True in H1 as [_ H1].
  - injection Heq as -> <-. rewrite all_chars_app in H2.
    by apply andb_True in H2 as [_ H2].
  - injection Heq as <- Heq.
    destruct (IH q) as [-> ->]; [|done].
    by repeat (rewrite app_string_cons || rewrite app_string_nil).
Qed.

(** A replacement identifier determines its prefix and its index. *)
Lemma replacement_id_prefix p q i j :
  replacement_id p i = replacement_id q j → p = q ∧ i = j.
Proof.
  unfold replacement_id. intros Heq.
  apply dash_split in Heq as [-> Heq]; [|apply pretty_nat_no_dash..].
  split; [done|]. by apply pretty_nat_inj in Heq.
Qed.

(** X12: tables built by [_remove_undiffable_content] with different
    prefixes share no key, so that merging them (as [html_diff_render] does
    with the tables for 'old' and 'new') loses no entry. *)
Theorem shield_tables_disjoint p q s1 s2 σ1 σ2 r1 r2 tbl1 tbl2 σ1' σ2' :
  p ≠ q →
  _remove_undiffable_content s1 p σ1 = Ok ((r1, tbl1), σ1') →
  _remove_undiffable_content s2 q σ2 = Ok ((r2, tbl2), σ2') →
  tbl1 ##ₘ tbl2
  ∧ ∀ key, (tbl1 ∪ tbl2) !! key
           = match tbl1 !! key with Some e => Some e | None => tbl2 !! key end.
Proof.
  intros Hpq (L1 & -> & _)%remove_undiffable_content_fold
    (L2 & -> & _)%remove_undiffable_content_fold.
  split.
  - apply map_disjoint_spec. intros key e1 e2 H1 H2.
    apply table_of_keys in H1 as [[i ->]|H1];
      [|by rewrite lookup_empty in H1].
    apply table_of_keys in H2 as [[j Hj]|H2];
      [|by rewrite lookup_empty in H2].
    by apply replacement_id_prefix in Hj as [-> _].
  - intros key. rewrite lookup_union. by destruct (_ !! key), (_ !! key).
Qed.

(** X11: on a document without marker attributes whose script and style
    elements are not nested, shielding puts a placeholder in the place of
    every script and style element: afterwards the elements that carry the
    marker attribute are exactly these placeholders, in document order;
    the [i]-th placeholder is a tag of the same name as the [i]-th
    shielded element whose one attribute is the identifier and whose one
    child is the token text; and the shielded element itself is unchanged,
    parentless, and bound to the identifier in the table. *)
Theorem remove_undiffable_content_placeholders σ soup T prefix :
  wf σ → T ∈ objects σ → oid_of T = soup →
  unmarked T → unnested T →
  ∃ tbl σ',
    _remove_undiffable_content soup prefix σ = Ok ((soup, tbl), σ')
    ∧ wf σ'
    ∧ select_attr soup ATTR σ'
      = Ok (oid_of <$> imap (placeholder_of (next_oid σ) prefix)
                         (filter (λ n, name_in UNDIFFABLE n)
                            (descendants T)), σ')
    ∧ ∀ i n,
        filter (λ n, name_in UNDIFFABLE n) (descendants T) !! i = Some n →
        tbl !! replacement_id prefix i = Some (oid_of n)
        ∧ deref (oid_of n) (objects σ') = Some n
        ∧ (oid_of n ∉ child_oids (objects σ'))
        ∧ deref (next_oid σ + 2 * i) (objects σ')
          = Some (placeholder_of (next_oid σ) prefix i n).
Proof.
  intros Hwf HT <- Hattr Hnest. destruct σ as [F0 k0].
  cbn [objects next_oid] in *.
  unfold unmarked in Hattr. unfold unnested in Hnest.
  rewrite Forall_forall in Hattr.
  assert (∀ c, c ∈ descendants T → name_in UNDIFFABLE c →
               ∀ d, d ∈ descendants c → ¬ name_in UNDIFFABLE d) as Hnest'.
  { rewrite Forall_forall in Hnest. intros c Hc Hname.
    apply Forall_forall. by apply Hnest. }
  clear Hnest.
  set (ns := filter (λ n, name_in UNDIFFABLE n) (descendants T)).
  assert (filter (λ n, name_in UNDIFFABLE n) (descendants T) = ns) as Hns
    by done.
  destruct (shield_pass prefix F0 k0 T ns Hwf HT Hns Hnest' ns 0 ∅ ∅)
    as (m & tbl & Hshield & Hcov & Htbl & Hwf1).
  { done. }
  { lia. }
  { split; [intros; lia|]. intros e Q HQ. by rewrite lookup_empty in HQ. }
  { intros i n _ Hi. lia. }
  { rewrite take_0, app_nil_r, Nat.mul_0_r, Nat.add_0_r.
    replace (edit_map ∅ <$> F0) with F0; [done|].
    rewrite <-(list_fmap_id F0) at 1. apply list_fmap_ext.
    intros _ t _. simpl. by rewrite edit_map_empty. }
  rewrite take_0, app_nil_r, Nat.mul_0_r, Nat.add_0_r in Hshield.
  replace (edit_map ∅ <$> F0) with F0 in Hshield.
  2:{ rewrite <-(list_fmap_id F0) at 1. apply list_fmap_ext.
      intros _ t _. simpl. by rewrite edit_map_empty. }
  set (σ' := Store ((edit_map m <$> F0) ++ ns) (k0 + 2 * length ns)) in *.
  assert (edit_map m T ∈ objects σ') as HT'.
  { apply elem_of_app. left. by apply list_elem_of_fmap_2. }
  exists tbl, σ'. split_and!; [|done| |].
  - unfold _remove_undiffable_content, find_all.
    erewrite bind_run.
    2:{ erewrite bind_run by (apply get_deref; by apply root_deref).
        reflexivity. }
    unfold enumerate. rewrite length_fmap.
    change (filter (λ n, name_in ["script"; "style"] n) (descendants T))
      with ns.
    by erewrite bind_run by exact Hshield.
  - rewrite (select_attr_deref _ _ _ (edit_map m T)).
    2:{ rewrite <-(edit_map_oid m T). by apply root_deref. }
    rewrite (select_edit_map m T Hattr Hnest'), Hns.
    + rewrite (omap_imap _ (placeholder_of k0 prefix)); [done|].
      intros i c Hi. apply Hcov; [done|].
      apply lookup_lt_Some in Hi. lia.
    + intros c Hc Hname.
      assert (c ∈ ns) as [i Hi]%list_elem_of_lookup.
      { unfold ns. apply list_elem_of_filter. by split. }
      eexists _, _, _. apply Hcov; [done|].
      apply lookup_lt_Some in Hi. lia.
    + intros c Hc Hname. destruct (m !! oid_of c) as [Q|] eqn:HQ; [|done].
      destruct (covers_key prefix F0 k0 T ns Hwf HT Hns _ _ _ _ _
                  Hcov Hc HQ) as (i & Hi & _).
      apply list_elem_of_lookup_2 in Hi. unfold ns in Hi.
      apply list_elem_of_filter in Hi as [? _]. done.
  - intros i n Hi. pose proof (lookup_lt_Some _ _ _ Hi) as Hlt.
    assert (n ∈ objects σ') as Hn.
    { apply elem_of_app. right. by eapply list_elem_of_lookup_2. }
    split_and!.
    + by apply Htbl.
    + by apply root_deref.
    + apply root_not_child; [apply Hwf1|done].
    + change (k0 + 2 * i) with (oid_of (placeholder_of k0 prefix i n)).
      apply deref_unique; [apply Hwf1|].
      apply (all_nodes_closed _ _ (edit_map m T));
        [by apply root_in_all_nodes|].
      apply descendants_subtree.
      apply (covers_placeholder prefix F0 k0 T ns Hwf HT Hns Hnest'
               0 (length ns) m i n Hcov Hi). lia.
Qed.

End MoreShield.

(** ** The stylesheet of the other renderers *)

Section MoreStyle.
Context `{Collaborators} `{DiffLibraries}.
Implicit Types (σ : store) (F : list node) (t c n x : node).

Lemma filter_names nm (l1 l2 : list node) :
  name_of <$> l1 = name_of <$> l2 →
  name_of <$> filter (λ n, is_named nm n) l1
  = name_of <$> filter (λ n, is_named nm n) l2.
Proof.
  revert l2. induction l1 as [|x l1 IH]; intros [|y l2] Heq; try done.
  rewrite !fmap_cons in Heq. injection Heq as Hxy Heq.
  assert (is_named nm x = is_named nm y) as Hnm
    by (unfold is_named; by rewrite Hxy).
  rewrite !filter_cons.
  destruct (decide (is_named nm x)) as [Hx|Hx];
    destruct (decide (is_named nm y)) as [Hy|Hy];
    [|by rewrite Hnm in Hx..|by apply IH].
  rewrite !fmap_cons, Hxy. f_equal. by apply IH.
Qed.

Lemma names_strip_list (cs cs' : list node) :
  strip_ids <$> cs = strip_ids <$> cs' →
  name_of <$> (cs ≫= subtree_nodes) = name_of <$> (cs' ≫= subtree_nodes).
Proof. intros Heq. by rewrite names_strip, (names_strip cs'), Heq. Qed.

Lemma update_contents_ext p f g t nm a cs :
  NoDup (ids t) → Tag p nm a cs ∈ subtree_nodes t → f cs = g cs →
  update_contents p f t = update_contents p g t.
Proof.
  intros Hnd Hin Hfg.
  induction t as [i n' a0 cs0 IH|i k s] using node_ind'; [|done].
  rewrite !update_contents_Tag. rewrite ids_Tag in Hnd.
  apply NoDup_cons in Hnd as [Hi Hnd].
  rewrite subtree_nodes_unfold in Hin. unfold descendants in Hin.
  cbn [contents_of] in Hin.
  destruct (decide (i = p)) as [->|Hne].
  - apply elem_of_cons in Hin as [Heq|Hin];
      [injection Heq as <- <- <-; by rewrite Hfg|].
    exfalso. apply Hi.
    apply list_elem_of_bind in Hin as (c & Hc & Hcin).
    apply list_elem_of_bind. exists c. split; [|done].
    apply elem_of_ids. by exists (Tag p nm a cs).
  - apply elem_of_cons in Hin as [Heq|Hin]; [by simplify_eq|].
    f_equal. apply list_elem_of_bind in Hin as (c0 & Hc0 & Hc0in).
    apply list_fmap_ext. intros j c Hc%list_elem_of_lookup_2.
    destruct (decide (p ∈ ids c)) as [Hp|Hp].
    + assert (c = c0) as ->.
      { apply (bind_NoDup_inj ids cs0 c c0 p); [done..|].
        apply elem_of_ids. by exists (Tag p nm a cs). }
      rewrite Forall_forall in IH. apply IH; [done| |done].
      apply (NoDup_ids_root c0 cs0); [by rewrite oids_bind|done].
    + by rewrite !update_contents_id.
Qed.

Lemma head_app_Some {A} (l1 l2 : list A) y :
  head l1 = Some y → head (l1 ++ l2) = Some y.
Proof. by destruct l1. Qed.

Lemma first_named_update_list nm p f (cs : list node) x :
  Forall (λ c, NoDup (ids c) →
               head (filter (λ n, is_named nm n) (subtree_nodes c)) = Some x →
               head (filter (λ n, is_named nm n)
                       (subtree_nodes (update_contents p f c)))
               = Some (update_contents p f x)) cs →
  oid_of x = p → NoDup (cs ≫= ids) →
  head (filter (λ n, is_named nm n) (cs ≫= subtree_nodes)) = Some x →
  head (filter (λ n, is_named nm n)
          ((update_contents p f <$> cs) ≫= subtree_nodes))
  = Some (update_contents p f x).
Proof.
  intros IH Hx. induction IH as [|c cs Hc _ IH]; [done|].
  rewrite bind_cons. intros (Hndc & Hdisj & Hnd)%NoDup_app.
  rewrite fmap_cons, !bind_cons, !filter_app.
  destruct (filter (λ n, is_named nm n) (subtree_nodes c)) as [|y l] eqn:Hf.
  - rewrite app_nil_l. intros Hhead.
    assert (p ∉ ids c) as Hp.
    { intros Hp. apply (Hdisj p Hp).
      apply head_Some_elem_of, list_elem_of_filter in Hhead as [_ Hin].
      apply list_elem_of_bind in Hin as (c' & Hin & Hc').
      apply list_elem_of_bind. exists c'. split; [|done].
      apply elem_of_ids. by exists x. }
    rewrite update_contents_id, Hf, app_nil_l by done. by apply IH.
  - intros [= ->]. apply head_app_Some. by apply Hc.
Qed.

(** Rewriting the contents of the first tag of a name leaves it the first
    tag of that name. *)
Lemma first_named_update nm p f t x :
  NoDup (ids t) →
  head (filter (λ n, is_named nm n) (subtree_nodes t)) = Some x →
  oid_of x = p →
  head (filter (λ n, is_named nm n) (subtree_nodes (update_contents p f t)))
  = Some (update_contents p f x).
Proof.
  intros Hnd Hhead Hx. revert Hnd Hhead.
  induction t as [i n' a cs IH|i k s] using node_ind'; [|done].
  intros Hnd. rewrite ids_Tag in Hnd. apply NoDup_cons in Hnd as [Hi Hnd].
  rewrite subtree_nodes_unfold. unfold descendants at 1. cbn [contents_of].
  rewrite filter_cons. case_decide as Hnamed.
  - intros [= <-]. cbn [oid_of] in Hx. subst p.
    rewrite subtree_nodes_unfold, filter_cons_True; [done|].
    by rewrite update_contents_Tag.
  - intros Hhead.
    assert (i ≠ p) as Hne.
    { intros ->. apply Hi.
      apply head_Some_elem_of, list_elem_of_filter in Hhead as [_ Hin].
      apply list_elem_of_bind in Hin as (c' & Hin & Hc').
      apply list_elem_of_bind. exists c'. split; [|done].
      apply elem_of_ids. by exists x. }
    rewrite update_contents_Tag, decide_False by done.
    rewrite subtree_nodes_unfold, filter_cons_False by done.
    unfold descendants. cbn [contents_of].
    by apply first_named_update_list.
Qed.

Lemma update_contents_name p f t :
  name_of (update_contents p f t) = name_of t.
Proof. by destruct t. Qed.

Lemma fresh_not_root σ T : wf σ → T ∈ objects σ → oid_of T ≠ next_oid σ.
Proof.
  intros Hwf HT Heq. pose proof (wf_fresh σ 0 Hwf) as Hk.
  rewrite Nat.add_0_r, <-Heq in Hk. apply Hk.
  eapply ids_subseteq_oids; [exact HT|]. apply oid_in_ids.
Qed.

(** The stylesheet element is made, filled, and appended to the first
    [head] of the document. *)
Lemma style_append σ soup T hd ha hcs css :
  wf σ → T ∈ objects σ → oid_of T = soup →
  head (filter (λ n, is_named "head" n) (descendants T))
  = Some (Tag hd "head" ha hcs) →
  ∃ σ1 σ2 σ',
    new_tag "style" [("type", "text/css")] σ = Ok (next_oid σ, σ1)
    ∧ set_string (next_oid σ) css σ1 = Ok ((), σ2)
    ∧ find_tag soup "head" σ2 = Ok (Some hd, σ2)
    ∧ append hd (next_oid σ) σ2 = Ok ((), σ')
    ∧ wf σ'
    ∧ update_contents hd
        (λ l, l ++ [style_tag (next_oid σ) (S (next_oid σ)) css]) T
      ∈ objects σ'.
Proof.
  intros Hwf HT <- Hhead.
  pose proof (fresh_not_root σ T Hwf HT) as Hfresh.
  destruct σ as [F m]. cbn [objects next_oid] in *.
  destruct (set_string_fresh F m "style" [("type", "text/css")] css Hwf)
    as [Hset Hwf2].
  set (E := style_tag m (S m) css).
  set (σ2 := Store (F ++ [E]) (S (S m))).
  assert (T ∈ objects σ2) as HT2 by (apply elem_of_app; by left).
  destruct (find_tag_Some (oid_of T) "head" σ2 T (Tag hd "head" ha hcs) Hwf2)
    as [Hfind _]; [by apply root_deref|done|].
  assert (Tag hd "head" ha hcs ∈ subtree_nodes T) as Hin.
  { apply descendants_subtree.
    by apply head_Some_elem_of, list_elem_of_filter in Hhead as [_ ?]. }
  destruct (append_root σ2 hd "head" ha hcs m E T Hwf2 HT2 Hin)
    as (σ' & Hrun & Hwf' & _ & HT' & _); [|done|done|].
  { apply elem_of_app. right. by left. }
  exists (Store (F ++ [Tag m "style" [("type", "text/css")] []]) (S m)),
    σ2, σ'.
  split_and!; [apply new_tag_run|exact Hset|exact Hfind|exact Hrun|done|].
  rewrite (update_contents_ext hd _ (list_insert_at (length hcs) E) T
             "head" ha hcs); [done| |done|].
  - by eapply NoDup_ids_root; [apply Hwf|].
  - by rewrite list_insert_at_end.
Qed.

(** [insert_style] on markup in which the parser finds a [head]. *)
Lemma insert_style_head_run html css σ hp :
  wf σ → hp ∈ lxml_parse html ≫= subtree_nodes → is_named "head" hp →
  ∃ cs σ' hd ha hcs j j',
    let T := Tag (next_oid σ) "[document]" [] cs in
    let T' := update_contents hd (λ l, l ++ [style_tag j j' css]) T in
    strip_ids <$> cs = strip_ids <$> lxml_parse html
    ∧ head (filter (λ n, is_named "head" n) (descendants T))
      = Some (Tag hd "head" ha hcs)
    ∧ insert_style html css σ = Ok (prettify T', σ')
    ∧ NoDup (ids T).
Proof.
  intros Hwf Hhp Hnamed.
  destruct (BeautifulSoup_run html σ Hwf) as (cs & m & Hsoup & Hwf1 & Hcs & _).
  set (k := next_oid σ) in *.
  set (T := Tag k "[document]" [] cs) in *. cbn zeta in Hsoup, Hwf1.
  set (σ1 := Store (objects σ ++ [T]) m) in *.
  assert (T ∈ objects σ1) as HT by (apply elem_of_app; right; by left).
  assert (∃ hd ha hcs,
            head (filter (λ n, is_named "head" n) (descendants T))
            = Some (Tag hd "head" ha hcs)) as (hd & ha & hcs & Hhead).
  { unfold descendants, T. cbn [contents_of].
    pose proof (filter_names "head" _ _ (names_strip_list cs _ Hcs)) as Hnames.
    destruct (filter (λ n, is_named "head" n) (cs ≫= subtree_nodes))
      as [|x l] eqn:Hf.
    - exfalso. symmetry in Hnames. apply fmap_nil_inv in Hnames.
      eapply (filter_nil_not_elem_of _ _ hp); [exact Hnames|done|done].
    - assert (x ∈ filter (λ n, is_named "head" n) (cs ≫= subtree_nodes))
        as [Hx _]%list_elem_of_filter by (rewrite Hf; by left).
      destruct x as [hd nm ha hcs|]; [|done]. exists hd, ha, hcs.
      unfold is_named in Hx. apply bool_decide_unpack in Hx.
      cbn [name_of] in Hx. by injection Hx as ->. }
  destruct (find_tag_Some k "head" σ1 T (Tag hd "head" ha hcs) Hwf1)
    as [Hfind _]; [by apply (root_deref _ T)|done|].
  destruct (style_append σ1 k T hd ha hcs css Hwf1 HT eq_refl Hhead)
    as (σ2 & σ3 & σ' & Hnew & Hset & Hfind' & Happ & Hwf' & HT').
  set (T' := update_contents hd
               (λ l, l ++ [style_tag (next_oid σ1) (S (next_oid σ1)) css]) T)
    in *.
  exists cs, σ', hd, ha, hcs, (next_oid σ1), (S (next_oid σ1)).
  cbn zeta. fold k T T'. split_and!; [done|done| |].
  - unfold insert_style, insert_style_tree.
    erewrite bind_run; [|erewrite bind_run by exact Hsoup;
                          erewrite bind_run by exact Hfind;
                          erewrite bind_run by reflexivity;
                          erewrite bind_run by exact Hnew;
                          erewrite bind_run by exact Hset;
                          erewrite bind_run by exact Hfind';
                          erewrite bind_run by exact Happ;
                          reflexivity].
    erewrite bind_run; [reflexivity|].
    apply get_deref. change k with (oid_of T').
    by apply root_deref.
  - by eapply NoDup_ids_root; [apply Hwf1|].
Qed.

(** X13: when the parser finds a [head] element in the markup,
    [insert_style] returns the serialisation of the parsed document with
    one change: a new [style] element of type [text/css] holding the given
    CSS is the last child of the first [head], which keeps its attributes
    and its other children and is still the first [head].  No second
    [head] is made. *)
Theorem insert_style_existing_head html css σ hp :
  wf σ → hp ∈ lxml_parse html ≫= subtree_nodes → is_named "head" hp →
  ∃ cs σ' hd ha hcs j j',
    let T := Tag (next_oid σ) "[document]" [] cs in
    let T' := update_contents hd (λ l, l ++ [style_tag j j' css]) T in
    strip_ids <$> cs = strip_ids <$> lxml_parse html
    ∧ head (filter (λ n, is_named "head" n) (descendants T))
      = Some (Tag hd "head" ha hcs)
    ∧ insert_style html css σ = Ok (prettify T', σ')
    ∧ head (filter (λ n, is_named "head" n) (descendants T'))
      = Some (Tag hd "head" ha (hcs ++ [style_tag j j' css])).
Proof.
  intros Hwf Hhp Hnamed.
  destruct (insert_style_head_run html css σ hp Hwf Hhp Hnamed)
    as (cs & σ' & hd & ha & hcs & j & j' & Hcs & Hhead & Hrun & Hnd).
  cbn zeta in *. set (T := Tag (next_oid σ) "[document]" [] cs) in *.
  set (T' := update_contents hd (λ l, l ++ [style_tag j j' css]) T) in *.
  exists cs, σ', hd, ha, hcs, j, j'. cbn zeta. fold T T'.
  split_and!; [done..|].
  pose proof (first_named_update "head" hd
                (λ l, l ++ [style_tag j j' css])
                T (Tag hd "head" ha hcs) Hnd) as Hfirst.
  rewrite (subtree_nodes_unfold T), filter_cons_False in Hfirst
    by (by intros []).
  specialize (Hfirst Hhead eq_refl). fold T' in Hfirst.
  rewrite (subtree_nodes_unfold T'), filter_cons_False in Hfirst.
  - by rewrite update_contents_Tag, decide_True in Hfirst.
  - unfold is_named, T'. rewrite update_contents_name. by intros [].
Qed.

(** X16: [html_tree_diff] and [html_differ] hand the markup their diff
    library returns to [insert_style], each with its own stylesheet: when
    that markup holds a [head], the result is the serialisation of the
    library's document with the [diffins]/[diffdel] rules (respectively the
    [.htmldiffer_insert]/[.htmldiffer_delete] rules) in a new [style]
    element at the end of the first [head]. *)
Theorem html_tree_diff_and_differ_style a_text b_text σ :
  wf σ →
  (∀ hp, hp ∈ lxml_parse (htmltreediff_diff a_text b_text
                            "diffins" "diffdel" true) ≫= subtree_nodes →
         is_named "head" hp →
         ∃ cs σ' hd ha hcs j j',
           strip_ids <$> cs
           = strip_ids <$> lxml_parse (htmltreediff_diff a_text b_text
                                         "diffins" "diffdel" true)
           ∧ head (filter (λ n, is_named "head" n) (cs ≫= subtree_nodes))
             = Some (Tag hd "head" ha hcs)
           ∧ html_tree_diff a_text b_text σ
             = Ok (prettify
                     (update_contents hd
                        (λ l, l ++ [style_tag j j' TREE_DIFF_CSS])
                        (Tag (next_oid σ) "[document]" [] cs)), σ'))
  ∧ (∀ hp, hp ∈ lxml_parse (HTMLDiffer_combined_diff a_text b_text)
                  ≫= subtree_nodes →
           is_named "head" hp →
           ∃ cs σ' hd ha hcs j j',
             strip_ids <$> cs
             = strip_ids <$> lxml_parse (HTMLDiffer_combined_diff
                                           a_text b_text)
             ∧ head (filter (λ n, is_named "head" n) (cs ≫= subtree_nodes))
               = Some (Tag hd "head" ha hcs)
             ∧ html_differ a_text b_text σ
               = Ok (prettify
                       (update_contents hd
                          (λ l, l ++ [style_tag j j' DIFFER_CSS])
                          (Tag (next_oid σ) "[document]" [] cs)), σ')).
Proof.
  intros Hwf. split; intros hp Hhp Hnamed.
  - destruct (insert_style_head_run _ TREE_DIFF_CSS σ hp Hwf Hhp Hnamed)
      as (cs & σ' & hd & ha & hcs & j & j' & Hcs & Hhead & Hrun & _).
    by exists cs, σ', hd, ha, hcs, j, j'.
  - destruct (insert_style_head_run _ DIFFER_CSS σ hp Hwf Hhp Hnamed)
      as (cs & σ' & hd & ha & hcs & j & j' & Hcs & Hhead & Hrun & _).
    by exists cs, σ', hd, ha, hcs, j, j'.
Qed.

Lemma headless_strip (l l' : list node) :
  strip_ids <$> l = strip_ids <$> l' → headless l' → headless l.
Proof.
  unfold headless. intros Heq Hl'.
  pose proof (filter_names "head" _ _ (names_strip_list l l' Heq)) as Hnames.
  rewrite Hl' in Hnames. by apply fmap_nil_inv in Hnames.
Qed.

(** X14: on markup that parses into an [html] element (with nothing but
    strings beside it) which holds no [head], [insert_style] makes an
    empty [head], puts it first among the children of [html], and appends
    the [style] element to it: the result is the serialisation of the
    parsed document with [<head><style type='text/css'>css</style></head>]
    as the first child of [html]. *)
Theorem insert_style_headless html css σ pre i a hs post :
  wf σ →
  lxml_parse html = pre ++ Tag i "html" a hs :: post →
  Forall (λ n, is_string n) pre → Forall (λ n, is_string n) post →
  headless hs →
  ∃ σ' pre' h hs' post' hd j j',
    insert_style html css σ
    = Ok (prettify
            (doc (next_oid σ) "[document]" [] pre' h a post'
               (Tag hd "head" [] [style_tag j j' css] :: hs')), σ')
    ∧ strip_ids <$> pre' = strip_ids <$> pre
    ∧ strip_ids <$> hs' = strip_ids <$> hs
    ∧ strip_ids <$> post' = strip_ids <$> post.
Proof.
  intros Hwf Hparse Hpre Hpost Hhs.
  destruct (BeautifulSoup_run html σ Hwf) as (cs & m & Hsoup & Hwf1 & Hcs & _).
  cbn zeta in Hsoup, Hwf1. rewrite Hparse, fmap_app, fmap_cons in Hcs.
  apply fmap_app_inv in Hcs as (pre' & rest & Hpre' & Hrest & ->).
  symmetry in Hrest.
  apply fmap_cons_inv in Hrest as (x & post' & Hx & Hpost' & ->).
  destruct x as [h nm a' hs'|]; [|done]. cbn [strip_ids] in Hx.
  injection Hx as <- <- Hhs'.
  set (k := next_oid σ) in *.
  change (Tag k "[document]" [] (pre' ++ Tag h "html" a hs' :: post'))
    with (doc k "[document]" [] pre' h a post' hs') in Hsoup, Hwf1.
  assert (Forall (λ n, is_string n) pre') as Hpre1
    by by apply (is_string_strip_ids pre' pre).
  assert (Forall (λ n, is_string n) post') as Hpost1
    by by apply (is_string_strip_ids post' post).
  assert (headless hs') as Hhs1 by by apply (headless_strip hs' hs).
  set (σ1 := Store (objects σ ++ [doc k "[document]" [] pre' h a post' hs'])
               m) in *.
  assert (doc k "[document]" [] pre' h a post' hs' ∈ objects σ1) as HT1
    by (apply elem_of_app; right; by left).
  pose proof (find_head k "[document]" [] pre' h a post' Hpre1 Hpost1
                σ1 hs' Hwf1 HT1) as Hfind1.
  unfold headless in Hhs1. rewrite Hhs1 in Hfind1. cbn in Hfind1.
  set (E := Tag m "head" [] []).
  assert (wf (Store (objects σ1 ++ [E]) (S m))) as Hwf2.
  { eapply (wf_alloc _ m); [exact Hwf1| |lia].
    replace (S m - m) with 1 by lia. done. }
  assert (m ≠ k) as Hmk.
  { intros Heq. by apply (fresh_not_root σ1 _ Hwf1 HT1). }
  destruct (html_insert_first k "[document]" [] pre' h a post' Hpre1
              (Store (objects σ1 ++ [E]) (S m)) hs' m E Hwf2)
    as (σ3 & Hins & Hwf3 & _ & HT3 & _); [| |done|done|].
  { apply elem_of_app. by left. }
  { apply elem_of_app. right. by left. }
  assert (head (filter (λ n, is_named "head" n)
                  (descendants (doc k "[document]" [] pre' h a post'
                                  (E :: hs'))))
          = Some (Tag m "head" [] [])) as Hhead.
  { rewrite doc_heads by done.
    apply (filter_head_first [] m [] [] hs'). done. }
  destruct (style_append σ3 k _ m [] [] css Hwf3 HT3 eq_refl Hhead)
    as (σ4 & σ5 & σ' & Hnew & Hset & Hfind' & Happ & Hwf' & HT').
  rewrite (update_contents_doc_child k "[document]" [] pre' h a post'
             m _ [] E hs') in HT'.
  2:{ by eapply NoDup_ids_root; [apply Hwf3|]. }
  2:{ unfold E. rewrite ids_Tag. by left. }
  unfold E in HT'. rewrite update_contents_Tag, decide_True in HT' by done.
  cbn [app] in HT'.
  exists σ', pre', h, hs', post', m, (next_oid σ3), (S (next_oid σ3)).
  split_and!; [|done..].
  unfold insert_style, insert_style_tree.
  erewrite bind_run.
  2:{ erewrite bind_run by exact Hsoup.
      erewrite bind_run by exact Hfind1.
      erewrite bind_run.
      2:{ erewrite bind_run by apply new_tag_run. exact Hins. }
      erewrite bind_run by exact Hnew.
      erewrite bind_run by exact Hset.
      erewrite bind_run by exact Hfind'.
      erewrite bind_run by exact Happ.
      reflexivity. }
  erewrite bind_run; [reflexivity|].
  apply get_deref.
  by apply (root_deref σ' (doc k "[document]" [] pre' h a post'
                             (Tag m "head" [] [_] :: hs'))).
Qed.

Lemma filter_named_none nm (cs cs' : list node) :
  strip_ids <$> cs = strip_ids <$> cs' →
  Forall (λ n, ¬ is_named nm n) (cs' ≫= subtree_nodes) →
  filter (λ n, is_named nm n) (cs ≫= subtree_nodes) = [].
Proof.
  intros Heq Hno. apply filter_none. apply Forall_forall.
  eapply Forall_names; [|exact Hno]. symmetry. by apply names_strip_list.
Qed.

(** [insert_style] on markup in which the parser finds neither a [head]
    nor an [html] element. *)
Lemma insert_style_no_html_run html css σ :
  wf σ → parses_without_head_or_html html →
  insert_style html css σ = Raise NO_INSERT.
Proof.
  intros Hwf Hno. unfold parses_without_head_or_html in Hno.
  apply Forall_and in Hno as [Hnohead Hnohtml].
  destruct (BeautifulSoup_run html σ Hwf) as (cs & m & Hsoup & Hwf1 & Hcs & _).
  set (k := next_oid σ) in *.
  set (T := Tag k "[document]" [] cs) in *. cbn zeta in Hsoup, Hwf1.
  set (σ1 := Store (objects σ ++ [T]) m) in *.
  assert (T ∈ objects σ1) as HT by (apply elem_of_app; right; by left).
  assert (find_tag k "head" σ1 = Ok (None, σ1)) as Hfind.
  { unfold find_tag.
    erewrite bind_run by (apply get_deref; by apply (root_deref _ T)).
    unfold descendants, T. cbn [contents_of].
    by rewrite (filter_named_none "head" cs (lxml_parse html)). }
  unfold insert_style, insert_style_tree. apply bind_raise.
  erewrite bind_run by exact Hsoup.
  erewrite bind_run by exact Hfind.
  apply bind_raise.
  erewrite bind_run by apply new_tag_run.
  apply bind_raise. unfold soup_html, find_tag.
  erewrite bind_run.
  2:{ erewrite bind_run; [reflexivity|]. apply get_deref. cbn [objects].
      rewrite deref_app_l.
      - by apply (root_deref σ1 T).
      - eapply ids_subseteq_oids; [exact HT|]. apply (oid_in_ids T). }
  unfold descendants, T. cbn [contents_of].
  by rewrite (filter_named_none "html" cs (lxml_parse html)).
Qed.

(** X15: when the parser finds neither a [head] nor an [html] element in
    the markup (as for the empty string), [insert_style] raises
    [AttributeError]: it makes a [head] and then calls [insert] on
    [soup.html], which is [None].  [html_tree_diff] and [html_differ] raise
    the same error when the markup their diff library returns is of that
    kind. *)
Theorem insert_style_requires_html a_text b_text css σ :
  wf σ →
  (parses_without_head_or_html a_text →
   insert_style a_text css σ = Raise NO_INSERT)
  ∧ (parses_without_head_or_html
       (htmltreediff_diff a_text b_text "diffins" "diffdel" true) →
     html_tree_diff a_text b_text σ = Raise NO_INSERT)
  ∧ (parses_without_head_or_html (HTMLDiffer_combined_diff a_text b_text) →
     html_differ a_text b_text σ = Raise NO_INSERT).
Proof.
  intros Hwf. split_and!; intros Hno; by apply insert_style_no_html_run.
Qed.

End MoreStyle.

(** ** Edge cases *)

Section Edges.
Context `{Collaborators}.
Implicit Types (σ : store) (F : list node).

(** X17: at the start of a text, [REPEATED_BLANK_LINES] matches exactly
    when the whitespace the text begins with holds two or more line ends,
    and the match is then all of that whitespace; [sub] accordingly puts
    the replacement in the place of such whitespace, keeps whitespace with
    fewer line ends, and goes on with the text after it. *)
Theorem REPEATED_BLANK_LINES_matches (w r repl : string) :
  all_chars isspace w → stops isspace r →
  re_match REPEATED_BLANK_LINES (w +:+ r)
  = (if decide (2 ≤ newlines w) then Some r else None)
  ∧ re_sub REPEATED_BLANK_LINES repl (w +:+ r)
    = (if decide (2 ≤ newlines w) then repl else w)
      +:+ re_sub REPEATED_BLANK_LINES repl r.
Proof.
  intros Hw Hr. split; [by apply re_match_REPEATED_BLANK_LINES|].
  unfold re_sub. destruct (decide (2 ≤ newlines w)) as [Hn|Hn].
  - destruct w as [|c w]; [simpl in Hn; lia|].
    change (String c w +:+ r) with (String c (w +:+ r)).
    cbn [re_sub_from].
    change (String c (w +:+ r)) with (String c w +:+ r).
    rewrite re_match_REPEATED_BLANK_LINES, decide_True by done.
    replace (String.length (String c w +:+ r) - String.length r)
      with (S (String.length w))
      by (simpl; rewrite length_app_string; lia).
    by rewrite re_sub_from_skip.
  - apply re_sub_keeps_whitespace; [done..|lia].
Qed.

(** X18: on a document without script and style elements,
    [_remove_undiffable_content] returns the soup with an empty table and
    changes nothing. *)
Theorem remove_undiffable_content_nothing σ soup T prefix :
  deref soup (objects σ) = Some T →
  filter (λ n, name_in UNDIFFABLE n) (descendants T) = [] →
  _remove_undiffable_content soup prefix σ = Ok ((soup, ∅), σ).
Proof.
  intros HT Hnone. unfold _remove_undiffable_content, find_all.
  erewrite bind_run.
  2:{ erewrite bind_run by (by apply get_deref). reflexivity. }
  change (filter (λ n, name_in ["script"; "style"] n) (descendants T))
    with (filter (λ n, name_in UNDIFFABLE n) (descendants T)).
  by rewrite Hnone.
Qed.

(** X19: when nothing in the parsed document is visible (all of its text
    is in comments or directly in script, style, head or title elements,
    or there is no text at all), [_get_visible_text] returns the empty
    string. *)
Theorem get_visible_text_nothing_visible html σ :
  wf σ → visible_fragments (lxml_parse html) = [] →
  ∃ σ', _get_visible_text html σ = Ok ("", σ').
Proof.
  intros Hwf Hnone.
  destruct (get_visible_text_run html σ Hwf) as (σ' & Hrun & _).
  exists σ'. rewrite Hrun. unfold visible_text_of. by rewrite Hnone.
Qed.

(** X20: when the one element of the document that carries the
    [wm-diff-replacement] attribute has an identifier bound in the table
    to a parentless object (other than the document) that is true as a
    condition, [_add_undiffable_content] puts that object, with all below
    it, in the place of the element; the element becomes parentless and
    the rest of the document is unchanged. *)
Theorem add_undiffable_content_restores σ soup T e key R tbl :
  wf σ → T ∈ objects σ → oid_of T = soup →
  filter (λ n, is_Some (lookup_attr ATTR (attrs_of n))) (descendants T)
  = [e] →
  lookup_attr ATTR (attrs_of e) = Some key →
  tbl !! key = Some (oid_of R) →
  R ∈ objects σ → oid_of R ≠ soup → truthy R →
  ∃ σ',
    _add_undiffable_content soup tbl σ = Ok (soup, σ')
    ∧ wf σ'
    ∧ deref soup (objects σ') = Some (edit (at_oid (oid_of e) [R]) T)
    ∧ e ∈ objects σ'.
Proof.
  intros Hwf HT <- Hsel Hkey Htbl HR HRT Htruthy.
  assert (e ∈ descendants T) as He.
  { assert (e ∈ [e]) as Hin by by left. rewrite <-Hsel in Hin.
    by apply list_elem_of_filter in Hin as [_ ?]. }
  pose proof (root_deref σ T Hwf HT) as HderefT.
  pose proof (descendant_deref σ _ T e Hwf HderefT He) as Hderefe.
  assert (oid_of e ∈ ids T) as HeT.
  { apply elem_of_ids. exists e. split; [|done].
    by apply descendants_subtree. }
  assert (oid_of e ∉ ids R) as HeR.
  { by apply (roots_disjoint (objects σ) T R); [apply Hwf|..]. }
  assert (oid_of R ≠ oid_of e) as Hne.
  { intros Heq. apply HeR. rewrite <-Heq. apply oid_in_ids. }
  assert (oid_of e ∉ tree_child_oids R) as Hchild.
  { intros Hin. by apply HeR, tree_child_oids_ids. }
  assert (oid_of e ∈ child_oids (objects σ)) as Hec
    by apply (root_descendant_child _ T e HT He).
  destruct (replace_with_parentless σ (oid_of e) (oid_of R) R Hwf Hec HR
              eq_refl Hne Hchild) as (E & HE & Hrun).
  assert (E = e) as -> by congruence.
  destruct (replace_store_wf σ (oid_of e) R e Hwf Hec Hderefe HR Hne Hchild)
    as (Hwf' & _).
  set (G := (edit (at_oid (oid_of e) [R])
               <$> filter (λ t, oid_of t ≠ oid_of R) (objects σ)) ++ [e])
    in *.
  exists (Store G (next_oid σ)). split_and!; [|done| |].
  - unfold _add_undiffable_content.
    erewrite bind_run by (by apply select_attr_deref).
    rewrite Hsel. cbn [fmap list_fmap for_each].
    erewrite bind_run; [reflexivity|].
    erewrite bind_run; [reflexivity|].
    unfold unshield_step, getitem_attr.
    erewrite bind_run.
    2:{ erewrite bind_run by (by apply get_deref). by rewrite Hkey. }
    unfold dict_getitem. rewrite Htbl. cbn [lift].
    erewrite bind_run by reflexivity.
    erewrite bind_run by (apply get_deref; by apply root_deref).
    apply Is_true_true in Htruthy. rewrite Htruthy. exact Hrun.
  - rewrite <-(edit_oid (at_oid (oid_of e) [R]) T).
    apply (root_deref _ _ Hwf'). cbn [objects]. apply elem_of_app. left.
    apply list_elem_of_fmap_2, list_elem_of_filter. split; [|done].
    by intros Heq.
  - cbn [objects]. apply elem_of_app. right. by left.
Qed.

End Edges.

(** ** The element differ and the last phase of the renderer *)

Section FinalPhase.
Context `{Collaborators}.
Implicit Types (σ : store) (F : list node).

(** X21: [_diff_elements] changes no object that exists when it is
    called: whatever it is given, the store afterwards is the store before
    followed by new parentless objects, so both inputs (and the documents
    they are in) are exactly as they were. *)
Theorem diff_elements_only_adds σ (o n : option oid) :
  wf σ →
  (∀ i, o = Some i → is_Some (deref i (objects σ))) →
  (∀ i, n = Some i → ∃ j nm a cs, deref i (objects σ) = Some (Tag j nm a cs)) →
  ∃ d σ' new,
    _diff_elements o n σ = Ok (d, σ')
    ∧ objects σ' = objects σ ++ new
    ∧ ∀ i x, deref i (objects σ) = Some x → deref i (objects σ') = Some x.
Proof.
  intros Hwf Ho Hn.
  assert (∀ new i x, deref i (objects σ) = Some x →
                     deref i (objects σ ++ new) = Some x) as Hkeep.
  { intros new i x Hx. rewrite deref_app_l; [done|].
    apply deref_Some in Hx as [Hx <-]. apply elem_of_oids. eauto. }
  destruct o as [o|]; [|exists (Markup ""), σ, [];
                         split_and!; [by destruct n|by rewrite app_nil_r|done]].
  destruct n as [n|]; [|exists (Markup ""), σ, [];
                         split_and!; [done|by rewrite app_nil_r|done]].
  destruct (Ho o eq_refl) as [O HO].
  destruct (Hn n eq_refl) as (j & nm & a & cs & HN).
  destruct (diff_elements_store σ o n O j nm a cs Hwf HO HN)
    as (j' & cs' & Hrun & _).
  cbn zeta in Hrun. eexists _, _, _. split_and!; [exact Hrun|done|].
  cbn [objects]. apply Hkeep.
Qed.

Lemma attrs_strip cs :
  attrs_of <$> (cs ≫= subtree_nodes)
  = attrs_of <$> ((strip_ids <$> cs) ≫= subtree_nodes).
Proof.
  rewrite list_fmap_bind, !fmap_bind. apply list_bind_ext; [|done].
  intros c. simpl. rewrite subtree_nodes_strip, <-list_fmap_compose.
  apply list_fmap_ext. intros _ n _. by destruct n.
Qed.

Lemma filter_attrs (l1 l2 : list node) :
  attrs_of <$> l1 = attrs_of <$> l2 →
  attrs_of <$> filter (λ n, is_Some (lookup_attr ATTR (attrs_of n))) l1
  = attrs_of <$> filter (λ n, is_Some (lookup_attr ATTR (attrs_of n))) l2.
Proof.
  revert l2. induction l1 as [|x l1 IH]; intros [|y l2] Heq; try done.
  rewrite !fmap_cons in Heq. injection Heq as Hxy Heq.
  rewrite !filter_cons, Hxy.
  case_decide; [rewrite !fmap_cons, Hxy; f_equal|]; by apply IH.
Qed.

(** X22: once the tree is built, [html_diff_render] serialises it, parses
    the serialisation again, and restores the shielded elements into that
    new document with the merged tables.  When the re-parsed document
    holds no element with the marker attribute, the result is its
    serialisation; when the first element that carries the attribute has
    an identifier bound in neither table, [html_diff_render] raises
    [KeyError] for it. *)
Theorem html_diff_render_final_phase a_text b_text σ soup r_old r_new σ' T :
  html_diff_render_tree a_text b_text σ = Ok ((soup, r_old, r_new), σ') →
  wf σ' → deref soup (objects σ') = Some T →
  (Forall (λ n, lookup_attr ATTR (attrs_of n) = None)
     (lxml_parse (prettify T) ≫= subtree_nodes) →
   ∃ cs σ'',
     strip_ids <$> cs = strip_ids <$> lxml_parse (prettify T)
     ∧ html_diff_render a_text b_text σ
       = Ok (prettify (Tag (next_oid σ') "[document]" [] cs), σ''))
  ∧ (∀ e key,
       head (filter (λ n, is_Some (lookup_attr ATTR (attrs_of n)))
               (lxml_parse (prettify T) ≫= subtree_nodes)) = Some e →
       lookup_attr ATTR (attrs_of e) = Some key →
       (r_old ∪ r_new) !! key = None →
       html_diff_render a_text b_text σ = Raise (KeyError key)).
Proof.
  intros Htree Hwf HT.
  destruct (BeautifulSoup_run (prettify T) σ' Hwf)
    as (cs & m & Hsoup & Hwf2 & Hcs & _).
  set (k := next_oid σ') in *.
  set (T2 := Tag k "[document]" [] cs) in *. cbn zeta in Hsoup, Hwf2.
  set (σ2 := Store (objects σ' ++ [T2]) m) in *.
  assert (T2 ∈ objects σ2) as HT2 by (apply elem_of_app; right; by left).
  pose proof (root_deref σ2 T2 Hwf2 HT2) as Hderef2.
  pose proof (filter_attrs _ _
                (eq_trans (attrs_strip cs)
                   (eq_trans (f_equal (λ l, attrs_of <$> (l ≫= subtree_nodes))
                                Hcs)
                      (eq_sym (attrs_strip (lxml_parse (prettify T)))))))
    as Hattrs.
  assert (∀ k' : oid → gmap string oid → gmap string oid → M string,
            (let* (soup_new, replacements_old, replacements_new) :=
                   html_diff_render_tree a_text b_text in
                 let* tree := get soup_new in
                 let* soup_new := BeautifulSoup (prettify tree) in
                 k' soup_new replacements_old replacements_new) σ
                = k' k r_old r_new σ2) as Hstart.
  { intros k'. erewrite bind_run by exact Htree. cbv beta iota.
    erewrite bind_run by (by apply get_deref).
    by erewrite bind_run by exact Hsoup. }
  split.
  - intros Hnone. exists cs, σ2. split; [done|].
    unfold html_diff_render.
    rewrite (Hstart (λ soup_new ro rn,
               let* soup_new := _add_undiffable_content soup_new (ro ∪ rn) in
               let* tree := get soup_new in ret (prettify tree))).
    cbv beta.
    assert (filter (λ n, is_Some (lookup_attr ATTR (attrs_of n)))
              (cs ≫= subtree_nodes) = []) as Hclean.
    { rewrite (filter_none _ (lxml_parse (prettify T) ≫= subtree_nodes))
        in Hattrs.
      - by apply fmap_nil_inv in Hattrs.
      - rewrite Forall_forall in Hnone. intros x Hx [v' Hv'].
        by rewrite (Hnone x Hx) in Hv'. }
    erewrite bind_run.
    2:{ unfold _add_undiffable_content.
        erewrite bind_run by (by apply select_attr_deref).
        unfold descendants, T2 at 1. cbn [contents_of]. rewrite Hclean.
        reflexivity. }
    by erewrite bind_run by (by apply get_deref).
  - intros e key Hhead Hkey Hmiss.
    unfold html_diff_render.
    rewrite (Hstart (λ soup_new ro rn,
               let* soup_new := _add_undiffable_content soup_new (ro ∪ rn) in
               let* tree := get soup_new in ret (prettify tree))).
    cbv beta. apply bind_raise.
    destruct (filter (λ n, is_Some (lookup_attr ATTR (attrs_of n)))
                (lxml_parse (prettify T) ≫= subtree_nodes))
      as [|e0 rest0] eqn:Hf0; [done|]. injection Hhead as ->.
    destruct (filter (λ n, is_Some (lookup_attr ATTR (attrs_of n)))
                (cs ≫= subtree_nodes)) as [|e' rest] eqn:Hf; [done|].
    rewrite !fmap_cons in Hattrs. injection Hattrs as Hee _.
    assert (e' ∈ descendants T2) as He'.
    { unfold descendants, T2. cbn [contents_of].
      assert (e' ∈ e' :: rest) as Hin by by left.
      rewrite <-Hf in Hin. by apply list_elem_of_filter in Hin as [_ ?]. }
    unfold _add_undiffable_content.
    erewrite bind_run by (by apply select_attr_deref).
    unfold descendants, T2 at 1. cbn [contents_of]. rewrite Hf.
    cbn [fmap list_fmap for_each]. do 2 apply bind_raise.
    unfold unshield_step, getitem_attr.
    erewrite bind_run.
    2:{ erewrite bind_run
          by (apply get_deref; by apply (descendant_deref σ2 k T2)).
        by rewrite Hee, Hkey. }
    apply bind_raise. unfold lift, dict_getitem. by rewrite Hmiss.
Qed.

End FinalPhase.

(** ** The further properties on sample inputs *)

Lemma wf_comment_document : wf comment_document.
Proof. apply (bool_decide_unpack _). by vm_compute. Qed.

Lemma wf_shielded_document : wf shielded_document.
Proof. apply (bool_decide_unpack _). by vm_compute. Qed.

(** An engine that reports the tag [~]. *)
Lemma compute_dmp_diff_unknown_tag_sample :
  compute_dmp_diff (H := odd_collaborators) (PyStr "a") (PyStr "b") 4
  = Raise (KeyError "~").
Proof.
  apply (compute_dmp_diff_unknown_tag (H := odd_collaborators)
           (PyStr "a") (PyStr "b") 4 [("=", PyStr "a")] ("~", PyStr "b") []).
  - reflexivity.
  - repeat constructor.
  - apply (bool_decide_unpack _). by vm_compute.
Defined.

(** The text diff of two paragraphs. *)
Lemma html_text_diff_sample :
  (∃ σ', html_text_diff (H := sample_collaborators) "a" "b" empty_store
         = lift (compute_dmp_diff (H := sample_collaborators)
                   (PyStr (visible_text_of (H := sample_collaborators) "a"))
                   (PyStr (visible_text_of (H := sample_collaborators) "b"))
                   2) σ')
  ∧ ∀ msg, html_text_diff (H := sample_collaborators) "a" "b" empty_store
           ≠ Raise (TypeError msg).
Proof.
  apply (html_text_diff_visible_texts (H := sample_collaborators) "a" "b"
           empty_store wf_empty_store).
Defined.

(** The two visible texts of a padded paragraph and a plain one. *)
Lemma side_by_side_text_sample :
  ∃ σ', side_by_side_text (H := sample_collaborators) " a " "b" empty_store
        = Ok ({[ "a_text" := "a"; "b_text" := "b" ]}, σ')
        ∧ wf σ'.
Proof.
  apply (side_by_side_text_entries (H := sample_collaborators) " a " "b"
           empty_store wf_empty_store).
Defined.

(** [_is_visible] on the soup object itself. *)
Lemma is_visible_soup :
  _is_visible (H := sample_collaborators) 0 script_document
  = Raise (AttributeError "'NoneType' object has no attribute 'name'").
Proof.
  apply (is_visible_parentless (H := sample_collaborators) script_document 0).
  apply (bool_decide_unpack _). by vm_compute.
Defined.

(** A comment in a paragraph is reported visible. *)
Lemma is_visible_comment_in_paragraph :
  _is_visible (H := sample_collaborators) 4 comment_document
  = Ok (true, comment_document).
Proof.
  apply (is_visible_parent_name (H := sample_collaborators) comment_document
           (NavigableString 4 Comment " x ")
           (Tag 3 "p" []
              [NavigableString 4 Comment " x ";
               NavigableString 5 PlainString "a"])).
  - apply wf_comment_document.
  - vm_compute. do 4 right. left.
  - vm_compute. do 3 right. left.
  - vm_compute. left.
Defined.

(** The strings of a document with a doctype and a comment. *)
Lemma get_text_sample :
  ∃ l σ',
    _get_text (H := odd_collaborators) "x" empty_store = Ok (l, σ')
    ∧ string_at (objects σ') <$> l
      = [Some (Doctype, "html"); Some (PlainString, "x")].
Proof.
  apply (get_text_strings (H := odd_collaborators) "x" empty_store
           wf_empty_store).
Defined.

(** The normal form of a text with three line ends in a row. *)
Lemma get_visible_text_normal_form_sample :
  ∃ out σ',
    _get_visible_text (H := sample_collaborators)
      (" a" +:+ newline +:+ " " +:+ newline +:+ newline +:+ "b ") empty_store
    = Ok (out, σ')
    ∧ strip (re_sub REPEATED_BLANK_LINES (newline +:+ newline) out) = out.
Proof.
  apply (get_visible_text_normal_form (H := sample_collaborators) _
           empty_store wf_empty_store).
Defined.

Lemma get_visible_text_keeps_ink_sample :
  ∃ out σ',
    _get_visible_text (H := sample_collaborators)
      (" a" +:+ newline +:+ " " +:+ newline +:+ newline +:+ "b ") empty_store
    = Ok (out, σ')
    ∧ ink out = ["a"; "b"]%char.
Proof.
  apply (get_visible_text_keeps_ink (H := sample_collaborators)
           (" a" +:+ newline +:+ " " +:+ newline +:+ newline +:+ "b ")
           empty_store wf_empty_store).
Defined.

(** Restoring a document that holds no placeholder. *)
Lemma add_undiffable_content_script_document :
  _add_undiffable_content 0 {[ "old-0" := 8 ]} script_document
  = Ok (0, script_document).
Proof.
  apply (add_undiffable_content_unmarked script_document 0
           script_document_tree).
  - reflexivity.
  - apply (bool_decide_unpack _). by vm_compute.
Defined.

(** The table for the document with a style and a script element. *)
Lemma remove_undiffable_content_table_sample :
  ∃ tbl σ',
    _remove_undiffable_content 0 "old" script_document = Ok ((0, tbl), σ')
    ∧ ∀ key e,
        tbl !! key = Some e ↔
        ∃ i, key = replacement_id "old" i ∧ [3; 8] !! i = Some e.
Proof.
  apply (remove_undiffable_content_table script_document 0
           script_document_tree "old");
    [apply wf_script_document|by left|reflexivity].
Defined.

Lemma remove_undiffable_content_placeholders_sample :
  ∃ tbl σ',
    _remove_undiffable_content 0 "old" script_document = Ok ((0, tbl), σ')
    ∧ wf σ'
    ∧ select_attr 0 ATTR σ' = Ok ([10; 12], σ')
    ∧ ∀ i n,
        [Tag 3 "style" [] [NavigableString 4 PlainString "p {}"];
         Tag 8 "script" [("type", "text/javascript")]
           [NavigableString 9 PlainString "x = 1"]] !! i = Some n →
        tbl !! replacement_id "old" i = Some (oid_of n)
        ∧ deref (oid_of n) (objects σ') = Some n
        ∧ (oid_of n ∉ child_oids (objects σ'))
        ∧ deref (10 + 2 * i) (objects σ')
          = Some (placeholder_of 10 "old" i n).
Proof.
  apply (remove_undiffable_content_placeholders script_document 0
           script_document_tree "old").
  - apply wf_script_document.
  - by left.
  - reflexivity.
  - apply (bool_decide_unpack _). by vm_compute.
  - apply (bool_decide_unpack _). by vm_compute.
Defined.

(** The tables for 'old' and 'new' of the same document. *)
Lemma shield_tables_disjoint_sample :
  ∃ tbl1 tbl2 σ1 σ2,
    _remove_undiffable_content 0 "old" script_document = Ok ((0, tbl1), σ1)
    ∧ _remove_undiffable_content 0 "new" script_document
      = Ok ((0, tbl2), σ2)
    ∧ tbl1 ##ₘ tbl2.
Proof.
  destruct (remove_undiffable_content_run 0 "old" script_document
              wf_script_document) as (tbl1 & σ1 & Hrun1 & _);
    [by left|].
  destruct (remove_undiffable_content_run 0 "new" script_document
              wf_script_document) as (tbl2 & σ2 & Hrun2 & _);
    [by left|].
  exists tbl1, tbl2, σ1, σ2. split_and!; [done..|].
  apply (shield_tables_disjoint "old" "new" 0 0 script_document
           script_document 0 0 tbl1 tbl2 σ1 σ2); [done|done|done].
Defined.

(** A document whose head is empty gets the stylesheet there. *)
Lemma insert_style_existing_head_sample :
  ∃ cs σ' hd ha hcs j j',
    let T := Tag 0 "[document]" [] cs in
    let T' := update_contents hd (λ l, l ++ [style_tag j j' "p {}"]) T in
    strip_ids <$> cs
    = strip_ids <$> lxml_parse (Collaborators := odd_collaborators) "<head>"
    ∧ head (filter (λ n, is_named "head" n) (descendants T))
      = Some (Tag hd "head" ha hcs)
    ∧ insert_style (H := odd_collaborators) "<head>" "p {}" empty_store
      = Ok (prettify (Collaborators := odd_collaborators) T', σ')
    ∧ head (filter (λ n, is_named "head" n) (descendants T'))
      = Some (Tag hd "head" ha (hcs ++ [style_tag j j' "p {}"])).
Proof.
  apply (insert_style_existing_head (H := odd_collaborators) "<head>" "p {}"
           empty_store (Tag 0 "head" [] []) wf_empty_store).
  - vm_compute. right. left.
  - done.
Defined.

(** A headless document gets a head with the stylesheet. *)
Lemma insert_style_headless_sample :
  ∃ σ' pre' h hs' post' hd j j',
    insert_style (H := odd_collaborators) "x" "p {}" empty_store
    = Ok (prettify (Collaborators := odd_collaborators)
            (doc 0 "[document]" [] pre' h [] post'
               (Tag hd "head" [] [style_tag j j' "p {}"] :: hs')), σ')
    ∧ strip_ids <$> pre' = [NavigableString 0 Doctype "html"]
    ∧ strip_ids <$> hs'
      = [Tag 0 "body" []
           [Tag 0 "p" []
              [NavigableString 0 Comment " c ";
               NavigableString 0 PlainString "x"]]]
    ∧ strip_ids <$> post' = [].
Proof.
  apply (insert_style_headless (H := odd_collaborators) "x" "p {}"
           empty_store [NavigableString 0 Doctype "html"] 0 []
           [Tag 0 "body" []
              [Tag 0 "p" []
                 [NavigableString 0 Comment " c ";
                  NavigableString 0 PlainString "x"]]] []
           wf_empty_store).
  - reflexivity.
  - by repeat constructor.
  - constructor.
  - reflexivity.
Defined.

(** The empty string, and diff libraries that return it. *)
Lemma insert_style_requires_html_sample :
  insert_style (H := sample_collaborators) "" "p {}" empty_store
  = Raise NO_INSERT
  ∧ html_tree_diff (H := sample_collaborators) (H0 := sample_libraries)
      "a" "" empty_store = Raise NO_INSERT
  ∧ html_differ (H := sample_collaborators) (H0 := sample_libraries)
      "a" "" empty_store = Raise NO_INSERT.
Proof.
  destruct (insert_style_requires_html (H := sample_collaborators)
              (H0 := sample_libraries) "" "" "p {}" empty_store
              wf_empty_store) as (H1 & _ & _).
  destruct (insert_style_requires_html (H := sample_collaborators)
              (H0 := sample_libraries) "a" "" "p {}" empty_store
              wf_empty_store) as (_ & H2 & H3).
  split_and!; [apply H1|apply H2|apply H3]; constructor.
Defined.

(** Diff libraries that return a document with a head. *)
Lemma html_tree_diff_and_differ_style_sample :
  (∃ cs σ' hd ha hcs j j',
     strip_ids <$> cs
     = [Tag 0 "html" [] [Tag 0 "head" [] []; Tag 0 "body" [] []]]
     ∧ head (filter (λ n, is_named "head" n) (cs ≫= subtree_nodes))
       = Some (Tag hd "head" ha hcs)
     ∧ html_tree_diff (H := odd_collaborators) (H0 := sample_libraries)
         "a" "<head>" empty_store
       = Ok (prettify (Collaborators := odd_collaborators)
               (update_contents hd
                  (λ l, l ++ [style_tag j j' TREE_DIFF_CSS])
                  (Tag 0 "[document]" [] cs)), σ'))
  ∧ (∃ cs σ' hd ha hcs j j',
       strip_ids <$> cs
       = [Tag 0 "html" [] [Tag 0 "head" [] []; Tag 0 "body" [] []]]
       ∧ head (filter (λ n, is_named "head" n) (cs ≫= subtree_nodes))
         = Some (Tag hd "head" ha hcs)
       ∧ html_differ (H := odd_collaborators) (H0 := sample_libraries)
           "a" "<head>" empty_store
         = Ok (prettify (Collaborators := odd_collaborators)
                 (update_contents hd
                    (λ l, l ++ [style_tag j j' DIFFER_CSS])
                    (Tag 0 "[document]" [] cs)), σ')).
Proof.
  destruct (html_tree_diff_and_differ_style (H := odd_collaborators)
              (H0 := sample_libraries) "a" "<head>" empty_store
              wf_empty_store) as [H1 H2].
  split.
  - apply (H1 (Tag 0 "head" [] [])); [vm_compute; right; left|done].
  - apply (H2 (Tag 0 "head" [] [])); [vm_compute; right; left|done].
Defined.

(** A line end, a blank line, then text. *)
Lemma REPEATED_BLANK_LINES_matches_sample :
  re_match REPEATED_BLANK_LINES
    (newline +:+ " " +:+ newline +:+ "a") = Some "a"
  ∧ re_sub REPEATED_BLANK_LINES "|" (newline +:+ " " +:+ newline +:+ "a")
    = "|a".
Proof.
  apply (REPEATED_BLANK_LINES_matches
           (newline +:+ " " +:+ newline) "a" "|"); done.
Defined.

(** Shielding a document without script and style. *)
Lemma remove_undiffable_content_comment_document :
  _remove_undiffable_content 0 "old" comment_document
  = Ok ((0, ∅), comment_document).
Proof.
  apply (remove_undiffable_content_nothing comment_document 0
           (Tag 0 "[document]" []
              [Tag 1 "html" []
                 [Tag 2 "body" []
                    [Tag 3 "p" []
                       [NavigableString 4 Comment " x ";
                        NavigableString 5 PlainString "a"]]]])); reflexivity.
Defined.

(** The visible text of the empty string. *)
Lemma get_visible_text_empty :
  ∃ σ', _get_visible_text (H := sample_collaborators) "" empty_store
        = Ok ("", σ').
Proof.
  apply (get_visible_text_nothing_visible (H := sample_collaborators) ""
           empty_store wf_empty_store). reflexivity.
Defined.

(** Restoring the script of the shielded document. *)
Lemma add_undiffable_content_restores_sample :
  ∃ σ',
    _add_undiffable_content 0 {[ "old-0" := 5 ]} shielded_document
    = Ok (0, σ')
    ∧ wf σ'
    ∧ deref 0 (objects σ')
      = Some (Tag 0 "[document]" []
                [Tag 1 "html" []
                   [Tag 2 "body" []
                      [Tag 5 "script" []
                         [NavigableString 6 PlainString "x = 1"]]]])
    ∧ Tag 3 "script" [(ATTR, "old-0")]
        [NavigableString 4 PlainString "$[old-0]$"] ∈ objects σ'.
Proof.
  apply (add_undiffable_content_restores shielded_document 0
           (Tag 0 "[document]" []
              [Tag 1 "html" []
                 [Tag 2 "body" []
                    [Tag 3 "script" [(ATTR, "old-0")]
                       [NavigableString 4 PlainString "$[old-0]$"]]]])
           (Tag 3 "script" [(ATTR, "old-0")]
              [NavigableString 4 PlainString "$[old-0]$"])
           "old-0"
           (Tag 5 "script" [] [NavigableString 6 PlainString "x = 1"])
           {[ "old-0" := 5 ]}).
  - apply wf_shielded_document.
  - by left.
  - reflexivity.
  - reflexivity.
  - reflexivity.
  - reflexivity.
  - right. by left.
  - done.
  - done.
Defined.

(** The diff of a head with a title against an empty head leaves both as
    they were. *)
Lemma diff_elements_only_adds_sample :
  ∃ d σ' new,
    _diff_elements (H := sample_collaborators) (Some 0) (Some 3) two_heads
    = Ok (d, σ')
    ∧ objects σ' = objects two_heads ++ new
    ∧ ∀ i x, deref i (objects two_heads) = Some x →
             deref i (objects σ') = Some x.
Proof.
  apply (diff_elements_only_adds (H := sample_collaborators) two_heads
           (Some 0) (Some 3) wf_two_heads).
  - intros i [= <-]. by eexists.
  - intros i [= <-]. by eexists _, _, _, _.
Defined.

(** Rendering two paragraphs, and rendering two documents that use the
    marker attribute themselves. *)
Lemma html_diff_render_final_phase_sample :
  (∃ out σ'', html_diff_render (H := sample_collaborators) "a" "b"
                empty_store = Ok (out, σ''))
  ∧ html_diff_render (H := marked_collaborators) "a" "b" empty_store
    = Raise (KeyError "x").
Proof.
  split.
  - lazymatch eval vm_compute in
      (html_diff_render_tree (H := sample_collaborators) "a" "b" empty_store)
    with
    | Ok (?s, ?ro, ?rn, ?σ1) =>
        lazymatch eval vm_compute in (deref s (objects σ1)) with
        | Some ?T =>
            destruct (html_diff_render_final_phase
                        (H := sample_collaborators) "a" "b" empty_store
                        s ro rn σ1 T) as [H1 _]
        end
    end.
    + by vm_compute.
    + apply (bool_decide_unpack _). by vm_compute.
    + by vm_compute.
    + destruct H1 as (cs & σ'' & _ & Hrun);
        [apply (bool_decide_unpack _); by vm_compute|].
      by eexists _, _.
  - lazymatch eval vm_compute in
      (html_diff_render_tree (H := marked_collaborators) "a" "b" empty_store)
    with
    | Ok (?s, ?ro, ?rn, ?σ1) =>
        lazymatch eval vm_compute in (deref s (objects σ1)) with
        | Some ?T =>
            destruct (html_diff_render_final_phase
                        (H := marked_collaborators) "a" "b" empty_store
                        s ro rn σ1 T) as [_ H2]
        end
    end.
    + by vm_compute.
    + apply (bool_decide_unpack _). by vm_compute.
    + by vm_compute.
    + eapply H2; by vm_compute.
Defined.
